(** * The vapcord IPC layer: channels, ports and remote calls

    A shallow embedding of [packages/core/ipc/channel.ts] and
    [packages/core/ipc/rpc.ts].  A channel is a record of its fields; every
    method is a function from the state it runs in to the state it leaves
    and the list of effects it performs, in program order.  The JavaScript
    run time the methods rely on (promises, timers and the micro-task queue)
    is an explicit component of that state.

    Maps the code only ever looks up by key ([_callbacks], [_callers],
    [_edgePipes]) are [gmap]s; [_edges] is iterated by [findEdgeId] and
    [getEdge], and a JavaScript [Map] iterates in insertion order, so it is
    an association list kept in that order. *)

From stdpp Require Import gmap strings list.
From Stdlib Require Import ZArith NArith.

Set Default Proof Using "Type".
Set Warnings "-register-all".

(** ** Values carried by messages *)

(** The [any] payloads of the source, as far as the layer looks at them:
    [call] tests [data instanceof Error], [RemoteHost] spreads an array of
    arguments. *)
Inductive Data :=
| DUndefined
| DNum (n : Z)
| DStr (s : string)
| DArr (items : list Data)
| DErr (message : string).

Definition instanceofError (d : Data) : bool :=
  match d with DErr _ => true | _ => false end.

(** A value thrown by a handler, seen through the two observations the
    [catch] clause of [_handleMessage] makes: [error?.message] (absent when
    null or undefined) and the template rendering of the value.  Values whose
    rendering itself throws (symbols) are outside the model. *)
Record Thrown := { thrown_message : option string; thrown_text : string }.

(** [new Error(error?.message ?? `${error}`)] *)
Definition toError (e : Thrown) : Data :=
  DErr (default (thrown_text e) (thrown_message e)).

(** The settled result of the promise a handler returns.  Handlers are
    taken to be functions of their input. *)
Inductive Outcome := Returns (v : Data) | Throws (e : Thrown).

Abbreviation Caller := (Data → Outcome) (only parsing).

(** JavaScript truthiness of a string: [!s] holds of the empty string. *)
Definition truthy (s : string) : bool := negb (String.eqb s EmptyString).

(** ** Wire types *)

Module ChannelEdge.
Record t := mk { id : string; channelIds : list string }.
End ChannelEdge.

Record ChannelMessageIn :=
  { in_name : string; in_destination : string; in_data : Data }.

Record ChannelMessageOut := {
  name : string;
  destination : string;
  data : Data;
  source : string;
  proxiedBy : option string;
  nonce : option string
}.

(** A pipe is an object with an [emit] and a [listen] closure; the model
    keeps its identity.  Pipes made by a [ChannelPort] are named by the port
    and the name given to [createPipe]. *)
Record ChannelPipe := { pipe_port : nat; pipe_name : string }.

#[global] Instance ChannelPipe_eq_dec : EqDecision ChannelPipe.
Proof. solve_decision. Defined.

Inductive Payload :=
| PEdge (e : ChannelEdge.t)
| PMessage (m : ChannelMessageOut).

Definition ipcPrefix : string := "vapIpc".
Definition handshakeEvent : string := ipcPrefix +:+ ":handshake".
Definition messageEvent : string := ipcPrefix +:+ ":message".

(** ** Array helpers *)

(** [arr.includes(x)] *)
Definition includes (x : string) (arr : list string) : bool :=
  bool_decide (x ∈ arr).

(** [arr.indexOf(x)], with [None] for -1. *)
Fixpoint indexOf (x : string) (arr : list string) : option nat :=
  match arr with
  | [] => None
  | y :: rest => if decide (y = x) then Some 0 else S <$> indexOf x rest
  end.

(** [arr.splice(i, 1)] *)
Fixpoint splice1 (i : nat) (arr : list string) : list string :=
  match arr, i with
  | [], _ => []
  | _ :: rest, 0 => rest
  | y :: rest, S j => y :: splice1 j rest
  end.

(** [arr.filter((id, index, arr) => arr.indexOf(id) === index)] *)
Definition firstOccurrences (arr : list string) : list string :=
  map snd
    (filter (λ ix, indexOf ix.2 arr = Some ix.1)
       (imap (λ i x, (i, x)) arr)).

(** ** A JavaScript [Map] with string keys, in insertion order *)

Module JsMap.
Abbreviation t V := (list (string * V)) (only parsing).

Section WithValues.
Context {V : Type}.

Fixpoint get (k : string) (m : t V) : option V :=
  match m with
  | [] => None
  | (k', v) :: rest => if decide (k' = k) then Some v else get k rest
  end.

(** [set] on a key already present replaces the value where it stands;
    a new key goes to the end. *)
Fixpoint set (k : string) (v : V) (m : t V) : t V :=
  match m with
  | [] => [(k, v)]
  | (k', v') :: rest =>
      if decide (k' = k) then (k, v) :: rest else (k', v') :: set k v rest
  end.

Definition keys (m : t V) : list string := map fst m.
Definition values (m : t V) : list V := map snd m.
End WithValues.
End JsMap.

(** ** The run time: promises, timers, micro-tasks *)

Module Runtime.
Inductive PromiseState :=
| Pending
| Fulfilled (v : Data)
| Rejected (e : Data).

(** The only timers of the layer are the ones [call] arms; the closure
    holds the channel (by id), the nonce and the promise to reject. *)
Record Timer := {
  deadline : N;
  t_owner : string;
  t_nonce : string;
  t_promise : nat
}.

(** A pending continuation of [caller(data).catch(..).then(..)] in
    [_handleMessage]: the request it answers and the handler's outcome. *)
Record Job := {
  j_owner : string;
  j_request : ChannelMessageOut;
  j_outcome : Outcome
}.

Record t := {
  now : N;
  promises : gmap nat PromiseState;
  nextPromise : nat;
  timers : list (nat * Timer);
  nextTimer : nat;
  microtasks : list Job
}.

Definition init : t :=
  {| now := 0; promises := ∅; nextPromise := 0;
     timers := []; nextTimer := 0; microtasks := [] |}.

(** [new Promise(..)] / [Promise.resolve(v)] *)
Definition newPromise (st : PromiseState) (r : t) : nat * t :=
  (nextPromise r,
   {| now := now r; promises := <[nextPromise r := st]> (promises r);
      nextPromise := S (nextPromise r);
      timers := timers r; nextTimer := nextTimer r;
      microtasks := microtasks r |}).

(** [resolve(v)] or [reject(e)]: only a pending promise changes. *)
Definition settle (p : nat) (st : PromiseState) (r : t) : t :=
  match promises r !! p with
  | Some Pending =>
      {| now := now r; promises := <[p := st]> (promises r);
         nextPromise := nextPromise r;
         timers := timers r; nextTimer := nextTimer r;
         microtasks := microtasks r |}
  | _ => r
  end.

(** The delay a timer runs with: the platform keeps it in a signed 32-bit
    integer, and a delay that is less than 1 or more than [TIMEOUT_MAX]
    is set to 1. *)
Definition TIMEOUT_MAX : N := 2147483647.

Definition delayOf (delay : N) : N :=
  if ((1 <=? delay) && (delay <=? TIMEOUT_MAX))%N then delay else 1.

(** [setTimeout(fn, delay)] *)
Definition setTimeout (delay : N) (owner nonce : string) (p : nat) (r : t)
  : nat * t :=
  (nextTimer r,
   {| now := now r; promises := promises r; nextPromise := nextPromise r;
      timers := timers r ++
        [(nextTimer r,
          {| deadline := now r + delayOf delay; t_owner := owner;
             t_nonce := nonce; t_promise := p |})];
      nextTimer := S (nextTimer r);
      microtasks := microtasks r |}).

Definition dropTimer (tid : nat) (r : t) : t :=
  {| now := now r; promises := promises r; nextPromise := nextPromise r;
     timers := filter (λ e, e.1 ≠ tid) (timers r);
     nextTimer := nextTimer r; microtasks := microtasks r |}.

(** [clearTimeout(tid)] *)
Definition clearTimeout (tid : nat) (r : t) : t := dropTimer tid r.

Definition enqueue (j : Job) (r : t) : t :=
  {| now := now r; promises := promises r; nextPromise := nextPromise r;
     timers := timers r; nextTimer := nextTimer r;
     microtasks := microtasks r ++ [j] |}.

Definition setNow (n : N) (r : t) : t :=
  {| now := n; promises := promises r; nextPromise := nextPromise r;
     timers := timers r; nextTimer := nextTimer r;
     microtasks := microtasks r |}.

Definition setMicrotasks (q : list Job) (r : t) : t :=
  {| now := now r; promises := promises r; nextPromise := nextPromise r;
     timers := timers r; nextTimer := nextTimer r; microtasks := q |}.

(** Timers in firing order: by deadline, ties in creation order. *)
Fixpoint insertByDeadline (e : nat * Timer) (l : list (nat * Timer))
  : list (nat * Timer) :=
  match l with
  | [] => [e]
  | e' :: rest =>
      if (deadline e.2 <=? deadline e'.2)%N then e :: l
      else e' :: insertByDeadline e rest
  end.

Definition firingOrder (l : list (nat * Timer)) : list (nat * Timer) :=
  foldr insertByDeadline [] l.
End Runtime.

(** ** Effects *)

(** Names on a channel's local [EventEmitter]: message names, and the
    symbol [kEdgeCreate], which no message name can equal. *)
Inductive EventName := Named (s : string) | kEdgeCreate.

#[global] Instance EventName_eq_dec : EqDecision EventName.
Proof. solve_decision. Defined.

Inductive EventArg := ArgData (d : Data) | ArgEdge (e : ChannelEdge.t).

Inductive LogLine :=
| AddingPipe (channel : string)
| Handshaking (from to : string) (edges : list string).

(** What a method does to the world outside the channel's own fields, in
    program order.  [EmitHandshake pipe] is a call of
    [this._emitHandshake(pipe)] still to be run: its payload is read from
    the channel when it runs, which matters when an earlier emission of the
    same [handshakeAll] comes back synchronously through a port. *)
Inductive Effect :=
| Log (line : LogLine)
| ConsoleError (e : Thrown)
| PipeListen (pipe : ChannelPipe) (event : string)
| PipeEmit (pipe : ChannelPipe) (event : string) (payload : Payload)
| EmitHandshake (pipe : ChannelPipe)
| EmitterEmit (event : EventName) (arg : EventArg)
| ListenerCall (fn : nat) (arg : EventArg)
| CallerCall (name : string) (data : Data).

(** ** The channel *)

Module Channel.

(** Functions registered on the local emitter: a user's, known by an
    identity, or the [checkEdge] closure of a [waitForEdge] call, which
    holds the awaited destination and the promise to resolve. *)
Inductive ListenerFn :=
| UserFn (f : nat)
| checkEdge (destination : string) (promise : nat).

#[global] Instance ListenerFn_eq_dec : EqDecision ListenerFn.
Proof. solve_decision. Defined.

Record Registration :=
  { r_event : EventName; r_fn : ListenerFn; r_once : bool }.

(** The closure stored under a nonce by [call]. *)
Record Callback := { cb_timeout : nat; cb_promise : nat }.

Record t := {
  id : string;
  _edges : JsMap.t ChannelEdge.t;          (* edge id -> edge *)
  _callbacks : gmap string Callback;       (* nonce -> callback *)
  _callers : gmap string Caller;           (* message name -> caller *)
  _edgePipes : gmap string ChannelPipe;    (* edge id -> pipe *)
  _pipes : list ChannelPipe;
  _emitter : list Registration;
  _logger : bool;
  _destroyed : bool
}.

(** [new Channel(id)] *)
Definition new (id : string) : t :=
  {| id := id; _edges := []; _callbacks := ∅; _callers := ∅;
     _edgePipes := ∅; _pipes := []; _emitter := [];
     _logger := false; _destroyed := false |}.

Definition with_edges (x : JsMap.t ChannelEdge.t) (c : t) : t :=
  {| id := id c; _edges := x; _callbacks := _callbacks c;
     _callers := _callers c; _edgePipes := _edgePipes c;
     _pipes := _pipes c; _emitter := _emitter c;
     _logger := _logger c; _destroyed := _destroyed c |}.

Definition with_callbacks (x : gmap string Callback) (c : t) : t :=
  {| id := id c; _edges := _edges c; _callbacks := x;
     _callers := _callers c; _edgePipes := _edgePipes c;
     _pipes := _pipes c; _emitter := _emitter c;
     _logger := _logger c; _destroyed := _destroyed c |}.

Definition with_callers (x : gmap string Caller) (c : t) : t :=
  {| id := id c; _edges := _edges c; _callbacks := _callbacks c;
     _callers := x; _edgePipes := _edgePipes c;
     _pipes := _pipes c; _emitter := _emitter c;
     _logger := _logger c; _destroyed := _destroyed c |}.

Definition with_edgePipes (x : gmap string ChannelPipe) (c : t) : t :=
  {| id := id c; _edges := _edges c; _callbacks := _callbacks c;
     _callers := _callers c; _edgePipes := x;
     _pipes := _pipes c; _emitter := _emitter c;
     _logger := _logger c; _destroyed := _destroyed c |}.

Definition with_pipes (x : list ChannelPipe) (c : t) : t :=
  {| id := id c; _edges := _edges c; _callbacks := _callbacks c;
     _callers := _callers c; _edgePipes := _edgePipes c;
     _pipes := x; _emitter := _emitter c;
     _logger := _logger c; _destroyed := _destroyed c |}.

Definition with_emitter (x : list Registration) (c : t) : t :=
  {| id := id c; _edges := _edges c; _callbacks := _callbacks c;
     _callers := _callers c; _edgePipes := _edgePipes c;
     _pipes := _pipes c; _emitter := x;
     _logger := _logger c; _destroyed := _destroyed c |}.

(** [this._logger?.log(..)] *)
Definition log (line : LogLine) (c : t) : list Effect :=
  if _logger c then [Log line] else [].

Definition setLogger (c : t) : t :=
  {| id := id c; _edges := _edges c; _callbacks := _callbacks c;
     _callers := _callers c; _edgePipes := _edgePipes c;
     _pipes := _pipes c; _emitter := _emitter c;
     _logger := true; _destroyed := _destroyed c |}.

(** A channel together with the run time of the context it lives in. *)
Record World := { chan : t; rt : Runtime.t }.

Definition start (id : string) : World :=
  {| chan := new id; rt := Runtime.init |}.

(** *** Topology *)

Definition getEdge (c : t) : ChannelEdge.t :=
  let edgeIds :=
    firstOccurrences
      (JsMap.keys (_edges c) ++
       mjoin (ChannelEdge.channelIds <$> JsMap.values (_edges c))) in
  {| ChannelEdge.id := id c; ChannelEdge.channelIds := edgeIds |}.

Definition findEdgeId (destinaton : string) (c : t) : option string :=
  ChannelEdge.id <$>
    List.find
      (λ edge, bool_decide (ChannelEdge.id edge = destinaton)
               || includes destinaton (ChannelEdge.channelIds edge))
      (JsMap.values (_edges c)).

Definition _emitHandshake (pipe : ChannelPipe) (c : t) : list Effect :=
  [PipeEmit pipe handshakeEvent (PEdge (getEdge c))].

Definition _emitMessage (message : ChannelMessageOut) (c : t)
  : list Effect :=
  match findEdgeId (destination message) c with
  | None => []
  | Some edgeId =>
      if truthy edgeId then
        match _edgePipes c !! edgeId with
        | Some pipe => [PipeEmit pipe messageEvent (PMessage message)]
        | None => []
        end
      else []
  end.

Definition handshakeAll (c : t) : list Effect :=
  map EmitHandshake (_pipes c).

Definition addPipe (pipe : ChannelPipe) (c : t) : t * list Effect :=
  let c' := with_pipes (_pipes c ++ [pipe]) c in
  (c',
   [PipeListen pipe handshakeEvent; PipeListen pipe messageEvent]
     ++ log (AddingPipe (id c)) c').

(** *** The local emitter (eventemitter3) *)

Definition on (name : EventName) (fn : ListenerFn) (c : t) : t :=
  with_emitter
    (_emitter c ++ [{| r_event := name; r_fn := fn; r_once := false |}]) c.

Definition once (name : EventName) (fn : ListenerFn) (c : t) : t :=
  with_emitter
    (_emitter c ++ [{| r_event := name; r_fn := fn; r_once := true |}]) c.

(** [off(name, fn)] drops every registration of [fn] under [name];
    without [fn], every registration under [name]. *)
Definition off (name : EventName) (fn : option ListenerFn) (c : t) : t :=
  with_emitter
    (List.filter
       (λ r, negb (bool_decide (r_event r = name)
                   && match fn with
                      | Some f => bool_decide (r_fn r = f)
                      | None => true
                      end))
       (_emitter c)) c.

Definition dropOnce (name : EventName) (fn : ListenerFn) (c : t) : t :=
  with_emitter
    (List.filter
       (λ r, negb (bool_decide (r_event r = name)
                   && bool_decide (r_fn r = fn) && r_once r))
       (_emitter c)) c.

Definition invoke (fn : ListenerFn) (arg : EventArg) (w : World)
  : World * list Effect :=
  match fn with
  | UserFn f => (w, [ListenerCall f arg])
  | checkEdge destination p =>
      match arg with
      | ArgEdge edge =>
          if bool_decide (ChannelEdge.id edge = destination)
             || includes destination (ChannelEdge.channelIds edge)
          then
            ({| chan := off kEdgeCreate (Some fn) (chan w);
                rt := Runtime.settle p
                        (Runtime.Fulfilled (DStr (ChannelEdge.id edge)))
                        (rt w) |}, [])
          else (w, [])
      | ArgData _ => (w, [])
      end
  end.

(** [this._emitter.emit(name, arg)]: the listeners registered when the
    call starts run in registration order; a [once] listener is removed
    before it runs. *)
Definition emit (name : EventName) (arg : EventArg) (w : World)
  : World * list Effect :=
  foldl
    (λ acc r,
       let w1 :=
         if r_once r
         then {| chan := dropOnce name (r_fn r) (chan acc.1);
                 rt := rt acc.1 |}
         else acc.1 in
       let res := invoke (r_fn r) arg w1 in
       (res.1, acc.2 ++ res.2))
    (w, [EmitterEmit name arg])
    (filter (λ r, r_event r = name) (_emitter (chan w))).

(** *** Handshakes *)

Definition _handleHandshake (pipe : ChannelPipe) (edge : ChannelEdge.t)
  (w : World) : World * list Effect :=
  let c := chan w in
  if decide (id c = ChannelEdge.id edge) then (w, [])
  else
    let logged :=
      log (Handshaking (ChannelEdge.id edge) (id c)
             (ChannelEdge.channelIds edge)) c in
    let announce (c' : t) :=
      let res := emit kEdgeCreate (ArgEdge edge)
                   {| chan := c'; rt := rt w |} in
      (res.1, logged ++ res.2 ++ handshakeAll (chan res.1)) in
    match JsMap.get (ChannelEdge.id edge) (_edges c) with
    | Some prevEdge =>
        let newEdgeIds :=
          filter (λ edgeId, edgeId ∉ ChannelEdge.channelIds prevEdge)
            (ChannelEdge.channelIds edge) in
        let newEdgeIds :=
          if includes (id c) newEdgeIds
          then match indexOf (id c) newEdgeIds with
               | Some i => splice1 i newEdgeIds
               | None => newEdgeIds
               end
          else newEdgeIds in
        match newEdgeIds with
        | [] => (w, logged)
        | _ :: _ =>
            announce
              (with_edges
                 (JsMap.set (ChannelEdge.id edge)
                    {| ChannelEdge.id := ChannelEdge.id edge;
                       ChannelEdge.channelIds :=
                         ChannelEdge.channelIds prevEdge ++ newEdgeIds |}
                    (_edges c)) c)
        end
    | None =>
        let edgeIds :=
          filter (λ edgeId, edgeId ≠ id c)
            (ChannelEdge.channelIds edge) in
        announce
          (with_edgePipes (<[ChannelEdge.id edge := pipe]> (_edgePipes c))
             (with_edges
                (JsMap.set (ChannelEdge.id edge)
                   {| ChannelEdge.id := ChannelEdge.id edge;
                      ChannelEdge.channelIds := edgeIds |}
                   (_edges c)) c))
    end.

(** *** Messages and calls *)

(** The closure [call] stores under the nonce. *)
Definition runCallback (nonce : string) (cb : Callback) (d : Data)
  (w : World) : World :=
  let r := Runtime.clearTimeout (cb_timeout cb) (rt w) in
  {| chan := with_callbacks (delete nonce (_callbacks (chan w))) (chan w);
     rt := Runtime.settle (cb_promise cb)
             (if instanceofError d then Runtime.Rejected d
              else Runtime.Fulfilled d) r |}.

Definition _handleMessage (pipe : ChannelPipe) (message : ChannelMessageOut)
  (w : World) : World * list Effect :=
  let c := chan w in
  if decide (proxiedBy message = Some (id c)) then (w, [])
  else if decide (destination message ≠ id c) then
    (w,
     _emitMessage
       {| name := name message; destination := destination message;
          data := data message; source := source message;
          proxiedBy := Some (id c); nonce := nonce message |} c)
  else
    let event := emit (Named (name message)) (ArgData (data message)) w in
    match nonce message with
    | None => event
    | Some n =>
        if negb (truthy n) then event
        else
          match _callbacks c !! n with
          | Some callback => (runCallback n callback (data message) w, [])
          | None =>
              match _callers c !! name message with
              | Some caller =>
                  ({| chan := c;
                      rt := Runtime.enqueue
                              {| Runtime.j_owner := id c;
                                 Runtime.j_request := message;
                                 Runtime.j_outcome :=
                                   caller (data message) |}
                              (rt w) |},
                   [CallerCall (name message) (data message)])
              | None => (w, [])
              end
          end
    end.

(** The continuation of a handler's promise:
    [.catch(error => ..).then(data => this._emitMessage(..))]. *)
Definition respond (j : Runtime.Job) (c : t) : list Effect :=
  let message := Runtime.j_request j in
  let answer (d : Data) :=
    _emitMessage
      {| name := name message; source := id c;
         destination := source message; data := d;
         nonce := nonce message; proxiedBy := None |} c in
  match Runtime.j_outcome j with
  | Returns v => answer v
  | Throws e => ConsoleError e :: answer (toError e)
  end.

Definition send (messageData : ChannelMessageIn) (c : t) : list Effect :=
  _emitMessage
    {| name := in_name messageData;
       destination := in_destination messageData;
       data := in_data messageData; source := id c;
       proxiedBy := None; nonce := None |} c.

Definition defaultTimeout : N := 10000.

(** The executor of the promise [call] returns: it arms the timeout and
    stores the callback. *)
Definition register (nonce : string) (timeout : N) (w : World)
  : nat * World :=
  let pr := Runtime.newPromise Runtime.Pending (rt w) in
  let tr := Runtime.setTimeout timeout (id (chan w)) nonce pr.1 pr.2 in
  (pr.1,
   {| chan :=
        with_callbacks
          (<[nonce := {| cb_timeout := tr.1; cb_promise := pr.1 |}]>
             (_callbacks (chan w))) (chan w);
      rt := tr.2 |}).

(** [call(messageData, opts)]; [nonce] is what [createNonce()] returned.
    The result is the promise, the world and the emission. *)
Definition call (messageData : ChannelMessageIn) (opts : option N)
  (nonce : string) (w : World) : nat * World * list Effect :=
  let timeout := default defaultTimeout opts in
  let reg := register nonce timeout w in
  (reg.1, reg.2,
   _emitMessage
     {| name := in_name messageData;
        destination := in_destination messageData;
        data := in_data messageData; source := id (chan reg.2);
        proxiedBy := None; nonce := Some nonce |} (chan reg.2)).

(** The body of the timer [call] arms. *)
Definition timeoutError : Data := DErr "Call timed out".

Definition fire (e : nat * Runtime.Timer) (w : World) : World :=
  {| chan :=
       with_callbacks (delete (Runtime.t_nonce e.2) (_callbacks (chan w)))
         (chan w);
     rt := Runtime.settle (Runtime.t_promise e.2)
             (Runtime.Rejected timeoutError)
             (Runtime.dropTimer e.1 (rt w)) |}.

(** The clock reaches [time]: this channel's timers that are due fire. *)
Definition due (time : N) (w : World) : list (nat * Runtime.Timer) :=
  Runtime.firingOrder
    (filter
       (λ e, (Runtime.deadline e.2 ≤ time)%N
             ∧ Runtime.t_owner e.2 = id (chan w))
       (Runtime.timers (rt w))).

Definition advanceTo (time : N) (w : World) : World :=
  let w' := foldl (λ acc e, fire e acc) w (due time w) in
  {| chan := chan w';
     rt := Runtime.setNow (N.max (Runtime.now (rt w')) time) (rt w') |}.

Definition waitForEdge (destination : string) (w : World) : nat * World :=
  let pending :=
    let pr := Runtime.newPromise Runtime.Pending (rt w) in
    (pr.1,
     {| chan := on kEdgeCreate (checkEdge destination pr.1) (chan w);
        rt := pr.2 |}) in
  match findEdgeId destination (chan w) with
  | Some edgeId =>
      if truthy edgeId then
        let pr :=
          Runtime.newPromise (Runtime.Fulfilled (DStr edgeId)) (rt w) in
        (pr.1, {| chan := chan w; rt := pr.2 |})
      else pending
  | None => pending
  end.

(** [onCall] wraps the function in an [async] one: a throw becomes a
    rejection, which [Outcome] already is. *)
Definition onCall (name : string) (caller : Caller) (c : t) : t :=
  with_callers (<[name := caller]> (_callers c)) c.

Definition removeCaller (c : t) : t := c.

Definition destroy (c : t) : t :=
  {| id := id c; _edges := _edges c; _callbacks := ∅; _callers := ∅;
     _edgePipes := ∅; _pipes := []; _emitter := [];
     _logger := _logger c; _destroyed := true |}.
End Channel.

(** ** Remote hosts and clients *)

Module RemoteHost.
(** A [RemoteSpec], as [Object.entries] lists it. *)
Abbreviation RemoteSpec :=
  (list (string * (list Data → Outcome))) (only parsing).

(** [fn(...input)]: arrays spread into their items, strings into their
    characters, one per code point; anything else is not iterable and the
    call throws.  A string is held here as the UTF-8 bytes of its text:
    a character is a byte that is no continuation byte ([10xxxxxx])
    together with the continuation bytes that follow it. *)
Definition continuation (a : Ascii.ascii) : bool :=
  match a with
  | Ascii.Ascii _ _ _ _ _ _ b6 b7 => b7 && negb b6
  end.

Fixpoint codePoints (s : string) : list string :=
  match s with
  | EmptyString => []
  | String a rest =>
      match codePoints rest with
      | String b next :: others =>
          if continuation b then String a (String b next) :: others
          else String a EmptyString :: String b next :: others
      | others => String a EmptyString :: others
      end
  end.

Definition characters (s : string) : list Data :=
  map DStr (codePoints s).

Definition spread (input : Data) : option (list Data) :=
  match input with
  | DArr items => Some items
  | DStr s => Some (characters s)
  | _ => None
  end.

Section Engine.
(** The message of the [TypeError] the engine throws at [fn(...input)]
    when [input] cannot be spread: engines word it in their own ways,
    and by the value. *)
Variable spreadError : Data → string.

Definition notIterable (input : Data) : Thrown :=
  {| thrown_message := Some (spreadError input);
     thrown_text := String.append "TypeError: " (spreadError input) |}.

Definition wrap (fn : list Data → Outcome) : Caller :=
  λ input,
    match spread input with
    | Some args => fn args
    | None => Throws (notIterable input)
    end.

(** [new RemoteHost(channel, spec)] *)
Definition new (spec : RemoteSpec) (c : Channel.t)
  : Channel.t * list Effect :=
  let c' :=
    foldl (λ acc entry, Channel.onCall entry.1 (wrap entry.2) acc) c spec in
  (c', Channel.handshakeAll c').
End Engine.
End RemoteHost.

Module RemoteClient.
Definition connect (hostName : string) (w : Channel.World)
  : nat * Channel.World :=
  Channel.waitForEdge hostName w.

Definition run (hostName : string) (name : string) (output : list Data)
  (nonce : string) (w : Channel.World)
  : nat * Channel.World * list Effect :=
  Channel.call
    {| in_name := name; in_destination := hostName;
       in_data := DArr output |} None nonce w.
End RemoteClient.

(** ** Ports *)

Module ChannelPort.
(** The functions a pipe of a port is given to call: the two closures
    [Channel.addPipe] registers, which hold the channel and the pipe, or
    a function of some other endpoint, known by what it emits on its own
    pipe while it runs. *)
Inductive Listener :=
| OnHandshake (channel : string) (pipe : ChannelPipe)
| OnMessage (channel : string) (pipe : ChannelPipe)
| Foreign (reply : Payload → list (string * Payload)).

Record t := {
  self : nat;
  _pipes : JsMap.t ChannelPipe;
  _listeners : JsMap.t (JsMap.t Listener)
}.

Definition new (self : nat) : t :=
  {| self := self; _pipes := []; _listeners := [] |}.

Definition getPipe (name : string) (port : t) : option ChannelPipe :=
  JsMap.get name (_pipes port).

Definition createPipe (name : string) (port : t) : ChannelPipe * t :=
  match getPipe name port with
  | Some existingPipe => (existingPipe, port)
  | None =>
      let pipe := {| pipe_port := self port; pipe_name := name |} in
      (pipe,
       {| self := self port;
          _pipes := JsMap.set name pipe (_pipes port);
          _listeners := JsMap.set name [] (_listeners port) |})
  end.

(** [pipe.listen(event, fn)] for the pipe called [name] *)
Definition listen (name event : string) (fn : Listener) (port : t) : t :=
  match JsMap.get name (_listeners port) with
  | Some listenerMap =>
      {| self := self port; _pipes := _pipes port;
         _listeners :=
           JsMap.set name (JsMap.set event fn listenerMap)
             (_listeners port) |}
  | None => port
  end.

(** [_emit(sourceName, event, data)]: the listeners it calls, in order,
    each with the name of the pipe it was registered on. *)
Definition _emit (sourceName event : string) (port : t)
  : list (string * Listener) :=
  flat_map
    (λ entry,
       if decide (entry.1 = sourceName) then []
       else match JsMap.get event entry.2 with
            | Some listener => [(entry.1, listener)]
            | None => []
            end)
    (_listeners port).
End ChannelPort.

(** ** Channels wired through ports, in one context

    A port delivers synchronously: [pipe.emit] returns after every listener
    it reached has run, and those listeners emit in turn.  The call stack is
    a list of frames, the topmost first; running a frame pushes the calls it
    makes.  A stack that never empties is a JavaScript stack overflow. *)

Module Net.
Record t := {
  channels : gmap string Channel.t;
  ports : gmap nat ChannelPort.t;
  rt : Runtime.t
}.

Definition empty : t :=
  {| channels := ∅; ports := ∅; rt := Runtime.init |}.

(** The effects performed, each with the channel that performed it. *)
Abbreviation Trace := (list (string * Effect)) (only parsing).

Inductive Frame :=
| Run (channel : string) (e : Effect)
| Emit (pipe : ChannelPipe) (event : string) (payload : Payload)
| Invoke (pipe : ChannelPipe) (fn : ChannelPort.Listener)
    (payload : Payload).

Definition with_channels (x : gmap string Channel.t) (net : t) : t :=
  {| channels := x; ports := ports net; rt := rt net |}.

Definition with_ports (x : gmap nat ChannelPort.t) (net : t) : t :=
  {| channels := channels net; ports := x; rt := rt net |}.

Definition with_rt (x : Runtime.t) (net : t) : t :=
  {| channels := channels net; ports := ports net; rt := x |}.

(** A method of channel [c] runs in the shared run time. *)
Definition enter (c : string)
  (method : Channel.World → Channel.World * list Effect) (net : t)
  : t * list Frame :=
  match channels net !! c with
  | Some ch =>
      let res := method {| Channel.chan := ch; Channel.rt := rt net |} in
      ({| channels := <[c := Channel.chan res.1]> (channels net);
          ports := ports net; rt := Channel.rt res.1 |},
       map (Run c) res.2)
  | None => (net, [])
  end.

(** The closure [addPipe] hands to [pipe.listen] for [event]. *)
Definition closure (c : string) (pipe : ChannelPipe) (event : string)
  : ChannelPort.Listener :=
  if decide (event = handshakeEvent) then ChannelPort.OnHandshake c pipe
  else ChannelPort.OnMessage c pipe.

(** One frame runs: the net it leaves, the calls it makes, and what it
    adds to the trace. *)
Definition step (f : Frame) (net : t) : t * list Frame * Trace :=
  match f with
  | Run c (EmitHandshake pipe) =>
      match channels net !! c with
      | Some ch => (net, map (Run c) (Channel._emitHandshake pipe ch), [])
      | None => (net, [], [])
      end
  | Run c (PipeEmit pipe event payload) =>
      (net, [Emit pipe event payload], [(c, PipeEmit pipe event payload)])
  | Run c (PipeListen pipe event) =>
      (match ports net !! pipe_port pipe with
       | Some port =>
           with_ports
             (<[pipe_port pipe :=
                  ChannelPort.listen (pipe_name pipe) event
                    (closure c pipe event) port]> (ports net)) net
       | None => net
       end, [], [(c, PipeListen pipe event)])
  | Run c e => (net, [], [(c, e)])
  | Emit pipe event payload =>
      match ports net !! pipe_port pipe with
      | Some port =>
          (net,
           map (λ target,
                  Invoke {| pipe_port := pipe_port pipe;
                            pipe_name := target.1 |} target.2 payload)
             (ChannelPort._emit (pipe_name pipe) event port), [])
      | None => (net, [], [])
      end
  | Invoke _ (ChannelPort.OnHandshake c pipe) (PEdge edge) =>
      (enter c (Channel._handleHandshake pipe edge) net, [])
  | Invoke _ (ChannelPort.OnMessage c pipe) (PMessage message) =>
      (enter c (Channel._handleMessage pipe message) net, [])
  | Invoke _ (ChannelPort.OnHandshake _ _) (PMessage _)
  | Invoke _ (ChannelPort.OnMessage _ _) (PEdge _) => (net, [], [])
  | Invoke pipe (ChannelPort.Foreign reply) payload =>
      (net, map (λ out, Emit pipe out.1 out.2) (reply payload), [])
  end.

(** Run the stack until it is empty; [None] when [fuel] frames were not
    enough. *)
Fixpoint exec (fuel : nat) (stack : list Frame) (net : t)
  : option (t * Trace) :=
  match stack with
  | [] => Some (net, [])
  | f :: rest =>
      match fuel with
      | 0 => None
      | S fuel' =>
          let res := step f net in
          done ← exec fuel' (res.1.2 ++ rest) res.1.1;
          Some (done.1, res.2 ++ done.2)
      end
  end.

(** A call from the top level into channel [c]. *)
Definition invoke (fuel : nat) (c : string)
  (method : Channel.World → Channel.World * list Effect) (net : t)
  : option (t * Trace) :=
  let res := enter c method net in
  exec fuel res.2 res.1.

Definition lift (f : Channel.t → Channel.t * list Effect)
  (w : Channel.World) : Channel.World * list Effect :=
  let res := f (Channel.chan w) in
  ({| Channel.chan := res.1; Channel.rt := Channel.rt w |}, res.2).

(** The first micro-task runs, on an empty stack. *)
Definition runMicrotask (fuel : nat) (net : t) : option (t * Trace) :=
  match Runtime.microtasks (rt net) with
  | [] => Some (net, [])
  | j :: rest =>
      invoke fuel (Runtime.j_owner j)
        (λ w, (w, Channel.respond j (Channel.chan w)))
        (with_rt (Runtime.setMicrotasks rest (rt net)) net)
  end.

(** Micro-tasks run until the queue is empty. *)
Fixpoint drain (fuel : nat) (net : t) : option (t * Trace) :=
  match Runtime.microtasks (rt net), fuel with
  | [], _ => Some (net, [])
  | _ :: _, 0 => None
  | _ :: _, S fuel' =>
      first ← runMicrotask fuel net;
      others ← drain fuel' first.1;
      Some (others.1, first.2 ++ others.2)
  end.

(** *** What a script does *)

Definition channel (id : string) (net : t) : t :=
  with_channels (<[id := Channel.new id]> (channels net)) net.

Definition port (self : nat) (net : t) : t :=
  with_ports (<[self := ChannelPort.new self]> (ports net)) net.

Definition createPipe (self : nat) (name : string) (net : t) : t :=
  match ports net !! self with
  | Some p =>
      with_ports (<[self := (ChannelPort.createPipe name p).2]> (ports net))
        net
  | None => net
  end.

(** A foreign endpoint listens on one of a port's pipes. *)
Definition listen (pipe : ChannelPipe) (event : string)
  (reply : Payload → list (string * Payload)) (net : t) : t :=
  match ports net !! pipe_port pipe with
  | Some p =>
      with_ports
        (<[pipe_port pipe :=
             ChannelPort.listen (pipe_name pipe) event
               (ChannelPort.Foreign reply) p]> (ports net)) net
  | None => net
  end.

(** A foreign endpoint emits on its pipe. *)
Definition emit (fuel : nat) (pipe : ChannelPipe) (event : string)
  (payload : Payload) (net : t) : option (t * Trace) :=
  exec fuel [Emit pipe event payload] net.

Definition addPipe (fuel : nat) (c : string) (pipe : ChannelPipe)
  (net : t) : option (t * Trace) :=
  invoke fuel c (lift (Channel.addPipe pipe)) net.

Definition remoteHost (spreadError : Data → string) (fuel : nat)
  (c : string) (spec : RemoteHost.RemoteSpec) (net : t)
  : option (t * Trace) :=
  invoke fuel c (lift (RemoteHost.new spreadError spec)) net.

Definition handshakeAll (fuel : nat) (c : string) (net : t)
  : option (t * Trace) :=
  invoke fuel c (λ w, (w, Channel.handshakeAll (Channel.chan w))) net.

Definition connect (fuel : nat) (c hostName : string) (net : t)
  : option (t * Trace) :=
  invoke fuel c (λ w, ((RemoteClient.connect hostName w).2, [])) net.

Definition run (fuel : nat) (c hostName name : string)
  (output : list Data) (nonce : string) (net : t) : option (t * Trace) :=
  invoke fuel c
    (λ w, let res := RemoteClient.run hostName name output nonce w in
          (res.1.2, res.2)) net.

Definition advanceTo (time : N) (c : string) (net : t) : t :=
  (enter c (λ w, (Channel.advanceTo time w, [])) net).1.

Definition promise (p : nat) (net : t) : option Runtime.PromiseState :=
  Runtime.promises (rt net) !! p.

Definition findEdgeId (c destination : string) (net : t)
  : option string :=
  channels net !! c ≫= Channel.findEdgeId destination.

(** The messages put on pipes and the handlers run, out of a trace. *)
Definition traffic (tr : Trace) : Trace :=
  List.filter
    (λ entry,
       match entry.2 with
       | PipeEmit _ _ (PMessage _) | CallerCall _ _ => true
       | _ => false
       end) tr.

(** A script: the net it has reached and the trace so far. *)
Record Session := { net : t; trace : Trace }.

Definition begin (n : t) : Session := {| net := n; trace := [] |}.

Definition play (f : t → option (t * Trace)) (s : Session)
  : option Session :=
  res ← f (net s);
  Some {| net := res.1; trace := trace s ++ res.2 |}.
End Net.

(** ** Vocabulary of the properties *)

Module Inv.
Import Channel.

(** What a proxy sends on: the message with its own id in [proxiedBy]. *)
Definition stamp (c : t) (m : ChannelMessageOut) : ChannelMessageOut :=
  {| name := name m; destination := destination m; data := data m;
     source := source m; proxiedBy := Some (id c); nonce := nonce m |}.

(** The answer a host sends to the request [m]. *)
Definition answer (c : t) (m : ChannelMessageOut) (d : Data)
  : ChannelMessageOut :=
  {| name := name m; source := id c; destination := source m; data := d;
     nonce := nonce m; proxiedBy := None |}.

(** The request [call] builds. *)
Definition request (c : t) (messageData : ChannelMessageIn)
  (nonce : string) : ChannelMessageOut :=
  {| name := in_name messageData;
     destination := in_destination messageData;
     data := in_data messageData; source := id c;
     proxiedBy := None; nonce := Some nonce |}.

(** One edge per peer id, stored under that id. *)
Definition edges_wf (c : t) : Prop :=
  NoDup (JsMap.keys (_edges c))
  ∧ ∀ k e, (k, e) ∈ _edges c → ChannelEdge.id e = k.

(** No edge lists the channel itself as reachable. *)
Definition own_id_absent (c : t) : Prop :=
  ∀ k e, (k, e) ∈ _edges c → id c ∉ ChannelEdge.channelIds e.

(** Every edge of [c] is still in [c'], with at least the ids it had. *)
Definition grows (c c' : t) : Prop :=
  ∀ k e, JsMap.get k (_edges c) = Some e →
    ∃ e', JsMap.get k (_edges c') = Some e'
          ∧ ChannelEdge.channelIds e ⊆ ChannelEdge.channelIds e'.

(** The promises and timers that timers, callbacks and [checkEdge]
    listeners hold are ones the run time has handed out. *)
Definition known (w : World) : Prop :=
  (∀ e, e ∈ Runtime.timers (rt w) →
     e.1 < Runtime.nextTimer (rt w)
     ∧ Runtime.t_promise e.2 < Runtime.nextPromise (rt w))
  ∧ (∀ k cb, _callbacks (chan w) !! k = Some cb →
       cb_timeout cb < Runtime.nextTimer (rt w)
       ∧ cb_promise cb < Runtime.nextPromise (rt w))
  ∧ (∀ r d q, r ∈ _emitter (chan w) → r_fn r = checkEdge d q →
       q < Runtime.nextPromise (rt w)).

(** The call with promise [p], timer [tid] and nonce [n] is waiting for its
    answer or for its deadline [D]: the promise is pending, the timer is
    armed, and nothing else in the world holds either. *)
Record pending_call (p tid : nat) (n : string) (D : N) (w : World)
  : Prop := {
  pc_promise : Runtime.promises (rt w) !! p = Some Runtime.Pending;
  pc_timer :
    (tid, {| Runtime.deadline := D; Runtime.t_owner := id (chan w);
             Runtime.t_nonce := n; Runtime.t_promise := p |})
      ∈ Runtime.timers (rt w);
  pc_timers :
    ∀ e, e ∈ Runtime.timers (rt w) →
      e.1 = tid ∨ Runtime.t_promise e.2 = p →
      e = (tid, {| Runtime.deadline := D; Runtime.t_owner := id (chan w);
                   Runtime.t_nonce := n; Runtime.t_promise := p |});
  pc_callbacks :
    ∀ k cb, _callbacks (chan w) !! k = Some cb → k ≠ n →
      cb_promise cb ≠ p ∧ cb_timeout cb ≠ tid;
  pc_listeners :
    ∀ r d q, r ∈ _emitter (chan w) → r_fn r = checkEdge d q → q ≠ p;
  pc_fresh :
    p < Runtime.nextPromise (rt w) ∧ tid < Runtime.nextTimer (rt w)
}.

(** The call with promise [p] and nonce [n] has timed out. *)
Definition timed_out (p : nat) (n : string) (w : World) : Prop :=
  Runtime.promises (rt w) !! p = Some (Runtime.Rejected timeoutError)
  ∧ _callbacks (chan w) !! n = None
  ∧ p < Runtime.nextPromise (rt w).

(** The effects that reach a pipe. *)
Definition emission (e : Effect) : Prop :=
  match e with
  | PipeEmit _ _ _ | EmitHandshake _ => True
  | _ => False
  end.

(** The effects that run a function registered on the channel. *)
Definition notification (e : Effect) : Prop :=
  match e with
  | EmitterEmit _ _ | ListenerCall _ _ | CallerCall _ _ => True
  | _ => False
  end.

(** [arr] without the first [x]: what [arr.splice(arr.indexOf(x), 1)]
    leaves of an [arr] that includes [x]. *)
Fixpoint withoutFirst (x : string) (arr : list string) : list string :=
  match arr with
  | [] => []
  | y :: rest => if decide (y = x) then rest else y :: withoutFirst x rest
  end.

(** The local emitter touches the listener list and nothing else of the
    channel. *)
Definition same_but_emitter (c c' : t) : Prop :=
  id c' = id c ∧ _edges c' = _edges c ∧ _callbacks c' = _callbacks c
  ∧ _callers c' = _callers c ∧ _edgePipes c' = _edgePipes c
  ∧ _pipes c' = _pipes c ∧ _logger c' = _logger c
  ∧ _destroyed c' = _destroyed c.

(** The edge table [_handleHandshake] leaves. *)
Definition merged (c : t) (edge : ChannelEdge.t) : JsMap.t ChannelEdge.t :=
  if decide (id c = ChannelEdge.id edge) then _edges c
  else
    match JsMap.get (ChannelEdge.id edge) (_edges c) with
    | Some prevEdge =>
        match
          withoutFirst (id c)
            (filter (λ edgeId, edgeId ∉ ChannelEdge.channelIds prevEdge)
               (ChannelEdge.channelIds edge))
        with
        | [] => _edges c
        | newEdgeIds =>
            JsMap.set (ChannelEdge.id edge)
              {| ChannelEdge.id := ChannelEdge.id edge;
                 ChannelEdge.channelIds :=
                   ChannelEdge.channelIds prevEdge ++ newEdgeIds |}
              (_edges c)
        end
    | None =>
        JsMap.set (ChannelEdge.id edge)
          {| ChannelEdge.id := ChannelEdge.id edge;
             ChannelEdge.channelIds :=
               filter (λ edgeId, edgeId ≠ id c)
                 (ChannelEdge.channelIds edge) |}
          (_edges c)
    end.

(** The operations of a channel, seen as steps of its world. *)
Inductive Op :=
| AddPipe (pipe : ChannelPipe)
| SetLogger
| HandleHandshake (pipe : ChannelPipe) (edge : ChannelEdge.t)
| HandleMessage (pipe : ChannelPipe) (message : ChannelMessageOut)
| Respond (j : Runtime.Job)
| HandshakeAll
| WaitForEdge (destination : string)
| Send (messageData : ChannelMessageIn)
| Call (messageData : ChannelMessageIn) (opts : option N) (nonce : string)
| On (name : string) (f : nat)
| Off (name : string) (f : option nat)
| Once (name : string) (f : nat)
| OnCall (name : string) (caller : Caller)
| RemoveCaller
| Destroy
| AdvanceTo (time : N).

Definition only (f : t → t) (w : World) : World :=
  {| chan := f (chan w); rt := rt w |}.

Definition apply (op : Op) (w : World) : World :=
  match op with
  | AddPipe pipe => only (λ c, (addPipe pipe c).1) w
  | SetLogger => only setLogger w
  | HandleHandshake pipe edge => (_handleHandshake pipe edge w).1
  | HandleMessage pipe message => (_handleMessage pipe message w).1
  | Respond _ | HandshakeAll | Send _ | RemoveCaller => w
  | WaitForEdge destination => (waitForEdge destination w).2
  | Call messageData opts nonce => (call messageData opts nonce w).1.2
  | On name f => only (on (Named name) (UserFn f)) w
  | Off name f => only (off (Named name) (UserFn <$> f)) w
  | Once name f => only (once (Named name) (UserFn f)) w
  | OnCall name caller => only (onCall name caller) w
  | Destroy => only destroy w
  | AdvanceTo time => advanceTo time w
  end.

(** Operations that neither deliver a message under the nonce [n] nor
    start a call under it. *)
Definition unrelated (n : string) (op : Op) : Prop :=
  match op with
  | HandleMessage _ message => nonce message ≠ Some n
  | Call _ _ nonce => nonce ≠ n
  | _ => True
  end.

(** Operations that leave the clock before [D]. *)
Definition before (D : N) (op : Op) : Prop :=
  match op with
  | AdvanceTo time => (time < D)%N
  | _ => True
  end.

(** The operations run in turn. *)
Definition run (ops : list Op) (w : World) : World :=
  foldl (λ acc op, apply op acc) w ops.

(** A handshake that names the receiver at most once, as every handshake
    [getEdge] builds does. *)
Definition names_once (c : t) (edge : ChannelEdge.t) : Prop :=
  length (filter (λ x, x = id c) (ChannelEdge.channelIds edge)) ≤ 1.

(** A handshake that tells the receiver nothing new: the peer is known
    and every id announced, the receiver's own apart, is recorded. *)
Definition redundant (c : t) (edge : ChannelEdge.t) : Prop :=
  ∃ prevEdge,
    JsMap.get (ChannelEdge.id edge) (_edges c) = Some prevEdge
    ∧ ∀ x, x ∈ ChannelEdge.channelIds edge → x ≠ id c →
        x ∈ ChannelEdge.channelIds prevEdge.

Definition tame (c : t) (op : Op) : Prop :=
  match op with
  | HandleHandshake _ edge => names_once c edge
  | _ => True
  end.
End Inv.

(** ** The scenarios *)

Module Scenario.
(** The engine of the scenarios; every call in them carries an array, so
    that its wording of the spread error is never read. *)
Definition engine : Data → string := λ _, "input is not iterable".

(** A [ping] handler: its input plus one. *)
Definition ping : list Data → Outcome :=
  λ input, match input with
           | DNum n :: _ => Returns (DNum (n + 1))
           | _ => Returns DUndefined
           end.

(** A handler that throws [new Error("boom")]. *)
Definition boom : Thrown :=
  {| thrown_message := Some "boom"; thrown_text := "Error: boom" |}.

Definition failing : list Data → Outcome := λ _, Throws boom.

Definition a : ChannelPipe := {| pipe_port := 1; pipe_name := "a" |}.
Definition b1 : ChannelPipe := {| pipe_port := 1; pipe_name := "b" |}.
Definition b2 : ChannelPipe := {| pipe_port := 2; pipe_name := "b" |}.
Definition c : ChannelPipe := {| pipe_port := 2; pipe_name := "c" |}.

(** Three channels and two ports: A and B share port 1, B and C port 2. *)
Definition created : Net.t :=
  Net.createPipe 2 "c" (Net.createPipe 2 "b"
    (Net.createPipe 1 "b" (Net.createPipe 1 "a"
      (Net.port 2 (Net.port 1
        (Net.channel "C" (Net.channel "B"
          (Net.channel "A" Net.empty)))))))).

Definition wired : option Net.Session :=
  s ← Net.play (Net.addPipe 8 "A" a) (Net.begin created);
  s ← Net.play (Net.addPipe 8 "B" b1) s;
  s ← Net.play (Net.addPipe 8 "B" b2) s;
  Net.play (Net.addPipe 8 "C" c) s.

(** [new RemoteHost(C, { ping })]: the handshakes run to the end. *)
Definition settled : option Net.Session :=
  wired ≫= Net.play (Net.remoteHost engine 100 "C" [("ping", ping)]).

(** [new RemoteClient("C", A).run("ping", 1)] *)
Definition called : option Net.Session :=
  settled ≫= Net.play (Net.run 16 "A" "C" "ping" [DNum 1] "n1").

(** The same with A and C on one port. *)
Definition direct (handler : list Data → Outcome) : option Net.Session :=
  let created :=
    Net.createPipe 1 "c" (Net.createPipe 1 "a"
      (Net.port 1 (Net.channel "C" (Net.channel "A" Net.empty)))) in
  s ← Net.play (Net.addPipe 8 "A" a) (Net.begin created);
  s ← Net.play (Net.addPipe 8 "C" {| pipe_port := 1; pipe_name := "c" |}) s;
  s ← Net.play (Net.remoteHost engine 100 "C" [("ping", handler)]) s;
  s ← Net.play (Net.run 16 "A" "C" "ping" [DNum 1] "n1") s;
  Net.play (Net.drain 16) s.

(** A foreign endpoint H on A's port that answers every message while
    the emission that brought it is still running. *)
Definition h : ChannelPipe := {| pipe_port := 1; pipe_name := "h" |}.

Definition answering (d : Data) : Payload → list (string * Payload) :=
  λ payload,
    match payload with
    | PMessage m =>
        [(messageEvent,
          PMessage
            {| name := name m; source := destination m;
               destination := source m; data := d; nonce := nonce m;
               proxiedBy := None |})]
    | PEdge _ => []
    end.

Definition answered (d : Data) : option Net.Session :=
  let created :=
    Net.listen h messageEvent (answering d)
      (Net.createPipe 1 "h" (Net.createPipe 1 "a"
        (Net.port 1 (Net.channel "A" Net.empty)))) in
  s ← Net.play (Net.addPipe 8 "A" a) (Net.begin created);
  s ← Net.play
        (Net.emit 16 h handshakeEvent
           (PEdge {| ChannelEdge.id := "H"; ChannelEdge.channelIds := [] |}))
        s;
  Net.play (Net.run 16 "A" "H" "ping" [DNum 1] "n1") s.

(** The response C sends, as the channel named by [by_] last stamped
    it. *)
Definition reply (by_ : option string) : ChannelMessageOut :=
  {| name := "ping"; destination := "A"; data := DNum 2; source := "C";
     proxiedBy := by_; nonce := Some "n1" |}.

(** The request A sends, and the request as B passes it on. *)
Definition request (by_ : option string) : ChannelMessageOut :=
  {| name := "ping"; destination := "C"; data := DArr [DNum 1];
     source := "A"; proxiedBy := by_; nonce := Some "n1" |}.

(** The same wiring when A announces itself before C's host is made. *)
Definition settled_after_A : option Net.Session :=
  s ← wired;
  s ← Net.play (Net.handshakeAll 100 "A") s;
  Net.play (Net.remoteHost engine 100 "C" [("ping", ping)]) s.

(** The net when [run] has returned in the three-channel scenario, and
    the same net once C's continuation has been taken off the queue. *)
Definition calledNet : Net.t :=
  Eval vm_compute in default Net.empty (Net.net <$> called).

Definition answering_net : Net.t :=
  Eval vm_compute in
    Net.with_rt (Runtime.setMicrotasks [] (Net.rt calledNet)) calledNet.

(** The three channels again, with a handler on C that throws. *)
Definition settledFailing : option Net.Session :=
  wired ≫= Net.play (Net.remoteHost engine 100 "C" [("ping", failing)]).

Definition calledFailing : option Net.Session :=
  settledFailing ≫= Net.play (Net.run 16 "A" "C" "ping" [DNum 1] "n1").

(** The net when [run] has returned there, and the same net once C's
    continuation has been taken off the queue. *)
Definition failedNet : Net.t :=
  Eval vm_compute in default Net.empty (Net.net <$> calledFailing).

Definition throwing_net : Net.t :=
  Eval vm_compute in
    Net.with_rt (Runtime.setMicrotasks [] (Net.rt failedNet)) failedNet.

(** The answer C sends for the throw, as the channel named by [by_] last
    stamped it. *)
Definition failure (by_ : option string) : ChannelMessageOut :=
  {| name := "ping"; destination := "A"; data := DErr "boom"; source := "C";
     proxiedBy := by_; nonce := Some "n1" |}.

(** The handshake that names its receiver A twice. *)
Definition twice : ChannelEdge.t :=
  {| ChannelEdge.id := "B"; ChannelEdge.channelIds := ["A"; "A"] |}.

(** A with one pipe, after [twice] was delivered once. *)
Definition met : Channel.World :=
  (Channel._handleHandshake a twice
     (Inv.only (λ ch, (Channel.addPipe a ch).1) (Channel.start "A"))).1.
End Scenario.

(** ** Workers (worker.ts) *)

(** The pipe of a worker posts [{event, data}] with [postMessage] and
    listens with [addEventListener]; it is known here by its identity,
    like the pipes of a port. *)
Module Worker.
(** [createWorkerHost(name, spec)], in the worker *)
Definition createWorkerHost (spreadError : Data → string)
  (name : string) (spec : list (string * (list Data → Outcome)))
  (pipe : ChannelPipe) : Channel.t * list Effect :=
  let channel := Channel.new name in
  let added := Channel.addPipe pipe channel in
  let host := RemoteHost.new spreadError spec added.1 in
  (host.1, added.2 ++ host.2).
End Worker.

Module WorkerClient.
(** [new WorkerClient(name, hostName, source)], in a context whose run
    time is [r] *)
Definition new (name : string) (r : Runtime.t) : Channel.World :=
  {| Channel.chan := Channel.new name; Channel.rt := r |}.

(** [init()]: the pipe to the worker is added, then [connect()] is
    awaited; the promise is the one [connect] waits for. *)
Definition init (hostName : string) (pipe : ChannelPipe)
  (w : Channel.World) : nat * Channel.World * list Effect :=
  let added := Channel.addPipe pipe (Channel.chan w) in
  let connected :=
    RemoteClient.connect hostName
      {| Channel.chan := added.1; Channel.rt := Channel.rt w |} in
  (connected.1, connected.2, added.2).
End WorkerClient.

(** ** Vocabulary of the further properties *)

Module Law.
Import Channel Inv.

(** The calls [emit] makes to the users' listeners under [name], in
    registration order. *)
Definition listenerCalls (name : EventName) (arg : EventArg) (c : t)
  : list Effect :=
  flat_map
    (λ r, match r_fn r with
          | UserFn f => [ListenerCall f arg]
          | checkEdge _ _ => []
          end)
    (filter (λ r, r_event r = name) (_emitter c)).

(** The listener list once the [once] listeners under [name] have run. *)
Definition spent (name : EventName) (c : t) : list Registration :=
  List.filter (λ r, negb (bool_decide (r_event r = name) && r_once r))
    (_emitter c).

(** What one step of [emit] keeps of the listener list. *)
Definition kept (name : EventName) (r r' : Registration) : bool :=
  if r_once r
  then negb (bool_decide (r_event r' = name)
             && bool_decide (r_fn r' = r_fn r) && r_once r')
  else true.

(** The test of [checkEdge] and of [findEdgeId]: the edge is the
    destination or lists it. *)
Definition answers (destination : string) (edge : ChannelEdge.t) : bool :=
  bool_decide (ChannelEdge.id edge = destination)
  || includes destination (ChannelEdge.channelIds edge).

(** Every pipe recorded for a peer goes with an edge of that peer. *)
Definition routed (c : t) : Prop :=
  ∀ k, is_Some (_edgePipes c !! k) → is_Some (JsMap.get k (_edges c)).

(** Every peer of the edge table has a pipe and an id that is not the
    empty string, which [_emitMessage] takes for no route. *)
Definition piped (c : t) : Prop :=
  ∀ k, k ∈ JsMap.keys (_edges c) →
    truthy k = true ∧ is_Some (_edgePipes c !! k).

(** The message [send] builds. *)
Definition notice (c : t) (messageData : ChannelMessageIn)
  : ChannelMessageOut :=
  {| name := in_name messageData;
     destination := in_destination messageData;
     data := in_data messageData; source := id c;
     proxiedBy := None; nonce := None |}.





End Law.

(** * Properties *)

Section Arrays.
Implicit Types (x y : string) (arr : list string).

Lemma includes_true x arr : includes x arr = true ↔ x ∈ arr.
Proof. unfold includes. apply bool_decide_eq_true. Qed.

Lemma includes_false x arr : includes x arr = false ↔ x ∉ arr.
Proof. unfold includes. apply bool_decide_eq_false. Qed.

Lemma indexOf_lookup x arr i : indexOf x arr = Some i → arr !! i = Some x.
Proof.
  revert i. induction arr as [|y rest IH]; intros i; simpl; [done|].
  case_decide as Hy.
  - intros [= <-]. by subst.
  - destruct (indexOf x rest) as [j|] eqn:Hj; simpl; [|done].
    intros [= <-]. by apply IH.
Qed.

Lemma indexOf_elem x arr : x ∈ arr → is_Some (indexOf x arr).
Proof.
  induction 1 as [|y z rest _ IH]; simpl.
  - case_decide; [eauto|done].
  - case_decide; [eauto|]. destruct IH as [j ->]. eauto.
Qed.

Lemma indexOf_None x arr : indexOf x arr = None ↔ x ∉ arr.
Proof.
  split.
  - intros HN Hin. apply indexOf_elem in Hin as [? ?]. congruence.
  - intros Hn. destruct (indexOf x arr) as [i|] eqn:Hi; [|done].
    apply indexOf_lookup, list_elem_of_lookup_2 in Hi. done.
Qed.

Lemma elem_of_firstOccurrences x arr : x ∈ firstOccurrences arr ↔ x ∈ arr.
Proof.
  unfold firstOccurrences. rewrite list_elem_of_fmap. split.
  - intros [[i y] [-> Hin]]. apply list_elem_of_filter in Hin as [Hi _].
    simpl in *. by apply indexOf_lookup, list_elem_of_lookup_2 in Hi.
  - intros Hin. destruct (indexOf_elem _ _ Hin) as [i Hi].
    exists (i, x). split; [done|]. apply list_elem_of_filter. split; [done|].
    apply elem_of_lookup_imap. exists i, x. split; [done|].
    by apply indexOf_lookup.
Qed.

Lemma NoDup_firstOccurrences arr : NoDup (firstOccurrences arr).
Proof.
  unfold firstOccurrences. apply NoDup_fmap_2_strong.
  - intros [i a] [j b] Hi Hj. simpl. intros ->.
    apply list_elem_of_filter in Hi as [Hi _], Hj as [Hj _]. simpl in *.
    congruence.
  - apply NoDup_filter. apply NoDup_alt. intros i j [k a] Hi Hj.
    rewrite list_lookup_imap in Hi. rewrite list_lookup_imap in Hj.
    destruct (arr !! i) eqn:?, (arr !! j) eqn:?; simplify_eq/=. done.
Qed.
End Arrays.

Section JsMapFacts.
Context {V : Type}.
Implicit Types (k : string) (v : V) (m : JsMap.t V).

Lemma get_set_eq k v m : JsMap.get k (JsMap.set k v m) = Some v.
Proof.
  induction m as [|[k' v'] rest IH]; simpl.
  - by rewrite decide_True.
  - destruct (decide (k' = k)) as [->|Hne]; simpl.
    + by rewrite decide_True.
    + by rewrite decide_False.
Qed.

Lemma get_set_ne k k' v m :
  k ≠ k' → JsMap.get k' (JsMap.set k v m) = JsMap.get k' m.
Proof.
  intros Hne. induction m as [|[k0 v0] rest IH]; simpl.
  - by rewrite decide_False.
  - destruct (decide (k0 = k)) as [->|Hk0]; simpl.
    + by rewrite !decide_False.
    + by rewrite IH.
Qed.

Lemma get_elem_of k v m : JsMap.get k m = Some v → (k, v) ∈ m.
Proof.
  induction m as [|[k' v'] rest IH]; simpl; [done|].
  case_decide as Hk.
  - intros [= ->]. subst. left.
  - intros. right. auto.
Qed.

Lemma get_None k m : JsMap.get k m = None ↔ k ∉ JsMap.keys m.
Proof.
  unfold JsMap.keys. induction m as [|[k' v'] rest IH]; simpl.
  - split; [intros _; apply not_elem_of_nil | done].
  - rewrite not_elem_of_cons. case_decide as Hk.
    + split; [done | intros [? _]; congruence].
    + rewrite IH. split; [by intros | by intros [_ ?]].
Qed.

Lemma keys_set k v m :
  JsMap.keys (JsMap.set k v m) =
    if JsMap.get k m is Some _ then JsMap.keys m else JsMap.keys m ++ [k].
Proof.
  unfold JsMap.keys. induction m as [|[k' v'] rest IH]; simpl; [done|].
  destruct (decide (k' = k)) as [->|Hne]; simpl; [done|].
  rewrite IH. by destruct (JsMap.get k rest).
Qed.

Lemma NoDup_keys_set k v m :
  NoDup (JsMap.keys m) → NoDup (JsMap.keys (JsMap.set k v m)).
Proof.
  intros Hnd. rewrite keys_set. destruct (JsMap.get k m) eqn:Hg; [done|].
  apply NoDup_app. split_and!; [done| |apply NoDup_singleton].
  intros x Hx ->%list_elem_of_singleton. by apply get_None in Hg.
Qed.

Lemma get_of_elem k v m :
  NoDup (JsMap.keys m) → (k, v) ∈ m → JsMap.get k m = Some v.
Proof.
  unfold JsMap.keys. induction m as [|[k' v'] rest IH]; simpl.
  - intros _ Hin. by apply elem_of_nil in Hin.
  - intros [Hk' Hnd]%NoDup_cons [Heq|Hin]%elem_of_cons.
    + simplify_eq. by rewrite decide_True.
    + rewrite decide_False; [by apply IH|].
      intros ->. apply Hk'. apply list_elem_of_fmap. by exists (k, v).
Qed.

End JsMapFacts.

(** ** Messages addressed to the channel *)

Section HandleMessage.
Import Channel Inv.
Implicit Types (w : World) (pipe : ChannelPipe) (m : ChannelMessageOut).

Lemma handleMessage_bounced w pipe m :
  proxiedBy m = Some (id (chan w)) → _handleMessage pipe m w = (w, []).
Proof. intros H. unfold _handleMessage. by rewrite decide_True. Qed.

Lemma handleMessage_proxy w pipe m :
  proxiedBy m ≠ Some (id (chan w)) → destination m ≠ id (chan w) →
  _handleMessage pipe m w = (w, _emitMessage (stamp (chan w) m) (chan w)).
Proof.
  intros Hp Hd. unfold _handleMessage.
  rewrite decide_False by done. by rewrite decide_True.
Qed.

Lemma handleMessage_here w pipe m n :
  proxiedBy m ≠ Some (id (chan w)) → destination m = id (chan w) →
  nonce m = Some n → truthy n = true →
  _handleMessage pipe m w =
    match _callbacks (chan w) !! n with
    | Some callback => (runCallback n callback (data m) w, [])
    | None =>
        match _callers (chan w) !! name m with
        | Some caller =>
            ({| chan := chan w;
                rt := Runtime.enqueue
                        {| Runtime.j_owner := id (chan w);
                           Runtime.j_request := m;
                           Runtime.j_outcome := caller (data m) |}
                        (rt w) |},
             [CallerCall (name m) (data m)])
        | None => (w, [])
        end
    end.
Proof.
  intros Hp Hd Hn Ht. unfold _handleMessage.
  rewrite decide_False by done.
  rewrite decide_False by (by intros ?).
  by rewrite Hn, Ht.
Qed.

Lemma emitMessage_routed (c : Channel.t) m edgeId pipe :
  findEdgeId (destination m) c = Some edgeId → truthy edgeId = true →
  _edgePipes c !! edgeId = Some pipe →
  _emitMessage m c = [PipeEmit pipe messageEvent (PMessage m)].
Proof. intros He Ht Hp. unfold _emitMessage. by rewrite He, Ht, Hp. Qed.

Lemma emitMessage_unroutable (c : Channel.t) m :
  findEdgeId (destination m) c = None → _emitMessage m c = [].
Proof. intros He. unfold _emitMessage. by rewrite He. Qed.

Lemma emitMessage_payload (c : Channel.t) m e :
  e ∈ _emitMessage m c →
  ∃ pipe, e = PipeEmit pipe messageEvent (PMessage m).
Proof.
  unfold _emitMessage. intros He.
  repeat case_match; try (by apply elem_of_nil in He).
  apply list_elem_of_singleton in He. eauto.
Qed.
End HandleMessage.

(** ** C1 *)

Section StrayResponses.
Import Channel Inv.

(** C1 (as stated, refuted): a message with a nonce, addressed to the
    channel, with no pending call under that nonce, is an incoming call
    when a handler is registered under its name: the handler runs and
    its continuation is queued. *)
Lemma nonce_without_pending_call_reaches_handler :
  let w := only (onCall "ping" (RemoteHost.wrap Scenario.engine Scenario.ping)) (start "C") in
  let m := {| name := "ping"; destination := "C"; data := DArr [DNum 1];
              source := "A"; proxiedBy := None; nonce := Some "n1" |} in
  nonce m = Some "n1"
  ∧ destination m = id (chan w)
  ∧ _callbacks (chan w) !! "n1" = None
  ∧ (_handleMessage Scenario.c m w).2 = [CallerCall "ping" (DArr [DNum 1])]
  ∧ Runtime.microtasks (rt (_handleMessage Scenario.c m w).1) =
      [{| Runtime.j_owner := "C"; Runtime.j_request := m;
          Runtime.j_outcome := Returns (DNum 2) |}]
  ∧ _handleMessage Scenario.c m w ≠ (w, []).
Proof. repeat split; try reflexivity. intros [=]. Qed.

(** C1 (amended): a message that carries a non-empty nonce, is addressed
    to the channel, and finds neither a pending call under the nonce nor
    a handler under its name leaves the world as it was and has no
    effect. *)
Theorem stray_response_dropped (w : World) pipe m n :
  nonce m = Some n → truthy n = true →
  destination m = id (chan w) →
  _callbacks (chan w) !! n = None →
  _callers (chan w) !! name m = None →
  _handleMessage pipe m w = (w, []).
Proof.
  intros Hn Ht Hd Hcb Hcl.
  destruct (decide (proxiedBy m = Some (id (chan w)))) as [Hp|Hp].
  - by apply handleMessage_bounced.
  - rewrite (handleMessage_here _ _ _ n) by done. by rewrite Hcb, Hcl.
Qed.

Lemma stray_response_dropped_witness :
  let w := (register "n2" 50 (start "A")).2 in
  let m := Scenario.reply (Some "B") in
  _handleMessage Scenario.a m w = (w, []).
Proof.
  apply (stray_response_dropped _ Scenario.a (Scenario.reply (Some "B")) "n1");
    reflexivity.
Defined.
End StrayResponses.

(** ** Topology *)

Section Topology.
Import Channel Inv.
Implicit Types (c : Channel.t) (x : string).

Lemma findEdgeId_Some destination c x :
  findEdgeId destination c = Some x →
  ∃ edge, edge ∈ JsMap.values (_edges c) ∧ ChannelEdge.id edge = x
          ∧ (x = destination
             ∨ destination ∈ ChannelEdge.channelIds edge).
Proof.
  unfold findEdgeId. intros Hf.
  apply fmap_Some in Hf as (edge & Hfind & ->).
  apply find_some in Hfind as [Hin Hp].
  exists edge. split; [by apply list_elem_of_In|]. split; [done|].
  apply orb_true_iff in Hp as [Hp|Hp].
  - left. by apply bool_decide_eq_true in Hp.
  - right. by apply includes_true.
Qed.

Lemma findEdgeId_None destination c :
  findEdgeId destination c = None ↔
  ∀ edge, edge ∈ JsMap.values (_edges c) →
    ChannelEdge.id edge ≠ destination
    ∧ destination ∉ ChannelEdge.channelIds edge.
Proof.
  unfold findEdgeId. rewrite fmap_None. split.
  - intros Hf edge Hin%list_elem_of_In.
    pose proof (find_none _ _ Hf _ Hin) as Hp. simpl in Hp.
    apply orb_false_iff in Hp as [H1%bool_decide_eq_false H2%includes_false].
    done.
  - intros Hall. destruct (find _ _) as [edge|] eqn:Hfind; [|done].
    apply find_some in Hfind as [Hin%list_elem_of_In Hp].
    destruct (Hall _ Hin) as [H1 H2].
    apply orb_true_iff in Hp as [Hp%bool_decide_eq_true|Hp%includes_true];
      done.
Qed.

(** The ids a handshake announces: the peers and all they reach, each
    once. *)
Lemma getEdge_ids c x :
  x ∈ ChannelEdge.channelIds (getEdge c) ↔
  x ∈ JsMap.keys (_edges c)
  ∨ ∃ edge, edge ∈ JsMap.values (_edges c)
            ∧ x ∈ ChannelEdge.channelIds edge.
Proof.
  unfold getEdge. simpl. rewrite elem_of_firstOccurrences, elem_of_app.
  apply or_iff_compat_l. rewrite list_elem_of_join. split.
  - intros (l & Hx & Hl). apply list_elem_of_fmap in Hl as (edge & -> & He).
    eauto.
  - intros (edge & He & Hx). exists (ChannelEdge.channelIds edge).
    split; [done|]. apply list_elem_of_fmap. eauto.
Qed.

Lemma getEdge_NoDup c : NoDup (ChannelEdge.channelIds (getEdge c)).
Proof. apply NoDup_firstOccurrences. Qed.

Lemma getEdge_id c : ChannelEdge.id (getEdge c) = id c.
Proof. done. Qed.
End Topology.

(** ** C2 *)

Section AddPipe.
Import Channel Inv.

(** C2 (as stated, refuted): [addPipe] on a new channel subscribes twice
    and emits nothing. *)
Lemma addPipe_emits_no_handshake :
  (addPipe Scenario.a (new "A")).2 =
    [PipeListen Scenario.a handshakeEvent;
     PipeListen Scenario.a messageEvent]
  ∧ ¬ ∃ e, e ∈ (addPipe Scenario.a (new "A")).2 ∧ emission e.
Proof.
  split; [reflexivity|]. intros (e & He & Hem). simpl in He.
  repeat (apply elem_of_cons in He as [->|He]; [done|]).
  by apply elem_of_nil in He.
Qed.

(** C2 (amended): [addPipe(pipe)] subscribes the channel to the handshake
    and the message event of the pipe, appends the pipe to [_pipes],
    changes nothing else and emits nothing.  The handshake with the
    channel's id and the ids it can reach goes out on that pipe when
    [handshakeAll] next runs. *)
Theorem addPipe_subscribes_then_handshakeAll_announces (c : Channel.t) pipe :
  let c' := (addPipe pipe c).1 in
  let effects := (addPipe pipe c).2 in
  PipeListen pipe handshakeEvent ∈ effects
  ∧ PipeListen pipe messageEvent ∈ effects
  ∧ (∀ e, e ∈ effects → ¬ emission e)
  ∧ _pipes c' = _pipes c ++ [pipe]
  ∧ _edges c' = _edges c ∧ _edgePipes c' = _edgePipes c
  ∧ _callbacks c' = _callbacks c ∧ _callers c' = _callers c
  ∧ id c' = id c
  ∧ EmitHandshake pipe ∈ handshakeAll c'
  ∧ _emitHandshake pipe c' =
      [PipeEmit pipe handshakeEvent (PEdge (getEdge c))]
  ∧ ChannelEdge.id (getEdge c) = id c
  ∧ ∀ x, x ∈ ChannelEdge.channelIds (getEdge c) ↔
      x ∈ JsMap.keys (_edges c)
      ∨ ∃ edge, edge ∈ JsMap.values (_edges c)
                ∧ x ∈ ChannelEdge.channelIds edge.
Proof.
  simpl. split_and!; try done.
  - left.
  - right. left.
  - intros e He Hem. unfold log in He. simpl in He.
    destruct (_logger c);
      repeat (apply elem_of_cons in He as [->|He]; [done|]);
      by apply elem_of_nil in He.
  - unfold handshakeAll. simpl. apply list_elem_of_fmap. exists pipe.
    split; [done|]. apply elem_of_app. right. left.
  - apply getEdge_ids.
Qed.
End AddPipe.

(** ** C3 *)

Section Destroy.
Import Channel Inv.

Lemma destroy_clears (c : Channel.t) :
  _callers (destroy c) = ∅ ∧ _callbacks (destroy c) = ∅
  ∧ _edgePipes (destroy c) = ∅ ∧ _pipes (destroy c) = []
  ∧ _emitter (destroy c) = [] ∧ _destroyed (destroy c) = true.
Proof. done. Qed.

Lemma destroy_edges (c : Channel.t) : _edges (destroy c) = _edges c.
Proof. done. Qed.

(** C3 (code at fault): [destroy] empties the handler map, the
    pending-call map, the edge-to-pipe map and the pipe list, and leaves
    the edge table as it was: a channel that has met B still holds the
    edge, and still names B as its route, after [destroy]. *)
Theorem destroy_keeps_edge_table :
  let met :=
    (_handleHandshake Scenario.a
       {| ChannelEdge.id := "B"; ChannelEdge.channelIds := ["C"] |}
       (start "A")).1 in
  let c := destroy (chan met) in
  _edges c =
    [("B", {| ChannelEdge.id := "B"; ChannelEdge.channelIds := ["C"] |})]
  ∧ findEdgeId "C" c = Some "B"
  ∧ _callers c = ∅ ∧ _callbacks c = ∅ ∧ _edgePipes c = ∅ ∧ _pipes c = []
  ∧ ∀ c0, _edges (destroy c0) = _edges c0.
Proof. by repeat split. Qed.
End Destroy.

(** ** C9 *)

Section Proxy.
Import Channel Inv.

(** C9: a message for another channel that this channel has not stamped
    itself is handed to [_emitMessage] with [proxiedBy] set to this
    channel's id and every other field as it came; the world is unchanged;
    whatever goes out is that message; and it goes out, once, on the pipe
    of the peer [findEdgeId] names for the destination. *)
Theorem proxy_stamps_and_forwards (w : World) pipe m :
  destination m ≠ id (chan w) →
  proxiedBy m ≠ Some (id (chan w)) →
  let out := stamp (chan w) m in
  _handleMessage pipe m w = (w, _emitMessage out (chan w))
  ∧ proxiedBy out = Some (id (chan w))
  ∧ name out = name m ∧ source out = source m
  ∧ destination out = destination m ∧ data out = data m
  ∧ nonce out = nonce m
  ∧ (∀ e, e ∈ _emitMessage out (chan w) →
       ∃ p, e = PipeEmit p messageEvent (PMessage out))
  ∧ (∀ edgeId p,
       findEdgeId (destination m) (chan w) = Some edgeId →
       truthy edgeId = true → _edgePipes (chan w) !! edgeId = Some p →
       _emitMessage out (chan w) = [PipeEmit p messageEvent (PMessage out)]
       ∧ ∃ edge, edge ∈ JsMap.values (_edges (chan w))
                 ∧ ChannelEdge.id edge = edgeId
                 ∧ (edgeId = destination m
                    ∨ destination m ∈ ChannelEdge.channelIds edge)).
Proof.
  intros Hd Hp out. split_and!; try done.
  - by apply handleMessage_proxy.
  - apply emitMessage_payload.
  - intros edgeId p He Ht Hpipe. split.
    + by eapply emitMessage_routed.
    + by apply findEdgeId_Some.
Qed.

Lemma proxy_stamps_and_forwards_witness :
  let w :=
    (_handleHandshake Scenario.b2
       {| ChannelEdge.id := "C"; ChannelEdge.channelIds := [] |}
       (start "B")).1 in
  let m := {| name := "ping"; destination := "C"; data := DArr [DNum 1];
              source := "A"; proxiedBy := None; nonce := Some "n1" |} in
  _handleMessage Scenario.b1 m w =
    (w, [PipeEmit Scenario.b2 messageEvent
           (PMessage
              {| name := "ping"; destination := "C";
                 data := DArr [DNum 1]; source := "A";
                 proxiedBy := Some "B"; nonce := Some "n1" |})]).
Proof.
  intros w m.
  destruct (proxy_stamps_and_forwards w Scenario.b1 m) as (H & _);
    [by intros [=] | by intros [=] | exact H].
Defined.
End Proxy.

(** ** Pending calls *)

Section PendingCalls.
Import Channel Inv.
Implicit Types (w : World) (r : Runtime.t) (n : string).

Lemma settle_pending p st r :
  Runtime.promises r !! p = Some Runtime.Pending →
  Runtime.promises (Runtime.settle p st r) !! p = Some st.
Proof.
  intros Hp. unfold Runtime.settle. rewrite Hp. simpl.
  apply lookup_insert_eq.
Qed.

Lemma settle_other p q st r :
  p ≠ q →
  Runtime.promises (Runtime.settle p st r) !! q = Runtime.promises r !! q.
Proof.
  intros Hne. unfold Runtime.settle.
  destruct (Runtime.promises r !! p) as [[]|]; simpl; try done.
  by apply lookup_insert_ne.
Qed.

Lemma settle_settled p q st r :
  Runtime.promises r !! q ≠ Some Runtime.Pending →
  Runtime.promises (Runtime.settle p st r) !! q = Runtime.promises r !! q.
Proof.
  intros Hq. destruct (decide (p = q)) as [->|Hne].
  - unfold Runtime.settle.
    destruct (Runtime.promises r !! q) as [[]|] eqn:E; simpl; done.
  - by apply settle_other.
Qed.

Lemma settle_timers p st r :
  Runtime.timers (Runtime.settle p st r) = Runtime.timers r.
Proof.
  unfold Runtime.settle.
  by destruct (Runtime.promises r !! p) as [[]|].
Qed.


(** What [register] leaves behind. *)
Lemma register_spec n timeout w :
  let p := (register n timeout w).1 in
  let w1 := (register n timeout w).2 in
  p = Runtime.nextPromise (rt w)
  ∧ _callbacks (chan w1) !! n =
      Some {| cb_timeout := Runtime.nextTimer (rt w); cb_promise := p |}
  ∧ Runtime.promises (rt w1) !! p = Some Runtime.Pending
  ∧ Runtime.timers (rt w1) =
      Runtime.timers (rt w) ++
        [(Runtime.nextTimer (rt w),
          {| Runtime.deadline := Runtime.now (rt w) + Runtime.delayOf timeout;
             Runtime.t_owner := id (chan w); Runtime.t_nonce := n;
             Runtime.t_promise := p |})]
  ∧ id (chan w1) = id (chan w) ∧ _edges (chan w1) = _edges (chan w)
  ∧ _edgePipes (chan w1) = _edgePipes (chan w)
  ∧ _callers (chan w1) = _callers (chan w)
  ∧ Runtime.now (rt w1) = Runtime.now (rt w).
Proof.
  simpl. split_and!; try done.
  - apply lookup_insert_eq.
  - apply lookup_insert_eq.
Qed.

Lemma call_unfold messageData opts n w :
  call messageData opts n w =
    let reg := register n (default defaultTimeout opts) w in
    (reg.1, reg.2,
     _emitMessage (request (chan reg.2) messageData n) (chan reg.2)).
Proof. done. Qed.

Lemma emitMessage_same_routes m (c c' : Channel.t) :
  _edges c' = _edges c → _edgePipes c' = _edgePipes c →
  _emitMessage m c' = _emitMessage m c.
Proof.
  intros He Hp. unfold _emitMessage, findEdgeId. by rewrite He, Hp.
Qed.

(** A response finds the pending call: the promise settles by the
    payload, the entry goes, the timeout is cleared. *)
Lemma response_settles w pipe m n cb :
  nonce m = Some n → truthy n = true →
  destination m = id (chan w) → proxiedBy m ≠ Some (id (chan w)) →
  _callbacks (chan w) !! n = Some cb →
  Runtime.promises (rt w) !! cb_promise cb = Some Runtime.Pending →
  let w' := (_handleMessage pipe m w).1 in
  (_handleMessage pipe m w).2 = []
  ∧ Runtime.promises (rt w') !! cb_promise cb =
      Some (if instanceofError (data m) then Runtime.Rejected (data m)
            else Runtime.Fulfilled (data m))
  ∧ _callbacks (chan w') !! n = None
  ∧ ∀ e, e ∈ Runtime.timers (rt w') → e.1 ≠ cb_timeout cb.
Proof.
  intros Hn Ht Hd Hp Hcb Hpend. simpl.
  rewrite (handleMessage_here _ _ _ n) by done. rewrite Hcb. simpl.
  split_and!; [done| | |].
  - by apply settle_pending.
  - apply lookup_delete_eq.
  - intros e. rewrite settle_timers. simpl.
    by intros [? _]%list_elem_of_filter.
Qed.
End PendingCalls.

(** ** C10 *)

Section CallOrder.
Import Channel Inv.

(** C10: [call] is [register] followed by the emission, and the emission
    is made by the channel that already holds the entry for the nonce,
    with its timeout armed and its promise pending; so a response that
    arrives while the emission is still running finds the entry and
    settles the call. *)
Theorem call_registers_before_emitting (w : World) messageData opts n :
  let timeout := default defaultTimeout opts in
  let p := (register n timeout w).1 in
  let w1 := (register n timeout w).2 in
  call messageData opts n w =
    (p, w1, _emitMessage (request (chan w1) messageData n) (chan w1))
  ∧ (∃ cb, _callbacks (chan w1) !! n = Some cb ∧ cb_promise cb = p
           ∧ (cb_timeout cb,
              {| Runtime.deadline := Runtime.now (rt w) + Runtime.delayOf timeout;
                 Runtime.t_owner := id (chan w); Runtime.t_nonce := n;
                 Runtime.t_promise := p |}) ∈ Runtime.timers (rt w1))
  ∧ Runtime.promises (rt w1) !! p = Some Runtime.Pending
  ∧ ∀ pipe m,
      nonce m = Some n → truthy n = true →
      destination m = id (chan w) → proxiedBy m ≠ Some (id (chan w)) →
      let w2 := (_handleMessage pipe m w1).1 in
      Runtime.promises (rt w2) !! p =
        Some (if instanceofError (data m) then Runtime.Rejected (data m)
              else Runtime.Fulfilled (data m))
      ∧ _callbacks (chan w2) !! n = None.
Proof.
  intros timeout p w1.
  destruct (register_spec n timeout w)
    as (Hp & Hcb & Hpend & Htimers & Hid & _).
  fold p w1 in Hp, Hcb, Hpend, Htimers, Hid.
  split_and!; [done| |done|].
  - eexists. split; [exact Hcb|]. split; [done|].
    rewrite Htimers. apply elem_of_app. right. left.
  - intros pipe m Hn Ht Hd Hpr.
    edestruct (response_settles w1 pipe m n) as (_ & Hs & Hgone & _);
      [exact Hn | exact Ht | by rewrite Hid | by rewrite Hid
      | exact Hcb | exact Hpend |].
    done.
Qed.

Lemma call_registers_before_emitting_witness :
  let w1 := (register "n1" 10000 (start "A")).2 in
  Runtime.promises
    (rt (_handleMessage Scenario.a (Scenario.reply None) w1).1) !! 0
    = Some (Runtime.Fulfilled (DNum 2))
  ∧ _callbacks (chan (_handleMessage Scenario.a (Scenario.reply None) w1).1)
      !! "n1" = None.
Proof.
  destruct (call_registers_before_emitting (start "A")
              {| in_name := "ping"; in_destination := "C";
                 in_data := DArr [DNum 1] |} None "n1")
    as (_ & _ & _ & H).
  apply (H Scenario.a (Scenario.reply None)); [reflexivity..|].
  intros [=].
Defined.

(** On a port the answer of an endpoint that replies at once arrives
    inside [call]: when [run] returns the promise is already fulfilled,
    nothing is left pending and no micro-task was needed. *)
Lemma synchronous_answer_resolves :
  ∃ s, Scenario.answered (DNum 2) = Some s
       ∧ Net.promise 0 (Net.net s) = Some (Runtime.Fulfilled (DNum 2))
       ∧ Runtime.timers (Net.rt (Net.net s)) = []
       ∧ Runtime.microtasks (Net.rt (Net.net s)) = []
       ∧ (Net.channels (Net.net s) !! "A" ≫=
            λ ch, _callbacks ch !! "n1") = None.
Proof. eexists. split; [vm_compute; reflexivity|]. by vm_compute. Qed.
End CallOrder.

Section CallOnPort.
Import Channel Inv.

(** On a net, the stack that carries the emission of [run] starts from the
    net whose channel already holds the callback: whatever the port calls
    back during the emission runs against the registered entry. *)
Lemma run_emits_from_registered_net fuel c hostName name output n net ch :
  Net.channels net !! c = Some ch →
  let w := {| chan := ch; rt := Net.rt net |} in
  let res := RemoteClient.run hostName name output n w in
  Net.run fuel c hostName name output n net =
    Net.exec fuel (map (Net.Run c) res.2)
      {| Net.channels := <[c := chan res.1.2]> (Net.channels net);
         Net.ports := Net.ports net; Net.rt := rt res.1.2 |}
  ∧ is_Some (_callbacks (chan res.1.2) !! n)
  ∧ Runtime.promises (rt res.1.2) !! res.1.1 = Some Runtime.Pending.
Proof.
  intros Hc w res. split_and!.
  - unfold Net.run, Net.invoke, Net.enter. by rewrite Hc.
  - unfold res, RemoteClient.run. rewrite call_unfold. simpl.
    rewrite lookup_insert_eq. eauto.
  - unfold res, RemoteClient.run. rewrite call_unfold. simpl.
    apply lookup_insert_eq.
Qed.
End CallOnPort.

(** ** Handlers that fail *)

Section HandlerFailure.
Import Channel Inv.

Lemma respond_throws (c : Channel.t) owner m e :
  respond {| Runtime.j_owner := owner; Runtime.j_request := m;
             Runtime.j_outcome := Throws e |} c
  = ConsoleError e :: _emitMessage (answer c m (toError e)) c.
Proof. done. Qed.

Lemma respond_returns (c : Channel.t) owner m v :
  respond {| Runtime.j_owner := owner; Runtime.j_request := m;
             Runtime.j_outcome := Returns v |} c
  = _emitMessage (answer c m v) c.
Proof. done. Qed.


(** A call whose handler throws or rejects is caught at the host:
    the handler runs, its continuation is queued, and when it runs it
    logs the failure and hands to [_emitMessage] the answer to the
    caller, carrying the call's nonce and an [Error] made from the
    failure; with a route to the caller known the answer goes out on
    that route's pipe.  The caller that handles the answer, as sent or as
    stamped by proxies on the way, rejects the call's promise with that
    error, drops the pending entry and clears the timeout. *)
Lemma failing_handler_rejects_call
  (host : World) pipe m n (caller : Data → Outcome) e :
  nonce m = Some n → truthy n = true →
  destination m = id (chan host) → proxiedBy m ≠ Some (id (chan host)) →
  _callbacks (chan host) !! n = None →
  _callers (chan host) !! name m = Some caller →
  caller (data m) = Throws e →
  let job := {| Runtime.j_owner := id (chan host); Runtime.j_request := m;
                Runtime.j_outcome := Throws e |} in
  let reply := answer (chan host) m (toError e) in
  _handleMessage pipe m host =
    ({| chan := chan host; rt := Runtime.enqueue job (rt host) |},
     [CallerCall (name m) (data m)])
  ∧ respond job (chan host) =
      ConsoleError e :: _emitMessage reply (chan host)
  ∧ data reply = DErr (default (thrown_text e) (thrown_message e))
  ∧ nonce reply = Some n ∧ destination reply = source m
  ∧ source reply = id (chan host) ∧ name reply = name m
  ∧ (∀ edgeId p,
       findEdgeId (source m) (chan host) = Some edgeId →
       truthy edgeId = true → _edgePipes (chan host) !! edgeId = Some p →
       respond job (chan host) =
         [ConsoleError e; PipeEmit p messageEvent (PMessage reply)])
  ∧ ∀ (client : World) pipe' m' cb,
      data m' = data reply → nonce m' = nonce reply →
      destination m' = destination reply →
      id (chan client) = source m →
      proxiedBy m' ≠ Some (id (chan client)) →
      _callbacks (chan client) !! n = Some cb →
      Runtime.promises (rt client) !! cb_promise cb
        = Some Runtime.Pending →
      let client' := (_handleMessage pipe' m' client).1 in
      Runtime.promises (rt client') !! cb_promise cb
        = Some (Runtime.Rejected (toError e))
      ∧ _callbacks (chan client') !! n = None
      ∧ ∀ t, t ∈ Runtime.timers (rt client') → t.1 ≠ cb_timeout cb.
Proof.
  intros Hn Ht Hd Hp Hcb Hcl Hthrow job reply.
  split_and!; try done.
  - rewrite (handleMessage_here _ _ _ n) by done.
    by rewrite Hcb, Hcl, Hthrow.
  - intros edgeId p He Htr Hpipe. unfold job. rewrite respond_throws.
    f_equal. by eapply emitMessage_routed.
  - intros client pipe' m' cb Hdata Hnonce Hdest Hid Hpr Hcb' Hpend.
    simpl in Hnonce, Hdest, Hdata. rewrite Hn in Hnonce.
    edestruct (response_settles client pipe' m' n) as (_ & Hs & Hg & Htm);
      [exact Hnonce | exact Ht | by rewrite Hdest, Hid | exact Hpr
      | exact Hcb' | exact Hpend |].
    rewrite Hdata in Hs. done.
Qed.

Lemma failing_handler_rejects_call_witness :
  let host :=
    only (onCall "ping" (RemoteHost.wrap Scenario.engine Scenario.failing))
      (_handleHandshake Scenario.c
         {| ChannelEdge.id := "A"; ChannelEdge.channelIds := [] |}
         (start "C")).1 in
  let m := {| name := "ping"; destination := "C"; data := DArr [DNum 1];
              source := "A"; proxiedBy := None; nonce := Some "n1" |} in
  let reply := {| name := "ping"; destination := "A"; data := DErr "boom";
                  source := "C"; proxiedBy := None; nonce := Some "n1" |} in
  let client := (register "n1" 10000 (start "A")).2 in
  (_handleMessage Scenario.c m host).2 = [CallerCall "ping" (DArr [DNum 1])]
  ∧ respond {| Runtime.j_owner := "C"; Runtime.j_request := m;
               Runtime.j_outcome := Throws Scenario.boom |} (chan host)
    = [ConsoleError Scenario.boom;
       PipeEmit Scenario.c messageEvent (PMessage reply)]
  ∧ Runtime.promises (rt (_handleMessage Scenario.a reply client).1) !! 0
    = Some (Runtime.Rejected (DErr "boom")).
Proof.
  intros host m reply client.
  destruct (failing_handler_rejects_call host Scenario.c m "n1"
              (RemoteHost.wrap Scenario.engine Scenario.failing) Scenario.boom)
    as (H1 & _ & _ & _ & _ & _ & _ & H2 & H3);
    [reflexivity | reflexivity | reflexivity | by intros [=]
    | reflexivity | reflexivity | reflexivity |].
  split; [by rewrite H1|]. split.
  - apply (H2 "A" Scenario.c); reflexivity.
  - edestruct (H3 client Scenario.a reply) as (H & _);
      [reflexivity | reflexivity | reflexivity | reflexivity
      | by intros [=] | reflexivity | reflexivity |].
    exact H.
Defined.

(** End to end, A and C on one port: the failing handler's error comes
    back and the call is rejected with it; a handler that returns
    resolves it. *)
Lemma direct_call_settles :
  (∃ s, Scenario.direct Scenario.failing = Some s
        ∧ Net.promise 0 (Net.net s) = Some (Runtime.Rejected (DErr "boom"))
        ∧ Runtime.timers (Net.rt (Net.net s)) = [])
  ∧ (∃ s, Scenario.direct Scenario.ping = Some s
          ∧ Net.promise 0 (Net.net s) = Some (Runtime.Fulfilled (DNum 2))).
Proof.
  split; eexists; (split; [vm_compute; reflexivity|]); by vm_compute.
Qed.
End HandlerFailure.

(** ** Timers *)

Section Timers.
Import Channel Inv.
Implicit Types (w : World) (e : nat * Runtime.Timer) (p : nat).

Lemma elem_of_insertByDeadline e e' l :
  e' ∈ Runtime.insertByDeadline e l ↔ e' = e ∨ e' ∈ l.
Proof.
  induction l as [|x l IH]; simpl.
  - rewrite list_elem_of_singleton, elem_of_nil. tauto.
  - destruct (_ <=? _)%N.
    + by rewrite elem_of_cons.
    + rewrite !elem_of_cons, IH. tauto.
Qed.

Lemma elem_of_firingOrder e l : e ∈ Runtime.firingOrder l ↔ e ∈ l.
Proof.
  unfold Runtime.firingOrder. induction l as [|x l IH]; simpl; [done|].
  rewrite elem_of_insertByDeadline, elem_of_cons, IH. tauto.
Qed.

Lemma elem_of_due e time w :
  e ∈ due time w ↔
  e ∈ Runtime.timers (rt w) ∧ (Runtime.deadline e.2 ≤ time)%N
  ∧ Runtime.t_owner e.2 = id (chan w).
Proof.
  unfold due. rewrite elem_of_firingOrder, list_elem_of_filter. tauto.
Qed.

Lemma fire_promise_other e w p :
  Runtime.t_promise e.2 ≠ p →
  Runtime.promises (rt (fire e w)) !! p = Runtime.promises (rt w) !! p.
Proof. intros Hne. unfold fire. simpl. by rewrite settle_other. Qed.

Lemma fire_promise_settled e w p :
  Runtime.promises (rt w) !! p ≠ Some Runtime.Pending →
  Runtime.promises (rt (fire e w)) !! p = Runtime.promises (rt w) !! p.
Proof. intros Hs. unfold fire. simpl. by rewrite settle_settled. Qed.

Lemma fire_rejects e w :
  Runtime.promises (rt w) !! Runtime.t_promise e.2
    = Some Runtime.Pending →
  Runtime.promises (rt (fire e w)) !! Runtime.t_promise e.2
    = Some (Runtime.Rejected timeoutError).
Proof. intros Hp. unfold fire. simpl. by rewrite settle_pending. Qed.

Lemma fire_absent e w n :
  _callbacks (chan w) !! n = None →
  _callbacks (chan (fire e w)) !! n = None.
Proof.
  intros Hn. unfold fire. simpl. rewrite lookup_delete. by case_decide.
Qed.

Lemma fire_deletes e w :
  _callbacks (chan (fire e w)) !! Runtime.t_nonce e.2 = None.
Proof. unfold fire. simpl. apply lookup_delete_eq. Qed.

Lemma fire_id e w : id (chan (fire e w)) = id (chan w).
Proof. done. Qed.

Lemma fire_all_promise_other (l : list (nat * Runtime.Timer)) w p :
  (∀ e, e ∈ l → Runtime.t_promise e.2 ≠ p) →
  Runtime.promises (rt (foldl (λ acc e, fire e acc) w l)) !! p
    = Runtime.promises (rt w) !! p.
Proof.
  revert w. induction l as [|e l IH]; intros w Hall; simpl; [done|].
  rewrite IH; [|intros; apply Hall; by right].
  apply fire_promise_other, Hall. left.
Qed.

Lemma fire_all_promise_settled (l : list (nat * Runtime.Timer)) w p :
  Runtime.promises (rt w) !! p ≠ Some Runtime.Pending →
  Runtime.promises (rt (foldl (λ acc e, fire e acc) w l)) !! p
    = Runtime.promises (rt w) !! p.
Proof.
  revert w. induction l as [|e l IH]; intros w Hs; simpl; [done|].
  rewrite IH; rewrite fire_promise_settled; done.
Qed.

(** Among the timers fired, one that holds [p]: a pending [p] ends up
    rejected with the timeout error. *)
Lemma fire_all_rejects (l : list (nat * Runtime.Timer)) w p :
  (∃ e, e ∈ l ∧ Runtime.t_promise e.2 = p) →
  Runtime.promises (rt w) !! p = Some Runtime.Pending →
  Runtime.promises (rt (foldl (λ acc e, fire e acc) w l)) !! p
    = Some (Runtime.Rejected timeoutError).
Proof.
  revert w. induction l as [|e l IH]; intros w (x & Hx & Hp) Hpend; simpl.
  - by apply elem_of_nil in Hx.
  - destruct (decide (Runtime.t_promise e.2 = p)) as [Heq|Hne].
    + clear IH Hx Hp. subst p. rewrite fire_all_promise_settled.
      * by apply fire_rejects.
      * by rewrite fire_rejects.
    + apply IH.
      * apply elem_of_cons in Hx as [->|Hx]; [done|]. eauto.
      * by rewrite fire_promise_other.
Qed.

Lemma fire_all_absent (l : list (nat * Runtime.Timer)) w n :
  _callbacks (chan w) !! n = None →
  _callbacks (chan (foldl (λ acc e, fire e acc) w l)) !! n = None.
Proof.
  revert w. induction l as [|e l IH]; intros w Hn; simpl; [done|].
  by apply IH, fire_absent.
Qed.

Lemma fire_all_deletes (l : list (nat * Runtime.Timer)) w n :
  (∃ e, e ∈ l ∧ Runtime.t_nonce e.2 = n) →
  _callbacks (chan (foldl (λ acc e, fire e acc) w l)) !! n = None.
Proof.
  revert w. induction l as [|e l IH]; intros w (x & Hx & Hn); simpl.
  - by apply elem_of_nil in Hx.
  - apply elem_of_cons in Hx as [->|Hx].
    + apply fire_all_absent. subst n. apply fire_deletes.
    + apply IH. eauto.
Qed.

Lemma advanceTo_promises time w p :
  Runtime.promises (rt (advanceTo time w)) !! p =
  Runtime.promises
    (rt (foldl (λ acc e, fire e acc) w (due time w))) !! p.
Proof. done. Qed.

Lemma advanceTo_callbacks time w :
  _callbacks (chan (advanceTo time w)) =
  _callbacks (chan (foldl (λ acc e, fire e acc) w (due time w))).
Proof. done. Qed.
End Timers.

(** ** Local events *)

Section LocalEvents.
Import Channel Inv.

Lemma invoke_data fn d (w : World) :
  (invoke fn (ArgData d) w).1 = w
  ∧ ∀ e, e ∈ (invoke fn (ArgData d) w).2 → ¬ emission e.
Proof.
  destruct fn; simpl; split; try done.
  - intros e ->%list_elem_of_singleton. by intros [].
  - intros e He. by apply elem_of_nil in He.
Qed.

(** Dispatching a message as a local event reaches no pipe and queues
    nothing. *)
Lemma emit_data_quiet name d (w : World) :
  (∀ e, e ∈ (emit name (ArgData d) w).2 → ¬ emission e)
  ∧ rt (emit name (ArgData d) w).1 = rt w.
Proof.
  unfold emit.
  generalize (filter (λ r, r_event r = name) (_emitter (chan w))).
  intros l.
  assert (Hstart :
    (∀ e, e ∈ (w, [EmitterEmit name (ArgData d)]).2 → ¬ emission e)
    ∧ rt (w, [EmitterEmit name (ArgData d)]).1 = rt w).
  { split; [|done]. intros e ->%list_elem_of_singleton. by intros []. }
  revert Hstart. generalize (w, [EmitterEmit name (ArgData d)]).
  induction l as [|r l IH]; intros acc Hacc; simpl; [done|].
  apply IH. destruct Hacc as [Hq Hrt]. simpl.
  set (w1 := if r_once r then _ else _).
  destruct (invoke_data (r_fn r) d w1) as [Hw He].
  split.
  - intros e [?|?]%elem_of_app; [by apply Hq | by apply He].
  - rewrite Hw. unfold w1. by destruct (r_once r).
Qed.
End LocalEvents.

(** ** Handshakes *)

Section Splice.
Import Inv.
Implicit Types (x y : string) (arr : list string).

Lemma splice_first x arr :
  (if includes x arr
   then match indexOf x arr with
        | Some i => splice1 i arr
        | None => arr
        end
   else arr) = withoutFirst x arr.
Proof.
  induction arr as [|y rest IH]; simpl; [by destruct (includes x [])|].
  destruct (decide (y = x)) as [->|Hne].
  - replace (includes x (x :: rest)) with true; [done|].
    symmetry. apply includes_true. left.
  - rewrite <- IH. destruct (includes x (y :: rest)) eqn:Hi.
    + apply includes_true in Hi. apply elem_of_cons in Hi as [->|Hi]; [done|].
      apply includes_true in Hi as Hi'. rewrite Hi'.
      destruct (indexOf_elem _ _ Hi) as [i ->]. done.
    + apply includes_false in Hi. apply not_elem_of_cons in Hi as [_ Hi].
      apply includes_false in Hi as ->. done.
Qed.

Lemma elem_of_withoutFirst x y arr :
  y ∈ withoutFirst x arr → y ∈ arr.
Proof.
  induction arr as [|z rest IH]; simpl; [done|].
  case_decide; [by right|]. intros [->|?]%elem_of_cons; [left|right; auto].
Qed.

Lemma withoutFirst_once x arr :
  length (filter (λ y, y = x) arr) ≤ 1 → x ∉ withoutFirst x arr.
Proof.
  induction arr as [|z rest IH]; simpl; [intros _; apply not_elem_of_nil|].
  rewrite filter_cons. destruct (decide (z = x)) as [->|Hne]; simpl.
  - intros Hlen Hin. assert (x ∈ filter (λ y, y = x) rest) as Hf
      by (by apply list_elem_of_filter).
    destruct (filter (λ y, y = x) rest); [by apply elem_of_nil in Hf|].
    simpl in Hlen. lia.
  - intros Hlen. apply not_elem_of_cons. split; [done|]. by apply IH.
Qed.

Lemma withoutFirst_only_x x arr :
  length (filter (λ y, y = x) arr) ≤ 1 → (∀ y, y ∈ arr → y = x) →
  withoutFirst x arr = [].
Proof.
  intros Hlen Hall. destruct arr as [|z rest]; [done|]. simpl.
  rewrite decide_True by (apply Hall; left).
  destruct rest as [|z' rest]; [done|]. exfalso.
  rewrite (Hall z), (Hall z') in Hlen by (by repeat constructor).
  rewrite !filter_cons_True in Hlen by done. simpl in Hlen. lia.
Qed.

Lemma filter_filter_length x (P : string → Prop) `{∀ y, Decision (P y)} arr :
  length (filter (λ y, y = x) (filter P arr))
  ≤ length (filter (λ y, y = x) arr).
Proof.
  induction arr as [|z rest IH]; simpl; [done|].
  rewrite !filter_cons.
  destruct (decide (P z)), (decide (z = x)); simpl;
    rewrite ?filter_cons; try destruct (decide (z = x)); simpl; try lia;
    done.
Qed.

Lemma NoDup_names_once x arr :
  NoDup arr → length (filter (λ y, y = x) arr) ≤ 1.
Proof.
  induction 1 as [|z rest Hz _ IH]; simpl; [lia|].
  rewrite filter_cons. destruct (decide (z = x)) as [->|]; simpl; [|done].
  destruct (filter (λ y, y = x) rest) as [|y l] eqn:Hf; simpl; [lia|].
  assert (y ∈ filter (λ y, y = x) rest) as [-> Hin]%list_elem_of_filter
    by (rewrite Hf; left). done.
Qed.
End Splice.

(** Effects in a short explicit list, none of which reaches a pipe. *)
Ltac quiet :=
  let e := fresh "e" in
  let He := fresh "He" in
  intros e He; simpl in He;
  repeat (apply elem_of_cons in He as [->|He]; [by intros []|]);
  by apply elem_of_nil in He.

Section HandshakeFacts.
Import Channel Inv.
Implicit Types (w : World) (c : Channel.t) (edge : ChannelEdge.t).

Lemma same_but_emitter_refl c : same_but_emitter c c.
Proof. by repeat split. Qed.

Lemma same_but_emitter_trans c1 c2 c3 :
  same_but_emitter c1 c2 → same_but_emitter c2 c3 →
  same_but_emitter c1 c3.
Proof.
  unfold same_but_emitter.
  intros (?&?&?&?&?&?&?&?) (?&?&?&?&?&?&?&?).
  split_and!; congruence.
Qed.

Lemma invoke_frame fn arg w :
  same_but_emitter (chan w) (chan (invoke fn arg w).1)
  ∧ Runtime.timers (rt (invoke fn arg w).1) = Runtime.timers (rt w)
  ∧ Runtime.nextPromise (rt (invoke fn arg w).1)
    = Runtime.nextPromise (rt w)
  ∧ ∀ e, e ∈ (invoke fn arg w).2 → ¬ emission e.
Proof.
  assert (Hsettle : ∀ p st r,
    Runtime.nextPromise (Runtime.settle p st r) = Runtime.nextPromise r).
  { intros p st r. unfold Runtime.settle.
    by destruct (Runtime.promises r !! p) as [[]|]. }
  destruct fn as [f|destination p]; [|destruct arg as [d|edge]]; simpl;
    [| |destruct (_ || _); simpl];
    (split_and!;
     [first [apply same_but_emitter_refl | by repeat split]
     | by rewrite ?settle_timers
     | by rewrite ?Hsettle
     | quiet]).
Qed.

Lemma emit_frame name arg w :
  same_but_emitter (chan w) (chan (emit name arg w).1)
  ∧ Runtime.timers (rt (emit name arg w).1) = Runtime.timers (rt w)
  ∧ Runtime.nextPromise (rt (emit name arg w).1)
    = Runtime.nextPromise (rt w)
  ∧ ∀ e, e ∈ (emit name arg w).2 → ¬ emission e.
Proof.
  unfold emit.
  generalize (filter (λ r, r_event r = name) (_emitter (chan w))).
  intros l.
  assert (Hstart :
    same_but_emitter (chan w) (chan (w, [EmitterEmit name arg]).1)
    ∧ Runtime.timers (rt (w, [EmitterEmit name arg]).1)
      = Runtime.timers (rt w)
    ∧ Runtime.nextPromise (rt (w, [EmitterEmit name arg]).1)
      = Runtime.nextPromise (rt w)
    ∧ ∀ e, e ∈ (w, [EmitterEmit name arg]).2 → ¬ emission e).
  { split_and!; [apply same_but_emitter_refl|done|done|quiet]. }
  revert Hstart. generalize (w, [EmitterEmit name arg]).
  induction l as [|r l IH]; intros acc Hacc; simpl; [done|].
  apply IH. destruct Hacc as (Hs & Ht & Hn & Hq). simpl.
  set (w1 := if r_once r then _ else _).
  assert (Hw1 : same_but_emitter (chan acc.1) (chan w1)
                ∧ rt w1 = rt acc.1).
  { unfold w1. destruct (r_once r); simpl; split; try done;
      apply same_but_emitter_refl. }
  destruct Hw1 as [Hs1 Hrt1].
  destruct (invoke_frame (r_fn r) arg w1) as (Hs2 & Ht2 & Hn2 & Hq2).
  split_and!.
  - eapply same_but_emitter_trans; [exact Hs|].
    eapply same_but_emitter_trans; [exact Hs1|exact Hs2].
  - by rewrite Ht2, Hrt1.
  - by rewrite Hn2, Hrt1.
  - intros e [?|?]%elem_of_app; [by apply Hq | by apply Hq2].
Qed.

Lemma log_quiet line c e : e ∈ log line c → ∃ l, e = Log l.
Proof.
  unfold log. destruct (_logger c); [|by intros ?%elem_of_nil].
  intros ->%list_elem_of_singleton. eauto.
Qed.

(** The edge table and the id after a handshake. *)
Lemma handleHandshake_edges pipe edge w :
  _edges (chan (_handleHandshake pipe edge w).1) = merged (chan w) edge
  ∧ id (chan (_handleHandshake pipe edge w).1) = id (chan w).
Proof.
  unfold _handleHandshake, merged.
  destruct (decide (id (chan w) = ChannelEdge.id edge)); [done|].
  destruct (JsMap.get _ _) as [prevEdge|] eqn:Hget.
  - rewrite splice_first.
    destruct (withoutFirst _ _) as [|x l] eqn:Hnew; [done|]. simpl.
    match goal with
    | |- context [emit ?n ?a ?w0] =>
        destruct (emit_frame n a w0) as ((Hid & He & _) & _)
    end.
    by rewrite He, Hid.
  - simpl.
    match goal with
    | |- context [emit ?n ?a ?w0] =>
        destruct (emit_frame n a w0) as ((Hid & He & _) & _)
    end.
    by rewrite He, Hid.
Qed.

(** A redundant handshake that names the receiver at most once changes
    nothing: no notification, no emission; at most a log line. *)
Lemma redundant_handshake_quiet pipe edge w :
  redundant (chan w) edge → names_once (chan w) edge →
  (_handleHandshake pipe edge w).1 = w
  ∧ ∀ e, e ∈ (_handleHandshake pipe edge w).2 → ∃ l, e = Log l.
Proof.
  intros (prevEdge & Hget & Hknown) Honce. unfold _handleHandshake.
  case_decide; [by split; [|intros e ?%elem_of_nil]|].
  rewrite Hget, splice_first.
  rewrite withoutFirst_only_x.
  - split; [done|]. intros e. apply log_quiet.
  - etrans; [apply filter_filter_length|]. exact Honce.
  - intros y [Hnot Hin]%list_elem_of_filter.
    destruct (decide (y = id (chan w))); [done|].
    exfalso. by apply Hnot, Hknown.
Qed.

Lemma self_handshake_ignored pipe edge w :
  ChannelEdge.id edge = id (chan w) →
  _handleHandshake pipe edge w = (w, []).
Proof. intros H. unfold _handleHandshake. by rewrite decide_True. Qed.
End HandshakeFacts.

Section JsMapMore.
Context {V : Type}.
Implicit Types (k : string) (v : V) (m : JsMap.t V).

Lemma elem_of_set k v m kv :
  kv ∈ JsMap.set k v m → kv = (k, v) ∨ kv ∈ m.
Proof.
  induction m as [|[k' v'] rest IH]; simpl.
  - intros ->%list_elem_of_singleton. by left.
  - destruct (decide (k' = k)) as [->|Hne].
    + intros [->|Hin]%elem_of_cons; [by left|]. right. by right.
    + intros [->|Hin]%elem_of_cons; [right; left|].
      destruct (IH Hin) as [->|?]; [by left|]. right. by right.
Qed.
End JsMapMore.

(** ** The edge table under every operation *)

Section EdgeTable.
Import Channel Inv.
Implicit Types (w : World) (c : Channel.t) (edge : ChannelEdge.t).

Lemma grows_same c c' : _edges c' = _edges c → grows c c'.
Proof. intros He k e Hk. exists e. by rewrite He. Qed.

Lemma invariant_same c c' :
  _edges c' = _edges c → id c' = id c →
  edges_wf c → own_id_absent c →
  edges_wf c' ∧ own_id_absent c' ∧ grows c c' ∧ id c' = id c.
Proof.
  intros He Hid Hwf Hown. unfold edges_wf, own_id_absent in *.
  rewrite He, Hid. split_and!; try done; try apply Hwf.
  by apply grows_same.
Qed.

(** Storing [stored] under the id of [edge]. *)
Lemma invariant_set c c' edge ids :
  _edges c' =
    JsMap.set (ChannelEdge.id edge)
      {| ChannelEdge.id := ChannelEdge.id edge;
         ChannelEdge.channelIds := ids |} (_edges c) →
  id c' = id c → id c ∉ ids →
  (∀ prevEdge,
     JsMap.get (ChannelEdge.id edge) (_edges c) = Some prevEdge →
     ChannelEdge.channelIds prevEdge ⊆ ids) →
  edges_wf c → own_id_absent c →
  edges_wf c' ∧ own_id_absent c' ∧ grows c c' ∧ id c' = id c.
Proof.
  intros He Hid Hnot Hsub [Hnd Hkeys] Hown.
  unfold edges_wf, own_id_absent. rewrite He, Hid.
  split_and!; [by apply NoDup_keys_set| | | |done].
  - intros k e [[= -> ->]|Hin]%elem_of_set; [done|]. by apply Hkeys.
  - intros k e [[= -> ->]|Hin]%elem_of_set; [done|]. by eapply Hown.
  - intros k e Hk. unfold grows. rewrite He.
    destruct (decide (ChannelEdge.id edge = k)) as [<-|Hne].
    + rewrite get_set_eq. eexists. split; [done|]. simpl. by apply Hsub.
    + rewrite get_set_ne by done. by exists e.
Qed.

Lemma invariant_merged c c' edge :
  _edges c' = merged c edge → id c' = id c →
  names_once c edge → edges_wf c → own_id_absent c →
  edges_wf c' ∧ own_id_absent c' ∧ grows c c' ∧ id c' = id c.
Proof.
  unfold merged. intros He Hid Honce Hwf Hown.
  destruct (decide (id c = ChannelEdge.id edge));
    [by apply invariant_same|].
  destruct (JsMap.get _ _) as [prevEdge|] eqn:Hget.
  - destruct (withoutFirst _ _) as [|x l] eqn:Hnew;
      [by apply invariant_same|].
    eapply invariant_set; try done.
    + rewrite <- Hnew. apply not_elem_of_app. split.
      * apply get_elem_of in Hget. by eapply Hown.
      * apply withoutFirst_once.
        etrans; [apply filter_filter_length|]. exact Honce.
    + intros prev' Hprev'. rewrite Hget in Hprev'.
      injection Hprev' as <-. intros y Hy. apply elem_of_app. by left.
  - eapply invariant_set; try done.
    + by intros [Hne _]%list_elem_of_filter.
    + intros prev' Hprev'. by rewrite Hget in Hprev'.
Qed.

Lemma fire_all_edges (l : list (nat * Runtime.Timer)) w :
  _edges (chan (foldl (λ acc e, fire e acc) w l)) = _edges (chan w)
  ∧ id (chan (foldl (λ acc e, fire e acc) w l)) = id (chan w).
Proof.
  revert w. induction l as [|e l IH]; intros w; simpl; [done|].
  destruct (IH (fire e w)) as [-> ->]. done.
Qed.

Lemma handleMessage_edges pipe m w :
  _edges (chan (_handleMessage pipe m w).1) = _edges (chan w)
  ∧ id (chan (_handleMessage pipe m w).1) = id (chan w).
Proof.
  unfold _handleMessage.
  pose proof (emit_frame (Named (name m)) (ArgData (data m)) w)
    as ((Hid & He & _) & _).
  repeat case_match; simpl; done.
Qed.

Lemma waitForEdge_edges destination w :
  _edges (chan (waitForEdge destination w).2) = _edges (chan w)
  ∧ id (chan (waitForEdge destination w).2) = id (chan w).
Proof. unfold waitForEdge. repeat case_match; simpl; done. Qed.

Lemma handshake_or_not (op : Op) :
  (∃ pipe edge, op = HandleHandshake pipe edge)
  ∨ (∀ pipe edge, op ≠ HandleHandshake pipe edge).
Proof. destruct op; first [by left; eauto | by right]. Qed.

(** Every operation but a handshake leaves the edge table alone. *)
Lemma apply_edges op w :
  (∀ pipe edge, op ≠ HandleHandshake pipe edge) →
  _edges (chan (apply op w)) = _edges (chan w)
  ∧ id (chan (apply op w)) = id (chan w).
Proof.
  intros Hop. destruct op; simpl; try done.
  - by destruct (Hop pipe edge).
  - apply handleMessage_edges.
  - apply waitForEdge_edges.
  - apply fire_all_edges.
Qed.

(** The edge table holds one edge per peer, stored under the peer's id;
    every operation keeps the edges there are and the ids they list; and,
    as long as no handshake names the receiver twice, no edge lists the
    channel itself. *)
Lemma edge_table_invariant op w :
  tame (chan w) op → edges_wf (chan w) → own_id_absent (chan w) →
  edges_wf (chan (apply op w)) ∧ own_id_absent (chan (apply op w))
  ∧ grows (chan w) (chan (apply op w))
  ∧ id (chan (apply op w)) = id (chan w).
Proof.
  intros Htame Hwf Hown.
  destruct (handshake_or_not op) as [(pipe & edge & ->)|Hother].
  - simpl in *. destruct (handleHandshake_edges pipe edge w) as [He Hid].
    by apply (invariant_merged (chan w) _ edge).
  - destruct (apply_edges op w) as [He Hid]; [done|].
    by apply invariant_same.
Qed.

Lemma new_channel_invariant name :
  edges_wf (new name) ∧ own_id_absent (new name).
Proof.
  split; [split|].
  - apply NoDup_nil_2.
  - by intros k e ?%elem_of_nil.
  - by intros k e ?%elem_of_nil.
Qed.

(** Growth and uniqueness need no assumption on the handshake. *)
Lemma edge_table_grows op w :
  edges_wf (chan w) →
  edges_wf (chan (apply op w)) ∧ grows (chan w) (chan (apply op w)).
Proof.
  intros [Hnd Hkeys].
  destruct (handshake_or_not op) as [(pipe & edge & ->)|Hother].
  - simpl. destruct (handleHandshake_edges pipe edge w) as [He Hid].
    unfold edges_wf, grows. rewrite He. unfold merged.
    assert (Hset : ∀ ids,
      (∀ prevEdge,
         JsMap.get (ChannelEdge.id edge) (_edges (chan w)) = Some prevEdge →
         ChannelEdge.channelIds prevEdge ⊆ ids) →
      let T := JsMap.set (ChannelEdge.id edge)
                 {| ChannelEdge.id := ChannelEdge.id edge;
                    ChannelEdge.channelIds := ids |} (_edges (chan w)) in
      (NoDup (JsMap.keys T) ∧ ∀ k e, (k, e) ∈ T → ChannelEdge.id e = k)
      ∧ ∀ k e, JsMap.get k (_edges (chan w)) = Some e →
          ∃ e', JsMap.get k T = Some e'
                ∧ ChannelEdge.channelIds e ⊆ ChannelEdge.channelIds e').
    { intros ids Hsub T. split_and!; [by apply NoDup_keys_set| |].
      - intros k e [[= -> ->]|Hin]%elem_of_set; [done|]. by apply Hkeys.
      - intros k e Hk. unfold T.
        destruct (decide (ChannelEdge.id edge = k)) as [<-|Hne].
        + rewrite get_set_eq. eexists. split; [done|]. by apply Hsub.
        + rewrite get_set_ne by done. by exists e. }
    assert (Hsame :
      (NoDup (JsMap.keys (_edges (chan w)))
       ∧ ∀ k e, (k, e) ∈ _edges (chan w) → ChannelEdge.id e = k)
      ∧ ∀ k e, JsMap.get k (_edges (chan w)) = Some e →
          ∃ e', JsMap.get k (_edges (chan w)) = Some e'
                ∧ ChannelEdge.channelIds e ⊆ ChannelEdge.channelIds e')
      by (split; [done|]; intros k e ?; by exists e).
    case_decide; [done|].
    destruct (JsMap.get _ _) as [prevEdge|] eqn:Hget.
    + destruct (withoutFirst _ _) as [|x l]; [done|].
      apply Hset. intros ? [= <-] y Hy. apply elem_of_app. by left.
    + apply Hset. by intros ? [=].
  - destruct (apply_edges op w) as [He Hid]; [done|].
    unfold edges_wf. rewrite He. split; [done|]. by apply grows_same.
Qed.
End EdgeTable.

(** ** Handshakes that name the receiver twice *)

Section RepeatedOwnId.
Import Channel Inv.

(** A handshake that lists its receiver twice is one no channel builds:
    [getEdge] lists an id once.  Were one delivered all the same, the
    branch for a known peer would drop one occurrence of the own id with
    [splice] and store the other, where the branch for a new peer
    filters them all.  This is why the statements about known peers
    below are about handshakes that name the receiver at most once. *)
Remark receiver_named_twice :
  ¬ names_once (chan Scenario.met) Scenario.twice
  ∧ redundant (chan Scenario.met) Scenario.twice
  ∧ _edges (chan Scenario.met) =
      [("B", {| ChannelEdge.id := "B"; ChannelEdge.channelIds := [] |})]
  ∧ _edges (chan (_handleHandshake Scenario.a Scenario.twice Scenario.met).1)
    = [("B", {| ChannelEdge.id := "B"; ChannelEdge.channelIds := ["A"] |})]
  ∧ (_handleHandshake Scenario.a Scenario.twice Scenario.met).2 =
      [EmitterEmit kEdgeCreate (ArgEdge Scenario.twice);
       EmitHandshake Scenario.a].
Proof.
  split_and!; try reflexivity.
  - unfold names_once. vm_compute. lia.
  - eexists. split; [reflexivity|]. intros x Hx Hne. exfalso.
    simpl in Hx. repeat (apply elem_of_cons in Hx as [->|Hx]; [done|]).
    by apply elem_of_nil in Hx.
Qed.
End RepeatedOwnId.

(** ** C4 *)

Section Relay.
Import Channel Inv.

Lemma find_edge_crossed (T : JsMap.t ChannelEdge.t) x y ex ey :
  NoDup (JsMap.keys T) → (∀ k e, (k, e) ∈ T → ChannelEdge.id e = k) →
  x ≠ y →
  JsMap.get x T = Some ex → JsMap.get y T = Some ey →
  y ∈ ChannelEdge.channelIds ex → x ∈ ChannelEdge.channelIds ey →
  let route d :=
    ChannelEdge.id <$>
      List.find
        (λ edge, bool_decide (ChannelEdge.id edge = d)
                 || includes d (ChannelEdge.channelIds edge))
        (JsMap.values T) in
  ¬ (route x = Some x ∧ route y = Some y).
Proof.
  intros Hnd Hkeys Hxy Hx Hy Hyx Hxy' route. unfold route. clear route.
  induction T as [|[k e] rest IH]; [done|].
  assert (Hk : ChannelEdge.id e = k) by (apply Hkeys; left).
  apply NoDup_cons in Hnd as [_ Hnd].
  simpl in Hx, Hy. simpl. rewrite Hk.
  destruct (decide (k = x)) as [->|Hkx].
  - injection Hx as ->.
    rewrite (bool_decide_false (x = y)) by done. simpl.
    replace (includes y (ChannelEdge.channelIds ex)) with true
      by (symmetry; by apply includes_true).
    simpl. rewrite Hk. intros [_ [=]]. done.
  - destruct (decide (k = y)) as [->|Hky].
    + injection Hy as ->.
      rewrite (bool_decide_false (y = x)) by done. simpl.
      replace (includes x (ChannelEdge.channelIds ey)) with true
        by (symmetry; by apply includes_true).
      simpl. rewrite Hk. intros [[=] _]. done.
    + rewrite !bool_decide_false by done. simpl.
      destruct (includes x (ChannelEdge.channelIds e)); simpl;
        [rewrite Hk; by intros [[=] _]|].
      destruct (includes y (ChannelEdge.channelIds e)); simpl;
        [rewrite Hk; by intros [_ [=]]|].
      apply IH; try done. intros k' e' Hin. apply Hkeys. by right.
Qed.

(** A channel that holds an edge for [x] listing [y] and an edge for [y]
    listing [x] cannot route both to [x] through [x] and to [y] through
    [y]: the edge met first answers for both. *)
Lemma crossed_edges_misroute (c : Channel.t) x y ex ey :
  edges_wf c → x ≠ y →
  JsMap.get x (_edges c) = Some ex → JsMap.get y (_edges c) = Some ey →
  y ∈ ChannelEdge.channelIds ex → x ∈ ChannelEdge.channelIds ey →
  ¬ (findEdgeId x c = Some x ∧ findEdgeId y c = Some y).
Proof.
  intros [Hnd Hkeys] Hxy Hx Hy Hyx Hxy'.
  by apply (find_edge_crossed (_edges c) x y ex ey).
Qed.
End Relay.

Section Stack.
Lemma exec_cons fuel f rest net :
  Net.exec (S fuel) (f :: rest) net =
    (done ← Net.exec fuel ((Net.step f net).1.2 ++ rest)
              (Net.step f net).1.1;
     Some (done.1, (Net.step f net).2 ++ done.2)).
Proof. done. Qed.

(** A frame whose calls never return does not return. *)
Lemma exec_diverges fuel f rest net net' frames out :
  Net.step f net = (net', frames, out) →
  Net.exec fuel (frames ++ rest) net' = None →
  Net.exec (S fuel) (f :: rest) net = None.
Proof. intros Hs He. rewrite exec_cons, Hs. simpl. by rewrite He. Qed.

Lemma drain_unfold fuel net :
  Net.drain (S fuel) net =
    match Runtime.microtasks (Net.rt net) with
    | [] => Some (net, [])
    | _ :: _ =>
        first ← Net.runMicrotask (S fuel) net;
        others ← Net.drain fuel first.1;
        Some (others.1, first.2 ++ others.2)
    end.
Proof. simpl. by destruct (Runtime.microtasks (Net.rt net)). Qed.
End Stack.

Section ThreeChannels.
Import Scenario.

Lemma called_net : Net.net <$> called = Some calledNet.
Proof. vm_compute. reflexivity. Qed.

(** B and C hand the response to each other for ever. *)
Lemma response_bounces fuel :
  let N := answering_net in
  Net.exec fuel
    [Net.Run "B" (PipeEmit b2 messageEvent (PMessage (reply (Some "B"))))]
    N = None
  ∧ Net.exec fuel [Net.Emit b2 messageEvent (PMessage (reply (Some "B")))]
      N = None
  ∧ Net.exec fuel
      [Net.Invoke c (ChannelPort.OnMessage "C" c)
         (PMessage (reply (Some "B")))] N = None
  ∧ Net.exec fuel
      [Net.Run "C" (PipeEmit c messageEvent (PMessage (reply (Some "C"))))]
      N = None
  ∧ Net.exec fuel [Net.Emit c messageEvent (PMessage (reply (Some "C")))]
      N = None
  ∧ Net.exec fuel
      [Net.Invoke b2 (ChannelPort.OnMessage "B" b2)
         (PMessage (reply (Some "C")))] N = None.
Proof.
  induction fuel as [|fuel (H1 & H2 & H3 & H4 & H5 & H6)]; [done|].
  split_and!.
  - eapply exec_diverges; [vm_compute; reflexivity | exact H2].
  - eapply exec_diverges; [vm_compute; reflexivity | exact H3].
  - eapply exec_diverges; [vm_compute; reflexivity | exact H4].
  - eapply exec_diverges; [vm_compute; reflexivity | exact H5].
  - eapply exec_diverges; [vm_compute; reflexivity | exact H6].
  - eapply exec_diverges; [vm_compute; reflexivity | exact H1].
Qed.

Lemma response_never_delivered fuel :
  Net.runMicrotask fuel calledNet = None.
Proof.
  transitivity
    (Net.exec fuel
       [Net.Run "C" (PipeEmit c messageEvent (PMessage (reply None)))]
       answering_net); [reflexivity|].
  destruct fuel as [|fuel]; [done|].
  eapply exec_diverges; [vm_compute; reflexivity|].
  destruct fuel as [|fuel]; [done|].
  eapply exec_diverges; [vm_compute; reflexivity|].
  destruct fuel as [|fuel]; [done|].
  eapply exec_diverges; [vm_compute; reflexivity|].
  apply response_bounces.
Qed.
End ThreeChannels.

Section RelayedCall.
Import Scenario.

(** C4 (code at fault): with A-B and B-C wired through ports and the
    host made on C, the handshakes settle and A routes to C through B;
    A's request is passed on by B once and C's handler runs and returns
    2.  But B holds an edge for C that lists A and an edge for A that
    lists C, and looks A up in the edge for C first: it hands C's
    response back to C, C hands it to B again, and so on without end.
    The response never reaches A; A's promise stays pending and is
    rejected when the timeout fires. *)
Theorem relayed_response_never_arrives :
  ∃ s, called = Some s ∧ Net.net s = calledNet
    ∧ Net.findEdgeId "A" "C" calledNet = Some "B"
    ∧ Net.traffic (Net.trace s) =
        [("A", PipeEmit a messageEvent (PMessage (request None)));
         ("B", PipeEmit b2 messageEvent (PMessage (request (Some "B"))));
         ("C", CallerCall "ping" (DArr [DNum 1]))]
    ∧ Runtime.microtasks (Net.rt calledNet) =
        [{| Runtime.j_owner := "C";
            Runtime.j_request := request (Some "B");
            Runtime.j_outcome := Returns (DNum 2) |}]
    ∧ Net.findEdgeId "B" "A" calledNet = Some "C"
    ∧ (∀ fuel, Net.runMicrotask fuel calledNet = None)
    ∧ (∀ fuel, Net.drain fuel calledNet = None)
    ∧ Net.promise 0 calledNet = Some Runtime.Pending
    ∧ Net.promise 0 (Net.advanceTo 10000 "A" calledNet)
      = Some (Runtime.Rejected Channel.timeoutError).
Proof.
  eexists. split; [vm_compute; reflexivity|].
  split_and!.
  1-5, 8-9: vm_compute; reflexivity.
  - apply response_never_delivered.
  - intros [|fuel]; [done|]. rewrite drain_unfold.
    change (Runtime.microtasks (Net.rt calledNet))
      with [{| Runtime.j_owner := "C";
               Runtime.j_request := request (Some "B");
               Runtime.j_outcome := Returns (DNum 2) |}].
    by rewrite response_never_delivered.
Qed.

(** Whatever the order of the handshakes, B ends with the two edges
    crossed; when A's edge comes first it is the request that B sends
    the wrong way. *)
Lemma crossed_edges_in_both_orders :
  (∃ s, settled = Some s
        ∧ (Channel._edges <$> Net.channels (Net.net s) !! "B") =
            Some [("C", {| ChannelEdge.id := "C";
                           ChannelEdge.channelIds := ["A"] |});
                  ("A", {| ChannelEdge.id := "A";
                           ChannelEdge.channelIds := ["C"] |})]
        ∧ Net.findEdgeId "B" "A" (Net.net s) = Some "C")
  ∧ (∃ s, settled_after_A = Some s
          ∧ (Channel._edges <$> Net.channels (Net.net s) !! "B") =
              Some [("A", {| ChannelEdge.id := "A";
                             ChannelEdge.channelIds := ["C"] |});
                    ("C", {| ChannelEdge.id := "C";
                             ChannelEdge.channelIds := ["A"] |})]
          ∧ Net.findEdgeId "A" "C" (Net.net s) = Some "B"
          ∧ Net.findEdgeId "B" "C" (Net.net s) = Some "A").
Proof.
  split; eexists; (split; [vm_compute; reflexivity|]); by vm_compute.
Qed.
End RelayedCall.

(** ** C6 *)

Section ThrowingHost.
Import Scenario.

Lemma failure_bounces fuel :
  let N := throwing_net in
  Net.exec fuel
    [Net.Run "B" (PipeEmit b2 messageEvent (PMessage (failure (Some "B"))))]
    N = None
  ∧ Net.exec fuel [Net.Emit b2 messageEvent (PMessage (failure (Some "B")))]
      N = None
  ∧ Net.exec fuel
      [Net.Invoke c (ChannelPort.OnMessage "C" c)
         (PMessage (failure (Some "B")))] N = None
  ∧ Net.exec fuel
      [Net.Run "C" (PipeEmit c messageEvent (PMessage (failure (Some "C"))))]
      N = None
  ∧ Net.exec fuel [Net.Emit c messageEvent (PMessage (failure (Some "C")))]
      N = None
  ∧ Net.exec fuel
      [Net.Invoke b2 (ChannelPort.OnMessage "B" b2)
         (PMessage (failure (Some "C")))] N = None.
Proof.
  induction fuel as [|fuel (H1 & H2 & H3 & H4 & H5 & H6)]; [done|].
  split_and!.
  - eapply exec_diverges; [vm_compute; reflexivity | exact H2].
  - eapply exec_diverges; [vm_compute; reflexivity | exact H3].
  - eapply exec_diverges; [vm_compute; reflexivity | exact H4].
  - eapply exec_diverges; [vm_compute; reflexivity | exact H5].
  - eapply exec_diverges; [vm_compute; reflexivity | exact H6].
  - eapply exec_diverges; [vm_compute; reflexivity | exact H1].
Qed.

Lemma failure_never_delivered fuel :
  Net.runMicrotask fuel failedNet = None.
Proof.
  transitivity
    (Net.exec fuel
       [Net.Run "C" (ConsoleError boom);
        Net.Run "C" (PipeEmit c messageEvent (PMessage (failure None)))]
       throwing_net); [reflexivity|].
  destruct fuel as [|fuel]; [done|].
  eapply exec_diverges; [vm_compute; reflexivity|].
  destruct fuel as [|fuel]; [done|].
  eapply exec_diverges; [vm_compute; reflexivity|].
  destruct fuel as [|fuel]; [done|].
  eapply exec_diverges; [vm_compute; reflexivity|].
  destruct fuel as [|fuel]; [done|].
  eapply exec_diverges; [vm_compute; reflexivity|].
  apply failure_bounces.
Qed.

(** C6 (code at fault): with A-B and B-C wired through ports and a host
    on C whose handler throws, A's request reaches C through B, the
    handler runs and throws, and C's continuation catches the failure,
    logs it and sends the answer, an [Error] with the message, under the
    call's nonce.  But B looks A up in its edge for C first and hands
    the answer back to C, C hands it to B again, and so on without end:
    the answer never reaches A.  A's promise is not rejected with the
    handler's error; it stays pending until the timeout rejects it with
    the timeout error.  The defect is the one of C4. *)
Theorem thrown_error_never_reaches_relayed_caller :
  ∃ s, calledFailing = Some s ∧ Net.net s = failedNet
    ∧ Net.traffic (Net.trace s) =
        [("A", PipeEmit a messageEvent (PMessage (request None)));
         ("B", PipeEmit b2 messageEvent (PMessage (request (Some "B"))));
         ("C", CallerCall "ping" (DArr [DNum 1]))]
    ∧ Runtime.microtasks (Net.rt failedNet) =
        [{| Runtime.j_owner := "C";
            Runtime.j_request := request (Some "B");
            Runtime.j_outcome := Throws boom |}]
    ∧ (Net.channels failedNet !! "C" ≫= λ ch,
         Some (Channel.respond
                 {| Runtime.j_owner := "C";
                    Runtime.j_request := request (Some "B");
                    Runtime.j_outcome := Throws boom |} ch))
      = Some [ConsoleError boom;
              PipeEmit c messageEvent (PMessage (failure None))]
    ∧ Net.findEdgeId "B" "A" failedNet = Some "C"
    ∧ (∀ fuel, Net.runMicrotask fuel failedNet = None)
    ∧ (∀ fuel, Net.drain fuel failedNet = None)
    ∧ Net.promise 0 failedNet = Some Runtime.Pending
    ∧ Net.promise 0 (Net.advanceTo 9999 "A" failedNet)
      = Some Runtime.Pending
    ∧ Net.promise 0 (Net.advanceTo 10000 "A" failedNet)
      = Some (Runtime.Rejected Channel.timeoutError)
    ∧ Channel.timeoutError ≠ toError boom.
Proof.
  eexists. split; [vm_compute; reflexivity|].
  split_and!.
  1-5, 8-10: vm_compute; reflexivity.
  - apply failure_never_delivered.
  - intros [|fuel]; [done|]. rewrite drain_unfold.
    change (Runtime.microtasks (Net.rt failedNet))
      with [{| Runtime.j_owner := "C";
               Runtime.j_request := request (Some "B");
               Runtime.j_outcome := Throws boom |}].
    by rewrite failure_never_delivered.
  - discriminate.
Qed.
End ThrowingHost.

(** ** Pending calls under other operations *)

Section EmitState.
Import Channel Inv.
Implicit Types (w : World) (p : nat).

Lemma off_subset name fn (c : Channel.t) r :
  r ∈ _emitter (off name fn c) → r ∈ _emitter c.
Proof.
  unfold off. simpl. rewrite !list_elem_of_In.
  intros [? _]%filter_In. done.
Qed.

Lemma dropOnce_subset name fn (c : Channel.t) r :
  r ∈ _emitter (dropOnce name fn c) → r ∈ _emitter c.
Proof.
  unfold dropOnce. simpl. rewrite !list_elem_of_In.
  intros [? _]%filter_In. done.
Qed.

Lemma invoke_subset fn arg w r :
  r ∈ _emitter (chan (invoke fn arg w).1) → r ∈ _emitter (chan w).
Proof.
  destruct fn as [f|d q]; [done|]. destruct arg as [?|edge]; [done|].
  simpl. destruct (_ || _); [|done]. apply off_subset.
Qed.

(** What a [checkEdge] listener may settle. *)
Lemma invoke_promise fn arg w p :
  (∀ d q, fn = checkEdge d q → q ≠ p) →
  Runtime.promises (rt (invoke fn arg w).1) !! p
  = Runtime.promises (rt w) !! p.
Proof.
  intros Hfn. destruct fn as [f|d q]; [done|].
  destruct arg as [?|edge]; [done|]. simpl.
  destruct (_ || _); [|done]. simpl. apply settle_other. by eapply Hfn.
Qed.

Lemma invoke_promise_settled fn arg w p :
  Runtime.promises (rt w) !! p ≠ Some Runtime.Pending →
  Runtime.promises (rt (invoke fn arg w).1) !! p
  = Runtime.promises (rt w) !! p.
Proof.
  intros Hp. destruct fn as [f|d q]; [done|].
  destruct arg as [?|edge]; [done|]. simpl.
  destruct (_ || _); [|done]. simpl. by apply settle_settled.
Qed.

(** The listeners left by [emit] were there before; a promise no listener
    holds, or one already settled, is as it was. *)
Lemma emit_state name arg w p :
  (∀ r d q, r ∈ _emitter (chan w) → r_fn r = checkEdge d q → q ≠ p)
  ∨ Runtime.promises (rt w) !! p ≠ Some Runtime.Pending →
  (∀ r, r ∈ _emitter (chan (emit name arg w).1) → r ∈ _emitter (chan w))
  ∧ Runtime.promises (rt (emit name arg w).1) !! p
    = Runtime.promises (rt w) !! p.
Proof.
  intros Hp. unfold emit.
  assert (Hl : ∀ r, r ∈ filter (λ r, r_event r = name) (_emitter (chan w)) →
                    r ∈ _emitter (chan w))
    by (by intros r [_ ?]%list_elem_of_filter).
  revert Hl. generalize (filter (λ r, r_event r = name) (_emitter (chan w))).
  intros l Hl.
  assert (Hstart :
    (∀ r, r ∈ _emitter (chan (w, [EmitterEmit name arg]).1) →
          r ∈ _emitter (chan w))
    ∧ Runtime.promises (rt (w, [EmitterEmit name arg]).1) !! p
      = Runtime.promises (rt w) !! p) by done.
  revert Hstart. generalize (w, [EmitterEmit name arg]).
  induction l as [|r l IH]; intros acc Hacc; simpl; [done|].
  apply IH; [intros; apply Hl; by right|].
  destruct Hacc as [Hsub Hprom]. simpl.
  set (w1 := if r_once r then _ else _).
  assert (Hw1 : (∀ r', r' ∈ _emitter (chan w1) → r' ∈ _emitter (chan acc.1))
                ∧ rt w1 = rt acc.1).
  { unfold w1. destruct (r_once r); simpl; split; try done.
    intros r'. apply dropOnce_subset. }
  destruct Hw1 as [Hsub1 Hrt1]. split.
  - intros r' Hr'. apply Hsub, Hsub1. by eapply invoke_subset.
  - rewrite <- Hprom, <- Hrt1. destruct Hp as [Hp|Hp].
    + apply invoke_promise. intros d q Hfn. eapply Hp; [|exact Hfn].
      apply Hl. left.
    + apply invoke_promise_settled. by rewrite Hrt1, Hprom.
Qed.

Lemma emit_rt_frame name arg w :
  Runtime.timers (rt (emit name arg w).1) = Runtime.timers (rt w)
  ∧ Runtime.nextPromise (rt (emit name arg w).1)
    = Runtime.nextPromise (rt w)
  ∧ id (chan (emit name arg w).1) = id (chan w)
  ∧ _callbacks (chan (emit name arg w).1) = _callbacks (chan w).
Proof.
  destruct (emit_frame name arg w) as ((Hid & _ & Hcb & _) & Ht & Hn & _).
  done.
Qed.
End EmitState.

Section OperationShapes.
Import Channel Inv.
Implicit Types (w : World) (p : nat).

(** The worlds a handshake can leave. *)
Lemma handleHandshake_state pipe edge w :
  (_handleHandshake pipe edge w).1 = w
  ∨ ∃ c', id c' = id (chan w) ∧ _callbacks c' = _callbacks (chan w)
          ∧ _emitter c' = _emitter (chan w)
          ∧ (_handleHandshake pipe edge w).1
            = (emit kEdgeCreate (ArgEdge edge)
                 {| chan := c'; rt := rt w |}).1.
Proof.
  unfold _handleHandshake. case_decide; [by left|].
  destruct (JsMap.get _ _) as [prevEdge|].
  - rewrite splice_first. destruct (withoutFirst _ _); [by left|].
    right. eexists. split_and!; cycle 3; [reflexivity|done..].
  - right. eexists. split_and!; cycle 3; [reflexivity|done..].
Qed.

(** The worlds a message can leave. *)
Lemma handleMessage_state pipe m w :
  (_handleMessage pipe m w).1 = w
  ∨ (_handleMessage pipe m w).1
    = (emit (Named (name m)) (ArgData (data m)) w).1
  ∨ (∃ k cb, nonce m = Some k ∧ _callbacks (chan w) !! k = Some cb
             ∧ (_handleMessage pipe m w).1 = runCallback k cb (data m) w)
  ∨ ∃ j, (_handleMessage pipe m w).1
         = {| chan := chan w; rt := Runtime.enqueue j (rt w) |}.
Proof.
  unfold _handleMessage. case_decide; [by left|].
  case_decide; [by left|].
  destruct (nonce m) as [k|] eqn:Hk; [|by right; left].
  destruct (truthy k); simpl; [|by right; left].
  destruct (_callbacks (chan w) !! k) as [cb|] eqn:Hcb.
  - right. right. left. by exists k, cb.
  - destruct (_callers (chan w) !! name m); [|by left].
    right. right. right. by eexists.
Qed.

Lemma fire_all_timers (l : list (nat * Runtime.Timer)) w e0 :
  (∀ e, e ∈ Runtime.timers (rt (foldl (λ acc e, fire e acc) w l)) →
        e ∈ Runtime.timers (rt w))
  ∧ (e0 ∈ Runtime.timers (rt w) → (∀ e, e ∈ l → e.1 ≠ e0.1) →
     e0 ∈ Runtime.timers (rt (foldl (λ acc e, fire e acc) w l))).
Proof.
  revert w. induction l as [|e l IH]; intros w; simpl; [done|].
  destruct (IH (fire e w)) as [Hsub Hkeep]. split.
  - intros x Hx. apply Hsub in Hx. unfold fire in Hx. simpl in Hx.
    rewrite settle_timers in Hx. simpl in Hx.
    by apply list_elem_of_filter in Hx as [_ ?].
  - intros H0 Hne. apply Hkeep; [|intros; apply Hne; by right].
    unfold fire. simpl. rewrite settle_timers. simpl.
    apply list_elem_of_filter. split; [|done].
    intros Heq. by apply (Hne e); [left|].
Qed.

Lemma fire_all_callbacks (l : list (nat * Runtime.Timer)) w k cb :
  _callbacks (chan (foldl (λ acc e, fire e acc) w l)) !! k = Some cb →
  _callbacks (chan w) !! k = Some cb.
Proof.
  revert w. induction l as [|e l IH]; intros w; simpl; [done|].
  intros H%IH. unfold fire in H. simpl in H.
  by apply lookup_delete_Some in H as [_ ?].
Qed.

Lemma fire_all_frame (l : list (nat * Runtime.Timer)) w :
  let w' := foldl (λ acc e, fire e acc) w l in
  id (chan w') = id (chan w) ∧ _emitter (chan w') = _emitter (chan w)
  ∧ Runtime.nextPromise (rt w') = Runtime.nextPromise (rt w)
  ∧ Runtime.nextTimer (rt w') = Runtime.nextTimer (rt w).
Proof.
  revert w. induction l as [|e l IH]; intros w; simpl; [done|].
  destruct (IH (fire e w)) as (-> & -> & -> & ->).
  unfold fire. simpl. unfold Runtime.settle.
  by destruct (Runtime.promises _ !! _) as [[]|].
Qed.

Lemma settle_next q st (r : Runtime.t) :
  Runtime.nextPromise (Runtime.settle q st r) = Runtime.nextPromise r
  ∧ Runtime.nextTimer (Runtime.settle q st r) = Runtime.nextTimer r.
Proof.
  unfold Runtime.settle. by destruct (Runtime.promises r !! q) as [[]|].
Qed.
End OperationShapes.

Section PendingCallInvariant.
Import Channel Inv.
Implicit Types (w : World) (p tid : nat) (n : string) (D : N).

(** A world that keeps the promise and the timer of the call, and adds
    only things that do not hold them. *)
Lemma pending_call_frame p tid n D w w' :
  pending_call p tid n D w →
  id (chan w') = id (chan w) →
  Runtime.promises (rt w') !! p = Runtime.promises (rt w) !! p →
  ((tid, {| Runtime.deadline := D; Runtime.t_owner := id (chan w);
            Runtime.t_nonce := n; Runtime.t_promise := p |})
     ∈ Runtime.timers (rt w')) →
  (∀ e, e ∈ Runtime.timers (rt w') →
     e ∈ Runtime.timers (rt w)
     ∨ (e.1 ≠ tid ∧ Runtime.t_promise e.2 ≠ p)) →
  (∀ k cb, _callbacks (chan w') !! k = Some cb → k ≠ n →
     _callbacks (chan w) !! k = Some cb
     ∨ (cb_promise cb ≠ p ∧ cb_timeout cb ≠ tid)) →
  (∀ r, r ∈ _emitter (chan w') →
     r ∈ _emitter (chan w) ∨ ∀ d q, r_fn r = checkEdge d q → q ≠ p) →
  Runtime.nextPromise (rt w) ≤ Runtime.nextPromise (rt w') →
  Runtime.nextTimer (rt w) ≤ Runtime.nextTimer (rt w') →
  pending_call p tid n D w'.
Proof.
  intros [Hp Ht Hts Hcb Hl [Hfp Hft]] Hid Hp' Ht' Hts' Hcb' Hl' Hnp Hnt.
  split.
  - by rewrite Hp'.
  - by rewrite Hid.
  - rewrite Hid. intros e He Hor. destruct (Hts' e He) as [Hold|[H1 H2]].
    + by apply Hts.
    + by destruct Hor.
  - intros k cb Hk Hne. destruct (Hcb' k cb Hk Hne) as [Hold|?]; [|done].
    by eapply Hcb.
  - intros r d q Hr Hfn. destruct (Hl' r Hr) as [Hold|Hnew].
    + by eapply Hl.
    + by eapply Hnew.
  - lia.
Qed.


(** [call] leaves its own call pending. *)
Lemma register_pending_call n timeout w :
  known w →
  pending_call (Runtime.nextPromise (rt w)) (Runtime.nextTimer (rt w)) n
    (Runtime.now (rt w) + Runtime.delayOf timeout) (register n timeout w).2.
Proof.
  intros (Hkt & Hkc & Hkl).
  destruct (register_spec n timeout w)
    as (_ & Hcb & Hpend & Htimers & Hid & _).
  split.
  - exact Hpend.
  - rewrite Htimers, Hid. apply elem_of_app. right. left.
  - rewrite Htimers, Hid. intros e [Hold|Hnew]%elem_of_app Hor.
    + destruct (Hkt e Hold). destruct Hor; lia.
    + by apply list_elem_of_singleton in Hnew.
  - intros k cb Hk Hne. simpl in Hk. rewrite lookup_insert_ne in Hk by done.
    destruct (Hkc k cb Hk). lia.
  - intros r d q Hr Hfn. simpl in Hr. pose proof (Hkl r d q Hr Hfn). lia.
  - simpl. lia.
Qed.

(** The deadline passes: the call is timed out. *)
Lemma advanceTo_times_out p tid n D w time :
  pending_call p tid n D w → (D ≤ time)%N →
  timed_out p n (advanceTo time w).
Proof.
  intros [Hp Ht _ _ _ [Hfp _]] Hle.
  assert (Hdue :
    (tid, {| Runtime.deadline := D; Runtime.t_owner := id (chan w);
             Runtime.t_nonce := n; Runtime.t_promise := p |}) ∈ due time w)
    by (by apply elem_of_due).
  split_and!.
  - rewrite advanceTo_promises. apply fire_all_rejects; [|done]. eauto.
  - rewrite advanceTo_callbacks. apply fire_all_deletes. eauto.
  - simpl. by destruct (fire_all_frame (due time w) w) as (_ & _ & -> & _).
Qed.

(** The clock moves, short of the deadline: the call stays pending. *)
Lemma advanceTo_keeps_pending p tid n D w time :
  pending_call p tid n D w → (time < D)%N →
  pending_call p tid n D (advanceTo time w).
Proof.
  intros Hpc Hlt. pose proof Hpc as [Hp Ht Hts _ _ _].
  destruct (fire_all_frame (due time w) w) as (Hid & Hem & Hnp & Hnt).
  assert (Hother : ∀ e, e ∈ due time w →
            e.1 ≠ tid ∧ Runtime.t_promise e.2 ≠ p).
  { intros e (Hin & Hdue & _)%elem_of_due.
    split; intros Heq; rewrite (Hts e Hin) in Hdue by auto;
      simpl in Hdue; lia. }
  eapply pending_call_frame; [exact Hpc|..]; simpl.
  - exact Hid.
  - apply fire_all_promise_other. intros e He. by apply Hother.
  - apply (fire_all_timers (due time w) w); [done|].
    intros e He. by apply Hother.
  - intros e He. left. by apply (fire_all_timers (due time w) w e) in He.
  - intros k cb Hk _. left. by apply fire_all_callbacks in Hk.
  - intros r Hr. left. by rewrite Hem in Hr.
  - by rewrite Hnp.
  - by rewrite Hnt.
Qed.
End PendingCallInvariant.

Section UnrelatedOperations.
Import Channel Inv.
Implicit Types (w : World) (p tid : nat) (n : string) (D : N) (op : Op).

(** The world is the same but for fields the call does not depend on. *)
Ltac same_world Hpc :=
  eapply pending_call_frame;
  [exact Hpc | try done; simpl; auto ..].

Lemma handshake_keeps_pending p tid n D pipe edge w :
  pending_call p tid n D w →
  pending_call p tid n D (_handleHandshake pipe edge w).1.
Proof.
  intros Hpc.
  destruct (handleHandshake_state pipe edge w)
    as [->|(c' & Hid & Hcb & Hem & ->)]; [done|].
  set (w0 := {| chan := c'; rt := rt w |}).
  destruct (emit_rt_frame kEdgeCreate (ArgEdge edge) w0)
    as (Ht & Hnp & Hid' & Hcb').
  destruct (emit_state kEdgeCreate (ArgEdge edge) w0 p) as [Hsub Hprom].
  { left. simpl. rewrite Hem. apply Hpc. }
  assert (Hnt : Runtime.nextTimer (rt (emit kEdgeCreate (ArgEdge edge) w0).1)
                = Runtime.nextTimer (rt w)).
  { clear. unfold emit.
    generalize (filter (λ r, r_event r = kEdgeCreate) (_emitter (chan w0))).
    intros l.
    assert (Hstart : Runtime.nextTimer
                       (rt (w0, [EmitterEmit kEdgeCreate (ArgEdge edge)]).1)
                     = Runtime.nextTimer (rt w)) by done.
    revert Hstart.
    generalize (w0, [EmitterEmit kEdgeCreate (ArgEdge edge)]).
    induction l as [|r l IH]; intros acc Hacc; simpl; [done|].
    apply IH. simpl. rewrite <- Hacc.
    set (w1 := if r_once r then _ else _).
    assert (rt w1 = rt acc.1) as <- by (unfold w1; by destruct (r_once r)).
    destruct (r_fn r) as [f|d q]; [done|]. simpl.
    destruct (_ || _); [|done]. simpl. apply settle_next. }
  simpl in Ht, Hnp, Hid', Hcb', Hprom.
  eapply pending_call_frame; [exact Hpc|..].
  - by rewrite Hid'.
  - by rewrite Hprom.
  - rewrite Ht. apply Hpc.
  - intros e He. left. by rewrite Ht in He.
  - intros k cb Hk _. left. by rewrite Hcb', Hcb in Hk.
  - intros r Hr. left. apply Hsub in Hr. simpl in Hr. by rewrite Hem in Hr.
  - by rewrite Hnp.
  - by rewrite Hnt.
Qed.

Lemma message_keeps_pending p tid n D pipe m w :
  pending_call p tid n D w → nonce m ≠ Some n →
  pending_call p tid n D (_handleMessage pipe m w).1.
Proof.
  intros Hpc Hn.
  destruct (handleMessage_state pipe m w)
    as [->|[->|[(k & cb & Hk & Hcb & ->)|[j ->]]]]; [done| | |].
  - destruct (emit_data_quiet (Named (name m)) (data m) w) as [_ Hrt].
    destruct (emit_rt_frame (Named (name m)) (ArgData (data m)) w)
      as (_ & _ & Hid & Hcb).
    destruct (emit_state (Named (name m)) (ArgData (data m)) w p)
      as [Hsub _]; [left; apply Hpc|].
    eapply pending_call_frame; [exact Hpc|..]; rewrite ?Hrt; try done.
    + apply Hpc.
    + by left.
    + intros k cb Hk _. left. by rewrite Hcb in Hk.
    + intros r Hr. left. by apply Hsub.
  - assert (Hkn : k ≠ n) by congruence.
    destruct (pc_callbacks _ _ _ _ _ Hpc k cb Hcb Hkn) as [Hcp Hct].
    eapply pending_call_frame; [exact Hpc|..]; simpl.
    + done.
    + by rewrite settle_other.
    + rewrite settle_timers. simpl. apply list_elem_of_filter.
      split; [by simpl; auto|]. apply Hpc.
    + intros e He. left. rewrite settle_timers in He. simpl in He.
      by apply list_elem_of_filter in He as [_ ?].
    + intros k' cb' Hk' _. left.
      by apply lookup_delete_Some in Hk' as [_ ?].
    + by left.
    + by destruct (settle_next (cb_promise cb)
                     (if instanceofError (data m)
                      then Runtime.Rejected (data m)
                      else Runtime.Fulfilled (data m))
                     (Runtime.clearTimeout (cb_timeout cb) (rt w)))
        as [-> _].
    + by destruct (settle_next (cb_promise cb)
                     (if instanceofError (data m)
                      then Runtime.Rejected (data m)
                      else Runtime.Fulfilled (data m))
                     (Runtime.clearTimeout (cb_timeout cb) (rt w)))
        as [_ ->].
  - eapply pending_call_frame; [exact Hpc|..]; simpl; try done.
    + apply Hpc.
    + by left.
    + by left.
    + by left.
Qed.

Lemma waitForEdge_keeps_pending p tid n D destination w :
  pending_call p tid n D w →
  pending_call p tid n D (waitForEdge destination w).2.
Proof.
  intros Hpc. destruct (pc_fresh _ _ _ _ _ Hpc) as [Hfp Hft].
  assert (Hnew : ∀ st,
    Runtime.promises (Runtime.newPromise st (rt w)).2 !! p
    = Runtime.promises (rt w) !! p).
  { intros st. simpl. apply lookup_insert_ne. lia. }
  unfold waitForEdge.
  destruct (findEdgeId destination (chan w)) as [edgeId|];
    [destruct (truthy edgeId)|]; simpl;
    (eapply pending_call_frame; [exact Hpc|..]; simpl; try done;
     [by apply lookup_insert_ne; lia
     | apply Hpc
     | by left
     | by left
     | ..]); try lia; try (by left).
  all: intros r [Hr|Hr]%elem_of_app; [by left|right];
    apply list_elem_of_singleton in Hr; subst r;
    intros d q [= _ <-]; lia.
Qed.

Lemma call_keeps_pending p tid n D messageData opts k w :
  pending_call p tid n D w → k ≠ n →
  pending_call p tid n D (call messageData opts k w).1.2.
Proof.
  intros Hpc Hk. destruct (pc_fresh _ _ _ _ _ Hpc) as [Hfp Hft].
  rewrite call_unfold. simpl.
  eapply pending_call_frame; [exact Hpc|..]; simpl; try done.
  - apply lookup_insert_ne. lia.
  - apply elem_of_app. left. apply Hpc.
  - intros e [He|He]%elem_of_app; [by left|right].
    apply list_elem_of_singleton in He. subst e. simpl. lia.
  - intros k' cb Hk' _. destruct (decide (k = k')) as [->|Hne].
    + rewrite lookup_insert_eq in Hk'. injection Hk' as <-. right. simpl. lia.
    + rewrite lookup_insert_ne in Hk' by done. by left.
  - by left.
  - lia.
  - lia.
Qed.

(** An operation that is not about the call leaves it pending, unless it
    moves the clock to the deadline. *)
Lemma unrelated_keeps_pending p tid n D op w :
  pending_call p tid n D w → unrelated n op → before D op →
  pending_call p tid n D (apply op w).
Proof.
  intros Hpc Hun Hbefore.
  destruct op as
    [pipe| |pipe edge|pipe message|j| |dest|md|md opts k|name f|name f
    |name f|name caller| | |time];
    cbn [apply unrelated before] in *; try done.
  - same_world Hpc. apply Hpc.
  - same_world Hpc. apply Hpc.
  - by apply handshake_keeps_pending.
  - by apply message_keeps_pending.
  - by apply waitForEdge_keeps_pending.
  - by apply call_keeps_pending.
  - same_world Hpc; [apply Hpc|].
    intros r [Hr|Hr]%elem_of_app; [by left|right].
    apply list_elem_of_singleton in Hr. by subst r.
  - same_world Hpc; [apply Hpc|]. intros r Hr. left.
    rewrite list_elem_of_In in Hr. apply filter_In in Hr as [Hr _].
    by apply list_elem_of_In.
  - same_world Hpc; [apply Hpc|].
    intros r [Hr|Hr]%elem_of_app; [by left|right].
    apply list_elem_of_singleton in Hr. by subst r.
  - same_world Hpc. apply Hpc.
  - same_world Hpc; [apply Hpc|by intros r ?%elem_of_nil].
  - by apply advanceTo_keeps_pending.
Qed.
End UnrelatedOperations.

Section TimedOut.
Import Channel Inv.
Implicit Types (w : World) (p tid : nat) (n : string) (D : N) (op : Op).


Lemma run_cons op ops w : run (op :: ops) w = run ops (apply op w).
Proof. done. Qed.




End TimedOut.

(** ** C5 *)

Section Timeout.
Import Channel Inv.




End Timeout.

Section Known.
Import Channel Inv.
Implicit Types (w : World) (op : Op).

Lemma known_frame w w' :
  known w →
  Runtime.nextPromise (rt w) ≤ Runtime.nextPromise (rt w') →
  Runtime.nextTimer (rt w) ≤ Runtime.nextTimer (rt w') →
  (∀ e, e ∈ Runtime.timers (rt w') →
     e ∈ Runtime.timers (rt w)
     ∨ (e.1 < Runtime.nextTimer (rt w')
        ∧ Runtime.t_promise e.2 < Runtime.nextPromise (rt w'))) →
  (∀ k cb, _callbacks (chan w') !! k = Some cb →
     _callbacks (chan w) !! k = Some cb
     ∨ (cb_timeout cb < Runtime.nextTimer (rt w')
        ∧ cb_promise cb < Runtime.nextPromise (rt w'))) →
  (∀ r, r ∈ _emitter (chan w') →
     r ∈ _emitter (chan w)
     ∨ ∀ d q, r_fn r = checkEdge d q → q < Runtime.nextPromise (rt w')) →
  known w'.
Proof.
  intros (Ht & Hc & Hl) Hnp Hnt Ht' Hc' Hl'. split_and!.
  - intros e He. destruct (Ht' e He) as [Hold|?]; [|done].
    destruct (Ht e Hold). lia.
  - intros k cb Hk. destruct (Hc' k cb Hk) as [Hold|?]; [|done].
    destruct (Hc k cb Hold). lia.
  - intros r d q Hr Hfn. destruct (Hl' r Hr) as [Hold|Hnew].
    + pose proof (Hl r d q Hold Hfn). lia.
    + by eapply Hnew.
Qed.

Lemma known_start name : known (start name).
Proof.
  split_and!.
  - intros e He. by apply elem_of_nil in He.
  - intros k cb Hk. simpl in Hk. by rewrite lookup_empty in Hk.
  - intros r d q Hr. by apply elem_of_nil in Hr.
Qed.

Lemma emit_nextTimer name arg w :
  Runtime.nextTimer (rt (emit name arg w).1) = Runtime.nextTimer (rt w).
Proof.
  unfold emit.
  generalize (filter (λ r, r_event r = name) (_emitter (chan w))).
  intros l.
  assert (Hstart : Runtime.nextTimer (rt (w, [EmitterEmit name arg]).1)
                   = Runtime.nextTimer (rt w)) by done.
  revert Hstart. generalize (w, [EmitterEmit name arg]).
  induction l as [|r l IH]; intros acc Hacc; simpl; [done|].
  apply IH. simpl. rewrite <- Hacc.
  set (w1 := if r_once r then _ else _).
  assert (rt w1 = rt acc.1) as <- by (unfold w1; by destruct (r_once r)).
  destruct (r_fn r) as [f|d q]; [done|]. destruct arg as [?|edge]; [done|].
  simpl. destruct (_ || _); [|done]. simpl. apply settle_next.
Qed.

Lemma emit_subset name arg w r :
  r ∈ _emitter (chan (emit name arg w).1) → r ∈ _emitter (chan w).
Proof.
  unfold emit.
  generalize (filter (λ r, r_event r = name) (_emitter (chan w))).
  intros l.
  assert (Hstart :
    ∀ r, r ∈ _emitter (chan (w, [EmitterEmit name arg]).1) →
         r ∈ _emitter (chan w)) by done.
  revert r. revert Hstart. generalize (w, [EmitterEmit name arg]).
  induction l as [|r0 l IH]; intros acc Hacc; simpl; [done|].
  apply IH. simpl. intros r Hr. apply Hacc.
  apply invoke_subset in Hr. destruct (r_once r0); [|done].
  by eapply dropOnce_subset.
Qed.

Ltac old_things :=
  simpl; first [ done | lia | by left | intros; by left ].

(** The hypothesis of the timeout theorem holds of a new channel and is
    kept by every operation. *)
Lemma known_apply op w : known w → known (apply op w).
Proof.
  intros Hk.
  destruct op as
    [pipe| |pipe edge|pipe message|j| |dest|md|md opts k|name f|name f
    |name f|name caller| | |time];
    cbn [apply]; try done.
  - destruct (handleHandshake_state pipe edge w)
      as [->|(c' & Hid & Hcb & Hem & ->)]; [done|].
    set (w0 := {| chan := c'; rt := rt w |}).
    destruct (emit_rt_frame kEdgeCreate (ArgEdge edge) w0)
      as (Ht & Hnp & _ & Hcbe).
    pose proof (emit_nextTimer kEdgeCreate (ArgEdge edge) w0) as Hnt.
    simpl in Ht, Hnp, Hnt, Hcbe.
    eapply known_frame; [exact Hk|..].
    + by rewrite Hnp.
    + by rewrite Hnt.
    + intros e He. left. by rewrite Ht in He.
    + intros k cb Hk'. left. by rewrite Hcbe, Hcb in Hk'.
    + intros r Hr. left. apply emit_subset in Hr. simpl in Hr.
      by rewrite Hem in Hr.
  - destruct (handleMessage_state pipe message w)
      as [->|[->|[(k & cb & Hk' & Hcbk & ->)|[j ->]]]]; [done| | |].
    + destruct (emit_data_quiet (Named (name message)) (data message) w)
        as [_ Hrt].
      destruct (emit_rt_frame (Named (name message))
                  (ArgData (data message)) w) as (_ & _ & _ & Hcbe).
      eapply known_frame; [exact Hk|..]; rewrite ?Hrt; try done.
      * by left.
      * intros k cb Hk'. left. by rewrite Hcbe in Hk'.
      * intros r Hr. left. by apply emit_subset in Hr.
    + pose proof (settle_next (cb_promise cb)
                    (if instanceofError (data message)
                     then Runtime.Rejected (data message)
                     else Runtime.Fulfilled (data message))
                    (Runtime.clearTimeout (cb_timeout cb) (rt w)))
        as [Hnp Hnt].
      eapply known_frame; [exact Hk|..]; simpl.
      * by rewrite Hnp.
      * by rewrite Hnt.
      * intros e He. left. rewrite settle_timers in He. simpl in He.
        by apply list_elem_of_filter in He as [_ ?].
      * intros k' cb' Hk''. left.
        by apply lookup_delete_Some in Hk'' as [_ ?].
      * by left.
    + eapply known_frame; [exact Hk|old_things..].
  - unfold waitForEdge.
    destruct (findEdgeId dest (chan w)) as [edgeId|];
      [destruct (truthy edgeId)|]; simpl;
      (eapply known_frame; [exact Hk|try old_things..]).
    all: intros r [Hr|Hr]%elem_of_app; [by left|right];
      apply list_elem_of_singleton in Hr; subst r;
      intros d q [= _ <-]; simpl; lia.
  - rewrite call_unfold. simpl.
    eapply known_frame; [exact Hk|try old_things..].
    + intros e [He|He]%elem_of_app; [by left|right].
      apply list_elem_of_singleton in He. subst e. simpl. lia.
    + intros k0 cb Hk'. simpl in Hk'.
      destruct (decide (k = k0)) as [->|Hne].
      * rewrite lookup_insert_eq in Hk'. injection Hk' as <-. right. simpl.
        lia.
      * rewrite lookup_insert_ne in Hk' by done. by left.
  - eapply known_frame; [exact Hk|try old_things..].
    intros r [Hr|Hr]%elem_of_app; [by left|right].
    apply list_elem_of_singleton in Hr. by subst r.
  - eapply known_frame; [exact Hk|try old_things..].
    intros r Hr. left. rewrite list_elem_of_In in Hr.
    apply filter_In in Hr as [Hr _]. by apply list_elem_of_In.
  - eapply known_frame; [exact Hk|try old_things..].
    intros r [Hr|Hr]%elem_of_app; [by left|right].
    apply list_elem_of_singleton in Hr. by subst r.
  - eapply known_frame; [exact Hk|try old_things..].
    intros r Hr. by apply elem_of_nil in Hr.
  - destruct (fire_all_frame (due time w) w) as (_ & Hem & Hnp & Hnt).
    eapply known_frame; [exact Hk|..]; simpl.
    + by rewrite Hnp.
    + by rewrite Hnt.
    + intros e He. left. by apply (fire_all_timers (due time w) w e) in He.
    + intros k cb Hk'. left. by apply fire_all_callbacks in Hk'.
    + intros r Hr. left. by rewrite Hem in Hr.
Qed.

Lemma known_run ops w : known w → known (run ops w).
Proof.
  revert w. induction ops as [|op ops IH]; intros w Hk; [done|].
  rewrite run_cons. by apply IH, known_apply.
Qed.
End Known.

(** ** Handshakes delivered twice, and wiring *)

Section Idempotence.
Import Channel Inv.
Implicit Types (w : World) (c : Channel.t) (edge : ChannelEdge.t).

Lemma withoutFirst_nil x arr y :
  withoutFirst x arr = [] → y ∈ arr → y = x.
Proof.
  destruct arr as [|z rest]; [by intros _ ?%elem_of_nil|]. simpl.
  case_decide as Hz; [|done]. intros -> Hy.
  apply list_elem_of_singleton in Hy. by subst.
Qed.

Lemma withoutFirst_other x arr y :
  y ∈ arr → y ≠ x → y ∈ withoutFirst x arr.
Proof.
  intros Hy Hne. induction arr as [|z rest IH]; [done|]. simpl.
  apply elem_of_cons in Hy as [->|Hy].
  - rewrite decide_False by done. left.
  - case_decide; [done|]. right. by apply IH.
Qed.

(** Once handled, a handshake is redundant. *)
Lemma handled_is_redundant pipe edge w :
  ChannelEdge.id edge ≠ id (chan w) →
  redundant (chan (_handleHandshake pipe edge w).1) edge.
Proof.
  intros Hne. destruct (handleHandshake_edges pipe edge w) as [He Hid].
  unfold redundant. rewrite He, Hid. unfold merged.
  rewrite decide_False by done.
  destruct (JsMap.get (ChannelEdge.id edge) (_edges (chan w)))
    as [prevEdge|] eqn:Hget.
  - destruct (withoutFirst _ _) as [|x l] eqn:Hnew.
    + exists prevEdge. split; [done|]. intros y Hy Hown.
      destruct (decide (y ∈ ChannelEdge.channelIds prevEdge)); [done|].
      exfalso. apply Hown. eapply withoutFirst_nil; [exact Hnew|].
      by apply list_elem_of_filter.
    + eexists. split; [apply get_set_eq|]. simpl. intros y Hy Hown.
      apply elem_of_app.
      destruct (decide (y ∈ ChannelEdge.channelIds prevEdge)); [by left|].
      right. rewrite <- Hnew. apply withoutFirst_other; [|done].
      by apply list_elem_of_filter.
  - eexists. split; [apply get_set_eq|]. simpl. intros y Hy Hown.
    by apply list_elem_of_filter.
Qed.

(** Delivered a second time, a handshake that names the receiver at most
    once changes nothing, notifies nobody and sends nothing. *)
Lemma handshake_idempotent pipe pipe' edge w :
  names_once (chan w) edge →
  let w1 := (_handleHandshake pipe edge w).1 in
  (_handleHandshake pipe' edge w1).1 = w1
  ∧ ∀ e, e ∈ (_handleHandshake pipe' edge w1).2 → ∃ l, e = Log l.
Proof.
  intros Honce w1.
  destruct (handleHandshake_edges pipe edge w) as [_ Hid].
  destruct (decide (ChannelEdge.id edge = id (chan w))) as [Heq|Hne].
  - rewrite self_handshake_ignored by (by unfold w1; rewrite Hid).
    split; [done|]. by intros e ?%elem_of_nil.
  - apply redundant_handshake_quiet.
    + by apply handled_is_redundant.
    + unfold names_once, w1. by rewrite Hid.
Qed.

(** The handshakes channels build name nobody twice. *)
Lemma getEdge_names_once c c' : names_once c (getEdge c').
Proof. apply NoDup_names_once, getEdge_NoDup. Qed.
End Idempotence.

(** ** C7 and C8 *)

Section KnownPeers.
Import Channel Inv.

(** C7: a handshake of a peer the channel knows, announcing no id that
    is not recorded for that peer, the channel's own apart, is a no-op:
    the world, and with it the edge table, is as before, no listener of
    the edge event is told and nothing goes out on any pipe; at most a
    line is logged.  The handshake names its receiver at most once, as
    every handshake a channel builds does. *)
Theorem known_handshake_is_a_no_op (w : World) pipe edge :
  names_once (chan w) edge → redundant (chan w) edge →
  let res := _handleHandshake pipe edge w in
  res.1 = w
  ∧ _edges (chan res.1) = _edges (chan w)
  ∧ (∀ e, e ∈ res.2 → ∃ l, e = Log l)
  ∧ (∀ e, e ∈ res.2 → ¬ notification e ∧ ¬ emission e)
  ∧ ∀ sender : Channel.t, names_once (chan w) (getEdge sender).
Proof.
  intros Honce Hred res.
  destruct (redundant_handshake_quiet pipe edge w Hred Honce) as [Hw Hlog].
  fold res in Hw, Hlog. split_and!.
  - exact Hw.
  - by rewrite Hw.
  - exact Hlog.
  - intros e He. apply Hlog in He as [l ->]. split; by intros [].
  - intros sender. apply getEdge_names_once.
Qed.

Lemma known_handshake_is_a_no_op_witness :
  let w :=
    (_handleHandshake Scenario.a
       {| ChannelEdge.id := "B"; ChannelEdge.channelIds := ["C"] |}
       (start "A")).1 in
  let edge :=
    {| ChannelEdge.id := "B"; ChannelEdge.channelIds := ["A"; "C"] |} in
  (_handleHandshake Scenario.a edge w).1 = w
  ∧ _edges (chan (_handleHandshake Scenario.a edge w).1)
    = [("B", {| ChannelEdge.id := "B"; ChannelEdge.channelIds := ["C"] |})]
  ∧ (_handleHandshake Scenario.a edge w).2 = [].
Proof.
  intros w edge.
  destruct (known_handshake_is_a_no_op w Scenario.a edge)
    as (H1 & H2 & _).
  - unfold names_once. vm_compute. lia.
  - exists {| ChannelEdge.id := "B"; ChannelEdge.channelIds := ["C"] |}.
    split; [reflexivity|]. intros x Hx Hne. simpl in Hx.
    apply elem_of_cons in Hx as [->|Hx]; [done|]. exact Hx.
  - split_and!; [exact H1|rewrite H2; reflexivity|reflexivity].
Defined.

(** C8: every operation of a channel keeps the invariant of the edge
    table: one edge per peer, stored under the peer's id; the edges
    there are stay, each with at least the ids it listed; and no edge
    lists the channel itself.  A new channel has it.  A handshake
    handled names its receiver at most once, as every handshake a
    channel builds does. *)
Theorem edge_table_invariant_holds (op : Op) (w : World) :
  tame (chan w) op → edges_wf (chan w) → own_id_absent (chan w) →
  let c := chan w in
  let c' := chan (apply op w) in
  NoDup (JsMap.keys (_edges c'))
  ∧ (∀ k e, (k, e) ∈ _edges c' → ChannelEdge.id e = k)
  ∧ (∀ k e, JsMap.get k (_edges c) = Some e →
       ∃ e', JsMap.get k (_edges c') = Some e'
             ∧ ChannelEdge.channelIds e ⊆ ChannelEdge.channelIds e')
  ∧ (∀ k e, (k, e) ∈ _edges c' → id c' ∉ ChannelEdge.channelIds e)
  ∧ id c' = id c
  ∧ (∀ name, edges_wf (new name) ∧ own_id_absent (new name))
  ∧ ∀ pipe (sender : Channel.t),
      tame c (HandleHandshake pipe (getEdge sender)).
Proof.
  intros Htame Hwf Hown c c'.
  destruct (edge_table_invariant op w Htame Hwf Hown)
    as ([Hnd Hkeys] & Hown' & Hgrows & Hid).
  split_and!; try done.
  - apply new_channel_invariant.
  - intros pipe sender. apply getEdge_names_once.
Qed.

Lemma edge_table_invariant_holds_witness :
  let w :=
    (_handleHandshake Scenario.a
       {| ChannelEdge.id := "B"; ChannelEdge.channelIds := ["C"] |}
       (start "A")).1 in
  let op :=
    HandleHandshake Scenario.a
      {| ChannelEdge.id := "B"; ChannelEdge.channelIds := ["A"; "D"] |} in
  _edges (chan (apply op w))
  = [("B", {| ChannelEdge.id := "B"; ChannelEdge.channelIds := ["C"; "D"] |})]
  ∧ ∀ k e, (k, e) ∈ _edges (chan (apply op w)) →
      "A" ∉ ChannelEdge.channelIds e.
Proof.
  intros w op. split; [reflexivity|].
  assert (Hstart : edges_wf (chan w) ∧ own_id_absent (chan w)).
  { destruct (edge_table_invariant
                (HandleHandshake Scenario.a
                   {| ChannelEdge.id := "B";
                      ChannelEdge.channelIds := ["C"] |}) (start "A"))
      as (H1 & H2 & _).
    - unfold tame, names_once. vm_compute. lia.
    - apply new_channel_invariant.
    - apply new_channel_invariant.
    - by split. }
  destruct Hstart as [Hwf Hown].
  destruct (edge_table_invariant_holds op w) as (_ & _ & _ & H4 & _).
  - unfold op, tame, names_once. vm_compute. lia.
  - exact Hwf.
  - exact Hown.
  - exact H4.
Defined.
End KnownPeers.

Section Wiring.
Import Scenario.

(** Attaching the pipes moves no handshake: the trace holds the
    subscriptions only and nobody has met anybody. *)
Lemma wiring_alone_discovers_nothing :
  ∃ s, wired = Some s
    ∧ Net.trace s =
        [("A", PipeListen a handshakeEvent); ("A", PipeListen a messageEvent);
         ("B", PipeListen b1 handshakeEvent);
         ("B", PipeListen b1 messageEvent);
         ("B", PipeListen b2 handshakeEvent);
         ("B", PipeListen b2 messageEvent);
         ("C", PipeListen c handshakeEvent); ("C", PipeListen c messageEvent)]
    ∧ (Channel._edges <$> Net.channels (Net.net s) !! "A") = Some []
    ∧ (Channel._edges <$> Net.channels (Net.net s) !! "B") = Some []
    ∧ (Channel._edges <$> Net.channels (Net.net s) !! "C") = Some [].
Proof. eexists. split; [vm_compute; reflexivity|]. by vm_compute. Qed.
End Wiring.

(** ** Ports *)

Section Ports.
Import ChannelPort.

Lemma createPipe_unfold name port :
  createPipe name port =
    match getPipe name port with
    | Some existingPipe => (existingPipe, port)
    | None =>
        ({| pipe_port := self port; pipe_name := name |},
         {| self := self port;
            _pipes := JsMap.set name
                        {| pipe_port := self port; pipe_name := name |}
                        (_pipes port);
            _listeners := JsMap.set name [] (_listeners port) |})
    end.
Proof. reflexivity. Qed.

(** X1 -- [ChannelPort.createPipe] is idempotent: asking again for a name
    gives the pipe made the first time and changes nothing; a pipe that
    already exists keeps the port, and so its listeners, as they are; the
    pipes and listener maps under other names are not touched. *)
Theorem createPipe_idempotent name port :
  let made := createPipe name port in
  createPipe name made.2 = made
  ∧ getPipe name made.2 = Some made.1
  ∧ (is_Some (getPipe name port) → made.2 = port)
  ∧ ∀ other, other ≠ name →
      getPipe other made.2 = getPipe other port
      ∧ JsMap.get other (_listeners made.2)
        = JsMap.get other (_listeners port).
Proof.
  intros made. subst made. rewrite (createPipe_unfold name port).
  destruct (getPipe name port) as [existing|] eqn:Hget.
  - simpl. rewrite createPipe_unfold, Hget. split_and!; try done.
  - simpl. split_and!.
    + rewrite createPipe_unfold. unfold getPipe at 1. simpl.
      by rewrite get_set_eq.
    + unfold getPipe. simpl. by rewrite get_set_eq.
    + by intros [? ?].
    + intros other Hne. unfold getPipe. simpl.
      by rewrite !get_set_ne.
Qed.

Lemma elem_of_port_emit sourceName event port name fn :
  (name, fn) ∈ _emit sourceName event port ↔
  name ≠ sourceName
  ∧ ∃ listenerMap, (name, listenerMap) ∈ _listeners port
                   ∧ JsMap.get event listenerMap = Some fn.
Proof.
  unfold _emit. rewrite list_elem_of_In, in_flat_map. split.
  - intros [[k lm] [Hin Hx]]. simpl in Hx.
    destruct (decide (k = sourceName)) as [->|Hne]; [by destruct Hx|].
    destruct (JsMap.get event lm) as [l|] eqn:Hl; [|by destruct Hx].
    destruct Hx as [Hx|[]]. injection Hx as <- <-.
    split; [done|]. exists lm. by rewrite list_elem_of_In.
  - intros [Hne [lm [Hin Hl]]]. exists (name, lm).
    split; [by apply list_elem_of_In|]. simpl.
    rewrite decide_False by done. rewrite Hl. by left.
Qed.

(** X2 -- [ChannelPort._emit] calls the listener a pipe has for the event
    on every pipe of the port but the one the emission came from, and
    nothing else: the source never hears itself, and a pipe with no
    listener for the event is passed over. *)
Theorem port_emit_reaches_the_others sourceName event port name fn :
  (name, fn) ∈ _emit sourceName event port ↔
  name ≠ sourceName
  ∧ ∃ listenerMap, (name, listenerMap) ∈ _listeners port
                   ∧ JsMap.get event listenerMap = Some fn.
Proof. apply elem_of_port_emit. Qed.

(** X3 -- [pipe.listen] keeps one listener per pipe and event: the
    function given last replaces the one before, and is the one an
    emission from any other pipe calls; the listeners of other pipes and
    of other events stay. *)
Theorem listen_keeps_the_last name event fn port :
  NoDup (JsMap.keys (_listeners port)) →
  is_Some (JsMap.get name (_listeners port)) →
  let port' := listen name event fn port in
  NoDup (JsMap.keys (_listeners port'))
  ∧ ∀ sourceName event' name' fn',
      (name', fn') ∈ _emit sourceName event' port' ↔
      if decide (name' = name ∧ event' = event)
      then name ≠ sourceName ∧ fn' = fn
      else (name', fn') ∈ _emit sourceName event' port.
Proof.
  intros Hnd [lm Hlm] port'.
  assert (Hl' : _listeners port' =
            JsMap.set name (JsMap.set event fn lm) (_listeners port)).
  { subst port'. unfold listen. by rewrite Hlm. }
  assert (Hnd' : NoDup (JsMap.keys (_listeners port'))).
  { rewrite Hl'. by apply NoDup_keys_set. }
  split; [done|]. intros src event' name' fn'.
  rewrite !elem_of_port_emit.
  assert (Hget : ∀ m, (name', m) ∈ _listeners port' ↔
            JsMap.get name' (_listeners port') = Some m).
  { intros m. split; [by apply get_of_elem|apply get_elem_of]. }
  assert (Hget0 : ∀ m, (name', m) ∈ _listeners port ↔
            JsMap.get name' (_listeners port) = Some m).
  { intros m. split; [by apply get_of_elem|apply get_elem_of]. }
  destruct (decide (name' = name)) as [->|Hname].
  - setoid_rewrite Hget. rewrite Hl', get_set_eq.
    destruct (decide (event' = event)) as [->|Hevent].
    + rewrite decide_True by done. split.
      * intros [? [m [Hs Hm]]]. injection Hs as <-.
        rewrite get_set_eq in Hm. naive_solver.
      * intros [? ->]. split; [done|]. eexists. split; [done|].
        by rewrite get_set_eq.
    + rewrite decide_False by naive_solver. rewrite elem_of_port_emit.
      setoid_rewrite Hget0.
      rewrite Hlm. split.
      * intros [? [m [Hs Hm]]]. injection Hs as <-.
        rewrite get_set_ne in Hm by naive_solver. naive_solver.
      * intros [? [m [Hs Hm]]]. injection Hs as <-.
        split; [done|]. eexists. split; [done|].
        by rewrite get_set_ne by naive_solver.
  - rewrite decide_False by naive_solver. rewrite elem_of_port_emit.
    setoid_rewrite Hget. setoid_rewrite Hget0.
    rewrite Hl', get_set_ne by done. done.
Qed.

Lemma listen_keeps_the_last_witness :
  let p := {| pipe_port := 0; pipe_name := "p" |} in
  let port := (createPipe "p" (createPipe "q" (new 0)).2).2 in
  let port' :=
    listen "p" messageEvent (OnMessage "B" p)
      (listen "p" messageEvent (OnMessage "A" p) port) in
  ("p", OnMessage "B" p) ∈ _emit "q" messageEvent port'
  ∧ ("p", OnMessage "A" p) ∉ _emit "q" messageEvent port'.
Proof.
  intros p port port'.
  destruct (listen_keeps_the_last "p" messageEvent (OnMessage "B" p)
              (listen "p" messageEvent (OnMessage "A" p) port))
    as [_ H].
  - vm_compute. apply NoDup_cons. split; [|apply NoDup_singleton].
    intros Hin. apply list_elem_of_singleton in Hin. discriminate.
  - vm_compute. eauto.
  - split.
    + apply (H "q" messageEvent "p" (OnMessage "B" p)).
      rewrite decide_True by done. split; [discriminate|reflexivity].
    + intros Hin. apply (H "q" messageEvent "p" (OnMessage "A" p)) in Hin.
      rewrite decide_True in Hin by done. destruct Hin as [_ Hin].
      discriminate.
Defined.
End Ports.

(** ** What the local emitter does on an event *)

Section Dispatch.
Import Channel Inv Law.

Lemma filter_filter_bool {A} (P Q : A → bool) l :
  List.filter P (List.filter Q l) = List.filter (λ x, Q x && P x) l.
Proof.
  induction l as [|x l IH]; simpl; [done|].
  destruct (Q x); simpl; [destruct (P x)|]; by rewrite IH.
Qed.

Lemma filter_true_bool {A} (l : list A) : List.filter (λ _, true) l = l.
Proof. induction l as [|x l IH]; simpl; by rewrite ?IH. Qed.

Lemma emit_data_fold name d (l : list Registration) (acc : World * list Effect) :
  let step := λ (acc : World * list Effect) r,
    let w1 :=
      if r_once r
      then {| chan := dropOnce name (r_fn r) (chan acc.1); rt := rt acc.1 |}
      else acc.1 in
    let res := invoke (r_fn r) (ArgData d) w1 in
    (res.1, acc.2 ++ res.2) in
  let res := foldl step acc l in
  _emitter (chan res.1) =
    List.filter (λ r', forallb (λ r, kept name r r') l)
      (_emitter (chan acc.1))
  ∧ res.2 = acc.2 ++
      flat_map (λ r, match r_fn r with
                     | UserFn f => [ListenerCall f (ArgData d)]
                     | checkEdge _ _ => []
                     end) l.
Proof.
  intros step. revert acc. induction l as [|r l IH]; intros acc; simpl.
  - by rewrite filter_true_bool, app_nil_r.
  - destruct (IH (step acc r)) as [He Hf]. rewrite He, Hf. clear IH He Hf.
    split.
    + unfold step. simpl.
      rewrite (proj1 (invoke_data (r_fn r) d _)).
      unfold kept at 2. destruct (r_once r); simpl.
      * by rewrite filter_filter_bool.
      * done.
    + unfold step at 1. simpl. rewrite <- app_assoc. f_equal. f_equal.
      by destruct (r_fn r).
Qed.

Lemma emit_data name d w :
  (emit name (ArgData d) w).2 =
    EmitterEmit name (ArgData d) :: listenerCalls name (ArgData d) (chan w)
  ∧ _emitter (chan (emit name (ArgData d) w).1) = spent name (chan w)
  ∧ same_but_emitter (chan w) (chan (emit name (ArgData d) w).1)
  ∧ rt (emit name (ArgData d) w).1 = rt w.
Proof.
  split_and!.
  - unfold emit. by rewrite (proj2 (emit_data_fold name d _ _)).
  - unfold emit. rewrite (proj1 (emit_data_fold name d _ _)). simpl.
    unfold spent. apply filter_ext_in. intros r' Hin.
    destruct (decide (r_event r' = name ∧ r_once r' = true)) as [[He Ho]|Hno].
    + rewrite bool_decide_true, Ho by done. simpl.
      apply not_true_is_false. intros Hall.
      rewrite forallb_forall in Hall.
      specialize (Hall r'). unfold kept in Hall. rewrite Ho in Hall.
      rewrite !bool_decide_true in Hall by done. simpl in Hall.
      assert (true = false → False) by done.
      apply H, eq_sym, Hall. apply list_elem_of_In, list_elem_of_filter.
      split; [done|]. by apply list_elem_of_In.
    + transitivity true.
      * apply forallb_forall. intros r _. unfold kept.
        destruct (r_once r); [|done].
        destruct (r_once r') eqn:Ho; [|by rewrite andb_false_r].
        rewrite (bool_decide_false (r_event r' = name)); [done|].
        intros He. by apply Hno.
      * destruct (r_once r') eqn:Ho; [|by rewrite andb_false_r].
        rewrite bool_decide_false; [done|]. intros He. by apply Hno.
  - apply emit_frame.
  - apply emit_data_quiet.
Qed.
End Dispatch.

(** ** Waiting for a peer *)

Section WaitForEdge.
Import Channel Inv Law.

Lemma emit_unfold name arg w :
  emit name arg w =
    foldl
      (λ (acc : World * list Effect) r,
         let w1 :=
           if r_once r
           then {| chan := dropOnce name (r_fn r) (chan acc.1);
                   rt := rt acc.1 |}
           else acc.1 in
         let res := invoke (r_fn r) arg w1 in
         (res.1, acc.2 ++ res.2))
      (w, [EmitterEmit name arg])
      (filter (λ r, r_event r = name) (_emitter (chan w))).
Proof. reflexivity. Qed.




Lemma find_set {V} (f : V → bool) k v (m : list (string * V)) :
  (∀ e, e ∈ JsMap.values m → f e = false) → f v = true →
  List.find f (JsMap.values (JsMap.set k v m)) = Some v.
Proof.
  intros Hm Hv. induction m as [|[k' v'] m IH]; simpl.
  - by rewrite Hv.
  - destruct (decide (k' = k)); simpl.
    + by rewrite Hv.
    + rewrite Hm by (left). apply IH. intros e He. apply Hm. by right.
Qed.

Lemma findEdgeId_answers dest (c : Channel.t) :
  findEdgeId dest c =
    ChannelEdge.id <$> List.find (answers dest) (JsMap.values (_edges c)).
Proof. reflexivity. Qed.

(** A handshake that is or lists a destination with no route so far
    leaves the announcing peer as its route. *)
Lemma merged_routes (c c' : Channel.t) dest edge :
  edges_wf c → findEdgeId dest c = None → dest ≠ id c →
  ChannelEdge.id edge ≠ id c → answers dest edge = true →
  _edges c' = merged c edge →
  findEdgeId dest c' = Some (ChannelEdge.id edge).
Proof.
  intros [_ Hwf] Hnone Hdest Hid Hans Hc'.
  rewrite findEdgeId_None in Hnone.
  assert (Hold : ∀ e, e ∈ JsMap.values (_edges c) → answers dest e = false).
  { intros e He. destruct (Hnone e He) as [H1 H2]. unfold answers.
    rewrite bool_decide_false by done. simpl. by apply includes_false. }
  assert (Hids : ChannelEdge.id edge ≠ dest →
            dest ∈ ChannelEdge.channelIds edge).
  { intros Hne. unfold answers in Hans.
    rewrite bool_decide_false in Hans by done. by apply includes_true. }
  rewrite findEdgeId_answers, Hc'. unfold merged.
  rewrite decide_False by done.
  destruct (JsMap.get (ChannelEdge.id edge) (_edges c)) as [prev|] eqn:Hget.
  - pose proof (get_elem_of _ _ _ Hget) as Hin.
    assert (Hprev : prev ∈ JsMap.values (_edges c)).
    { apply list_elem_of_fmap. by exists (ChannelEdge.id edge, prev). }
    destruct (Hnone prev Hprev) as [Hpid Hpids].
    rewrite (Hwf _ _ Hin) in Hpid.
    assert (Hnew : dest ∈ withoutFirst (id c)
              (filter (λ edgeId, edgeId ∉ ChannelEdge.channelIds prev)
                 (ChannelEdge.channelIds edge))).
    { apply withoutFirst_other; [|done].
      apply list_elem_of_filter. auto. }
    destruct (withoutFirst _ _) as [|x ids] eqn:Hw.
    + by apply elem_of_nil in Hnew.
    + rewrite find_set; [done|done|]. unfold answers. simpl.
      rewrite bool_decide_false by done. simpl.
      apply includes_true, elem_of_app. by right.
  - rewrite find_set; [done|done|]. unfold answers. simpl.
    destruct (decide (ChannelEdge.id edge = dest)) as [He|He].
    + by rewrite bool_decide_true.
    + rewrite bool_decide_false by done. simpl.
      apply includes_true, list_elem_of_filter. auto.
Qed.



End WaitForEdge.

(** ** Routes and their pipes *)

Section Routes.
Import Channel Inv Law.

(** The pipes recorded for peers after a handshake: a new peer gets the
    pipe its handshake came on; nothing else changes. *)
Lemma handleHandshake_edgePipes pipe edge w :
  _edgePipes (chan (_handleHandshake pipe edge w).1) =
    (if decide (id (chan w) = ChannelEdge.id edge) then _edgePipes (chan w)
     else match JsMap.get (ChannelEdge.id edge) (_edges (chan w)) with
          | Some _ => _edgePipes (chan w)
          | None => <[ChannelEdge.id edge := pipe]> (_edgePipes (chan w))
          end)
  ∧ _pipes (chan (_handleHandshake pipe edge w).1) = _pipes (chan w).
Proof.
  unfold _handleHandshake.
  destruct (decide (id (chan w) = ChannelEdge.id edge)); [done|].
  destruct (JsMap.get _ _) as [prevEdge|] eqn:Hget.
  - rewrite splice_first.
    destruct (withoutFirst _ _) as [|x l] eqn:Hnew; [done|]. simpl.
    match goal with
    | |- context [emit ?n ?a ?w0] =>
        destruct (emit_frame n a w0) as ((_ & _ & _ & _ & Hp & Hpp & _) & _)
    end.
    by rewrite Hp, Hpp.
  - simpl.
    match goal with
    | |- context [emit ?n ?a ?w0] =>
        destruct (emit_frame n a w0) as ((_ & _ & _ & _ & Hp & Hpp & _) & _)
    end.
    by rewrite Hp, Hpp.
Qed.

Lemma fire_all_edgePipes (l : list (nat * Runtime.Timer)) w :
  _edgePipes (chan (foldl (λ acc e, fire e acc) w l)) = _edgePipes (chan w).
Proof.
  revert w. induction l as [|e l IH]; intros w; simpl; [done|].
  by rewrite IH.
Qed.

Lemma handleMessage_edgePipes pipe m w :
  _edgePipes (chan (_handleMessage pipe m w).1) = _edgePipes (chan w).
Proof.
  unfold _handleMessage.
  pose proof (emit_frame (Named (name m)) (ArgData (data m)) w)
    as ((_ & _ & _ & _ & Hp & _) & _).
  repeat case_match; simpl; done.
Qed.

(** Only a handshake and [destroy] touch the pipes recorded for peers. *)
Lemma apply_edgePipes op w :
  (∀ pipe edge, op ≠ HandleHandshake pipe edge) → op ≠ Destroy →
  _edgePipes (chan (apply op w)) = _edgePipes (chan w).
Proof.
  intros Hop Hd.
  destruct op as [pipe| |pipe edge|pipe message|j| |dest|md|md opts k
                 |name f|name f|name f|name caller| | |time];
    simpl; try done.
  - by destruct (Hop pipe edge).
  - apply handleMessage_edgePipes.
  - unfold waitForEdge. repeat case_match; simpl; done.
  - apply fire_all_edgePipes.
Qed.

Lemma keys_merged (c : Channel.t) edge k :
  k ∈ JsMap.keys (merged c edge) →
  k ∈ JsMap.keys (_edges c)
  ∨ (k = ChannelEdge.id edge ∧ id c ≠ ChannelEdge.id edge
     ∧ JsMap.get (ChannelEdge.id edge) (_edges c) = None).
Proof.
  unfold merged. case_decide; [by left|].
  destruct (JsMap.get _ _) as [prev|] eqn:Hget.
  - destruct (withoutFirst _ _); [by left|].
    rewrite keys_set, Hget. by left.
  - rewrite keys_set, Hget. intros [?|Hk]%elem_of_app; [by left|].
    apply list_elem_of_singleton in Hk as ->. by right.
Qed.

Lemma keys_of_merged (c : Channel.t) edge k :
  k ∈ JsMap.keys (_edges c) → k ∈ JsMap.keys (merged c edge).
Proof.
  intros Hk. unfold merged. case_decide; [done|].
  destruct (JsMap.get _ _) as [prev|] eqn:Hget.
  - destruct (withoutFirst _ _); [done|]. by rewrite keys_set, Hget.
  - rewrite keys_set, Hget. apply elem_of_app. by left.
Qed.

Lemma get_is_Some {V} k (m : list (string * V)) :
  is_Some (JsMap.get k m) ↔ k ∈ JsMap.keys m.
Proof.
  rewrite <- not_eq_None_Some, get_None. split; [|tauto].
  intros H. by destruct (decide (k ∈ JsMap.keys m)).
Qed.

Lemma destroy_or_not (op : Op) : op = Destroy ∨ op ≠ Destroy.
Proof. destruct op; first [by left | by right]. Qed.

(** A pipe stays with an edge under every operation. *)
Lemma routed_apply op w : routed (chan w) → routed (chan (apply op w)).
Proof.
  intros Hr k.
  destruct (handshake_or_not op) as [(pipe & edge & ->)|Hother].
  - simpl. destruct (handleHandshake_edges pipe edge w) as [He _].
    destruct (handleHandshake_edgePipes pipe edge w) as [Hp _].
    rewrite He, Hp, !get_is_Some. intros Hk.
    case_decide.
    + unfold merged. rewrite decide_True by done.
      by apply get_is_Some, Hr.
    + destruct (JsMap.get _ _) as [prev|] eqn:Hget.
      * apply keys_of_merged, get_is_Some, Hr, Hk.
      * destruct (decide (ChannelEdge.id edge = k)) as [<-|Hne].
        -- unfold merged. rewrite decide_False, Hget by done.
           rewrite keys_set, Hget. apply elem_of_app. right. by left.
        -- rewrite lookup_insert_ne in Hk by done.
           apply keys_of_merged, get_is_Some, Hr, Hk.
  - destruct (apply_edges op w Hother) as [He _]. rewrite He.
    destruct (destroy_or_not op) as [->|Hd].
    + simpl. rewrite lookup_empty. by intros [? ?].
    + rewrite apply_edgePipes by done. apply Hr.
Qed.

Lemma edgePipes_apply op w k p :
  routed (chan w) → op ≠ Destroy →
  _edgePipes (chan w) !! k = Some p →
  _edgePipes (chan (apply op w)) !! k = Some p.
Proof.
  intros Hr Hd Hk.
  destruct (handshake_or_not op) as [(pipe & edge & ->)|Hother].
  - simpl. destruct (handleHandshake_edgePipes pipe edge w) as [-> _].
    case_decide; [done|].
    destruct (JsMap.get _ _) as [prev|] eqn:Hget; [done|].
    rewrite lookup_insert_ne; [done|]. intros <-.
    destruct (Hr (ChannelEdge.id edge)) as [e He]; [by eexists|].
    by rewrite Hget in He.
  - by rewrite apply_edgePipes.
Qed.

(** X5 -- The pipe recorded for a peer is the one its first handshake
    came on, and it stays: whatever the channel does afterwards, short
    of [destroy] -- handshakes of the same peer on other pipes
    included --, the peer keeps that pipe. *)
Theorem first_pipe_keeps_the_route ops w k p :
  routed (chan w) → Destroy ∉ ops →
  _edgePipes (chan w) !! k = Some p →
  _edgePipes (chan (run ops w)) !! k = Some p.
Proof.
  revert w. induction ops as [|op ops IH]; intros w Hr Hd Hk; [done|].
  rewrite run_cons. apply IH.
  - by apply routed_apply.
  - intros Hin. apply Hd. by right.
  - apply edgePipes_apply; [done| |done]. intros ->. apply Hd. by left.
Qed.

Lemma first_pipe_keeps_the_route_witness :
  let w :=
    (_handleHandshake Scenario.b1
       {| ChannelEdge.id := "A"; ChannelEdge.channelIds := [] |}
       (start "B")).1 in
  let ops :=
    [HandleHandshake Scenario.b2
       {| ChannelEdge.id := "A"; ChannelEdge.channelIds := ["C"] |};
     HandleHandshake Scenario.b2
       {| ChannelEdge.id := "C"; ChannelEdge.channelIds := ["A"] |}] in
  _edgePipes (chan (run ops w)) !! "A" = Some Scenario.b1.
Proof.
  intros w ops. apply first_pipe_keeps_the_route.
  - apply (routed_apply (HandleHandshake _ _) (start "B")).
    intros k [x Hx]. simpl in Hx. by rewrite lookup_empty in Hx.
  - intros Hin. unfold ops in Hin.
    repeat (apply elem_of_cons in Hin as [Hin|Hin]; [discriminate|]).
    by apply elem_of_nil in Hin.
  - vm_compute. reflexivity.
Defined.

Lemma piped_handshake pipe edge w :
  piped (chan w) → truthy (ChannelEdge.id edge) = true →
  piped (chan (_handleHandshake pipe edge w).1).
Proof.
  intros Hp Ht k.
  destruct (handleHandshake_edges pipe edge w) as [He _].
  destruct (handleHandshake_edgePipes pipe edge w) as [Hpp _].
  rewrite He, Hpp. intros [Hk|(-> & Hne & Hget)]%keys_merged.
  - destruct (Hp k Hk) as [Htk [p Hpk]]. split; [done|].
    case_decide; [by eexists|].
    destruct (JsMap.get _ _); [by eexists|].
    destruct (decide (ChannelEdge.id edge = k)) as [<-|Hne].
    + rewrite lookup_insert_eq. by eexists.
    + rewrite lookup_insert_ne by done. by eexists.
  - split; [done|]. rewrite decide_False, Hget by done.
    rewrite lookup_insert_eq. by eexists.
Qed.

Lemma send_unfold md (c : Channel.t) : send md c = _emitMessage (notice c md) c.
Proof. reflexivity. Qed.

(** X6 -- What a handshake teaches: once the handshake of a peer is
    handled, a message for the peer, or for any id the peer announced
    other than the channel's own, is sent out.  [findEdgeId] gives a peer
    whose edge is the destination or lists it, and [send] emits the
    message, once, on the pipe recorded for that peer; where the
    announcing peer was new and there was no route before, the peer is
    the announcing one and the pipe the one the handshake came on. *)
Theorem handshake_teaches_routes pipe edge w md :
  edges_wf (chan w) → piped (chan w) →
  ChannelEdge.id edge ≠ id (chan w) → truthy (ChannelEdge.id edge) = true →
  answers (in_destination md) edge = true →
  in_destination md ≠ id (chan w) →
  let w1 := (_handleHandshake pipe edge w).1 in
  ∃ peer its p,
    findEdgeId (in_destination md) (chan w1) = Some peer
    ∧ JsMap.get peer (_edges (chan w1)) = Some its
    ∧ (peer = in_destination md
       ∨ in_destination md ∈ ChannelEdge.channelIds its)
    ∧ _edgePipes (chan w1) !! peer = Some p
    ∧ send md (chan w1)
      = [PipeEmit p messageEvent (PMessage (notice (chan w) md))]
    ∧ (JsMap.get (ChannelEdge.id edge) (_edges (chan w)) = None →
       findEdgeId (in_destination md) (chan w) = None →
       peer = ChannelEdge.id edge ∧ p = pipe).
Proof.
  intros Hwf Hp Hid Ht Hans Hdest w1.
  destruct (handleHandshake_edges pipe edge w) as [He Hid1].
  fold w1 in He, Hid1.
  assert (Hwf1 : edges_wf (chan w1)).
  { apply (edge_table_grows (HandleHandshake pipe edge) w Hwf). }
  assert (Hp1 : piped (chan w1)) by by apply piped_handshake.
  assert (Hroute : is_Some (findEdgeId (in_destination md) (chan w1))).
  { destruct (findEdgeId (in_destination md) (chan w1)) eqn:Hf; [by eexists|].
    exfalso. rewrite findEdgeId_None in Hf.
    destruct (handled_is_redundant pipe edge w Hid) as (prev & Hget & Hall).
    fold w1 in Hget, Hall.
    assert (Hprev : prev ∈ JsMap.values (_edges (chan w1))).
    { apply list_elem_of_fmap. exists (ChannelEdge.id edge, prev).
      split; [done|]. by apply get_elem_of. }
    destruct (Hf prev Hprev) as [Hpid Hpids].
    destruct Hwf1 as [_ Hkeys].
    rewrite (Hkeys _ _ (get_elem_of _ _ _ Hget)) in Hpid.
    apply Hpids, Hall; [|by rewrite Hid1].
    unfold answers in Hans. rewrite bool_decide_false in Hans by done.
    by apply includes_true. }
  destruct Hroute as [y Hy].
  destruct (findEdgeId_Some _ _ _ Hy) as (e & Hin & Hey & Hor).
  apply list_elem_of_fmap in Hin as [[k e'] [-> Hin]]. simpl in Hey, Hor.
  destruct Hwf1 as [Hnd1 Hkeys1].
  rewrite (Hkeys1 _ _ Hin) in Hey. subst k.
  assert (Hky : y ∈ JsMap.keys (_edges (chan w1))).
  { apply list_elem_of_fmap. by exists (y, e'). }
  destruct (Hp1 y Hky) as [Hty [p Hpy]].
  exists y, e', p. split_and!.
  - exact Hy.
  - by apply get_of_elem.
  - exact Hor.
  - exact Hpy.
  - rewrite send_unfold.
    rewrite (emitMessage_routed (chan w1) _ y p); try done.
    unfold notice. by rewrite Hid1.
  - intros Hnew Hnone.
    rewrite (merged_routes (chan w) (chan w1) _ edge) in Hy by done.
    injection Hy as <-. split; [done|].
    destruct (handleHandshake_edgePipes pipe edge w) as [Hpp _].
    fold w1 in Hpp. rewrite Hpp, decide_False, Hnew in Hpy by done.
    rewrite lookup_insert_eq in Hpy. by injection Hpy.
Qed.

Lemma handshake_teaches_routes_witness :
  let edge := {| ChannelEdge.id := "B"; ChannelEdge.channelIds := ["C"] |} in
  let md := {| in_name := "hello"; in_destination := "C";
               in_data := DNum 1 |} in
  let w1 := (_handleHandshake Scenario.a edge (start "A")).1 in
  findEdgeId "C" (chan w1) = Some "B"
  ∧ send md (chan w1)
    = [PipeEmit Scenario.a messageEvent (PMessage (notice (new "A") md))].
Proof.
  intros edge md w1.
  destruct (handshake_teaches_routes Scenario.a edge (start "A") md)
    as (peer & its & p & Hfind & _ & _ & _ & Hsend & Hnew).
  - apply new_channel_invariant.
  - intros k Hk. by apply elem_of_nil in Hk.
  - discriminate.
  - reflexivity.
  - reflexivity.
  - discriminate.
  - destruct Hnew as [-> ->]; [reflexivity|reflexivity|].
    split; [exact Hfind|exact Hsend].
Defined.
End Routes.

(** ** Events *)

Section Events.
Import Channel Inv Law.

Lemma handleMessage_event pipe m w :
  destination m = id (chan w) → proxiedBy m ≠ Some (id (chan w)) →
  (∀ n, nonce m = Some n → truthy n = false) →
  _handleMessage pipe m w = emit (Named (name m)) (ArgData (data m)) w.
Proof.
  intros Hd Hp Hn. unfold _handleMessage.
  rewrite decide_False by done.
  destruct (decide (destination m ≠ id (chan w))) as [Hne|_]; [done|].
  destruct (nonce m) as [n|]; [|done]. by rewrite (Hn n).
Qed.

(** X7 -- [send] is fire and forget.  It emits at most the one message
    it builds, with the sender as source and no nonce, and nothing when
    there is no route.  At its destination the message is an event: the
    users' listeners under its name are called in registration order,
    no call handler runs, whatever is registered under the name, and
    nothing is queued, settled or sent back. *)
Theorem sent_message_is_an_event (sender receiver : World) pipe md :
  in_destination md = id (chan receiver) →
  let m := notice (chan sender) md in
  let res := _handleMessage pipe m receiver in
  (∀ e, e ∈ send md (chan sender) →
     ∃ p, e = PipeEmit p messageEvent (PMessage m))
  ∧ length (send md (chan sender)) ≤ 1
  ∧ (findEdgeId (in_destination md) (chan sender) = None →
     send md (chan sender) = [])
  ∧ res.2 = EmitterEmit (Named (in_name md)) (ArgData (in_data md))
            :: listenerCalls (Named (in_name md)) (ArgData (in_data md))
                 (chan receiver)
  ∧ rt res.1 = rt receiver
  ∧ same_but_emitter (chan receiver) (chan res.1).
Proof.
  intros Hd m res. split_and!.
  - intros e He. by apply emitMessage_payload in He.
  - rewrite send_unfold. unfold _emitMessage.
    repeat case_match; simpl; lia.
  - intros Hnone. by apply emitMessage_unroutable.
  - unfold res. rewrite handleMessage_event by done.
    apply emit_data.
  - unfold res. rewrite handleMessage_event by done.
    apply emit_data.
  - unfold res. rewrite handleMessage_event by done.
    apply emit_data.
Qed.

Lemma sent_message_is_an_event_witness :
  let receiver :=
    only (onCall "hello" (RemoteHost.wrap Scenario.engine Scenario.ping))
      (only (on (Named "hello") (UserFn 7)) (start "B")) in
  let md := {| in_name := "hello"; in_destination := "B";
               in_data := DNum 1 |} in
  (_handleMessage Scenario.b1 (notice (new "A") md) receiver).2
  = [EmitterEmit (Named "hello") (ArgData (DNum 1));
     ListenerCall 7 (ArgData (DNum 1))].
Proof.
  intros receiver md.
  exact (proj1 (proj2 (proj2 (proj2
    (sent_message_is_an_event (start "A") receiver Scenario.b1 md
       eq_refl))))).
Defined.

Lemma elem_of_listenerCalls name arg (c : Channel.t) f arg' :
  ListenerCall f arg' ∈ listenerCalls name arg c ↔
  arg' = arg
  ∧ ∃ r, r ∈ _emitter c ∧ r_event r = name ∧ r_fn r = UserFn f.
Proof.
  unfold listenerCalls. rewrite list_elem_of_In, in_flat_map. split.
  - intros (r & Hr & Hin).
    apply list_elem_of_In, list_elem_of_filter in Hr as [He Hr].
    destruct (r_fn r) as [g|] eqn:Hfn; [|by destruct Hin].
    destruct Hin as [Hin|[]]. injection Hin as -> ->.
    split; [done|]. by exists r.
  - intros (-> & r & Hr & He & Hfn). exists r. split.
    + apply list_elem_of_In, list_elem_of_filter. done.
    + rewrite Hfn. by left.
Qed.

(** X8 -- Listeners of events.  An event message calls every function
    registered with [on] or [once] under its name, and no other; a
    function registered with [once] is then gone, so that the next event
    of that name calls only the functions registered with [on]. *)
Theorem once_listener_hears_one_event w pipe pipe' m m' :
  destination m = id (chan w) → proxiedBy m ≠ Some (id (chan w)) →
  nonce m = None →
  destination m' = id (chan w) → proxiedBy m' ≠ Some (id (chan w)) →
  nonce m' = None → name m' = name m →
  let first := _handleMessage pipe m w in
  let second := _handleMessage pipe' m' first.1 in
  (∀ f arg, ListenerCall f arg ∈ first.2 ↔
     arg = ArgData (data m)
     ∧ ∃ r, r ∈ _emitter (chan w) ∧ r_event r = Named (name m)
            ∧ r_fn r = UserFn f)
  ∧ (∀ f arg, ListenerCall f arg ∈ second.2 ↔
       arg = ArgData (data m')
       ∧ ∃ r, r ∈ _emitter (chan w) ∧ r_event r = Named (name m)
              ∧ r_fn r = UserFn f ∧ r_once r = false).
Proof.
  intros Hd Hp Hn Hd' Hp' Hn' Hname first second.
  assert (H1 : first = emit (Named (name m)) (ArgData (data m)) w).
  { apply handleMessage_event; try done. intros n. by rewrite Hn. }
  destruct (emit_data (Named (name m)) (data m) w)
    as (Heff & Hem & (Hid & _) & _).
  rewrite <- H1 in Heff, Hem, Hid.
  assert (H2 : second =
            emit (Named (name m')) (ArgData (data m')) first.1).
  { apply handleMessage_event; try (by rewrite Hid).
    intros n. by rewrite Hn'. }
  split.
  - intros f arg. rewrite Heff, elem_of_cons, elem_of_listenerCalls.
    split; [intros [?|?]; [done|done]|by right].
  - intros f arg. rewrite H2.
    rewrite (proj1 (emit_data _ _ _)), elem_of_cons, elem_of_listenerCalls.
    rewrite Hem, Hname. unfold spent. split.
    + intros [?|(-> & r & Hr & He & Hf)]; [done|]. split; [done|].
      apply list_elem_of_In, filter_In in Hr as [Hr Hk].
      exists r. split_and!; [by apply list_elem_of_In|done..|].
      rewrite bool_decide_true in Hk by done.
      by destruct (r_once r).
    + intros (-> & r & Hr & He & Hf & Ho). right. split; [done|].
      exists r. split_and!; try done.
      apply list_elem_of_In, filter_In. split; [by apply list_elem_of_In|].
      by rewrite Ho, andb_false_r.
Qed.

Lemma once_listener_hears_one_event_witness :
  let w := only (once (Named "tick") (UserFn 2))
             (only (on (Named "tick") (UserFn 1)) (start "B")) in
  let m := {| name := "tick"; destination := "B"; data := DNum 1;
              source := "A"; proxiedBy := None; nonce := None |} in
  let first := _handleMessage Scenario.b1 m w in
  let second := _handleMessage Scenario.b1 m first.1 in
  (ListenerCall 2 (ArgData (DNum 1)) ∈ first.2 ↔
     ArgData (DNum 1) = ArgData (DNum 1)
     ∧ ∃ r, r ∈ _emitter (chan w) ∧ r_event r = Named "tick"
            ∧ r_fn r = UserFn 2)
  ∧ (ListenerCall 2 (ArgData (DNum 1)) ∈ second.2 ↔
       ArgData (DNum 1) = ArgData (DNum 1)
       ∧ ∃ r, r ∈ _emitter (chan w) ∧ r_event r = Named "tick"
              ∧ r_fn r = UserFn 2 ∧ r_once r = false).
Proof.
  intros w m first second.
  destruct (once_listener_hears_one_event w Scenario.b1 Scenario.b1 m m)
    as [H1 H2]; try reflexivity; try discriminate.
  split; [apply H1|apply H2].
Defined.
End Events.

(** ** Calls that can still be answered *)

Section Answerable.
Import Channel Inv Law.

Lemma apply_id op w : id (chan (apply op w)) = id (chan w).
Proof.
  destruct (handshake_or_not op) as [(pipe & edge & ->)|Hother].
  - apply handleHandshake_edges.
  - by apply apply_edges.
Qed.













End Answerable.

(** ** After [destroy] *)

Section Destroyed.
Import Channel Inv Law.

Lemma findEdgeId_destroy dest (c : Channel.t) :
  findEdgeId dest (destroy c) = findEdgeId dest c.
Proof. reflexivity. Qed.

Lemma emitMessage_destroyed m (c : Channel.t) : _emitMessage m (destroy c) = [].
Proof.
  unfold _emitMessage. destruct (findEdgeId _ _); [|done].
  by destruct (truthy _).
Qed.

(** X10 -- [destroy] abandons the calls that are pending, it does not
    settle them: the callback is gone, so the response, when it comes,
    is dropped without a trace; the timer is still armed, so the promise
    is rejected with the timeout error at the deadline.  Right after
    [destroy] the channel emits nothing: [send], [call], [handshakeAll]
    and the answer of a handler find no pipe. *)
Theorem destroy_abandons_pending_calls p tid n D w pipe m :
  pending_call p tid n D w →
  nonce m = Some n → truthy n = true → destination m = id (chan w) →
  let w' := only destroy w in
  _handleMessage pipe m w' = (w', [])
  ∧ Runtime.promises (rt w') !! p = Some Runtime.Pending
  ∧ (∀ time, (D ≤ time)%N →
       Runtime.promises (rt (advanceTo time w')) !! p
         = Some (Runtime.Rejected timeoutError))
  ∧ handshakeAll (chan w') = []
  ∧ (∀ md, send md (chan w') = [])
  ∧ (∀ md opts k, (call md opts k w').2 = [])
  ∧ ∀ j e, e ∈ respond j (chan w') → ¬ emission e.
Proof.
  intros Hpc Hn Ht Hd w'.
  assert (Hpc' : pending_call p tid n D w').
  { by apply (unrelated_keeps_pending p tid n D Destroy w). }
  split_and!.
  - unfold _handleMessage. case_decide; [done|].
    destruct (decide (destination m ≠ id (chan w'))) as [Hne|_];
      [by destruct Hne|].
    rewrite Hn, Ht. simpl. by rewrite !lookup_empty.
  - apply Hpc'.
  - intros time Htime. by destruct (advanceTo_times_out p tid n D w' time).
  - done.
  - intros md. apply emitMessage_destroyed.
  - intros md opts k. rewrite call_unfold. cbn [fst snd].
    rewrite (emitMessage_same_routes _ (destroy (chan w))) by done.
    apply emitMessage_destroyed.
  - intros j e. unfold respond.
    change (chan w') with (destroy (chan w)).
    destruct (Runtime.j_outcome j).
    + by rewrite emitMessage_destroyed; intros ?%elem_of_nil.
    + rewrite emitMessage_destroyed.
      intros ->%list_elem_of_singleton. by intros [].
Qed.

Lemma destroy_abandons_pending_calls_witness :
  let w := (register "n1" 10000 (start "A")).2 in
  let w' := only destroy w in
  _handleMessage Scenario.a (Scenario.reply None) w' = (w', [])
  ∧ Runtime.promises (rt w') !! 0 = Some Runtime.Pending
  ∧ Runtime.promises (rt (advanceTo 10000 w')) !! 0
    = Some (Runtime.Rejected timeoutError).
Proof.
  intros w w'.
  destruct (destroy_abandons_pending_calls 0 0 "n1" 10000 w Scenario.a
              (Scenario.reply None)) as (H1 & H2 & H3 & _).
  - apply (register_pending_call "n1" 10000 (start "A")), known_start.
  - reflexivity.
  - reflexivity.
  - reflexivity.
  - split_and!; [exact H1|exact H2|]. apply H3. reflexivity.
Defined.
End Destroyed.

(** ** New peers, remote hosts and remote calls *)

Section Announce.
Import Channel Inv Law.

Lemma emit_fold_effects name arg (l : list Registration)
  (acc : World * list Effect) :
  (foldl
     (λ (acc : World * list Effect) r,
        let w1 :=
          if r_once r
          then {| chan := dropOnce name (r_fn r) (chan acc.1);
                  rt := rt acc.1 |}
          else acc.1 in
        let res := invoke (r_fn r) arg w1 in
        (res.1, acc.2 ++ res.2)) acc l).2
  = acc.2 ++
    flat_map (λ r, match r_fn r with
                   | UserFn f => [ListenerCall f arg]
                   | checkEdge _ _ => []
                   end) l.
Proof.
  revert acc. induction l as [|r l IH]; intros acc; simpl.
  - by rewrite app_nil_r.
  - rewrite IH. simpl. rewrite <- app_assoc. f_equal. f_equal.
    destruct (r_fn r) as [f|d q]; [done|].
    destruct arg as [?|edge]; [done|]. simpl. by destruct (_ || _).
Qed.

(** What [emit] does that can be seen: the users' listeners under the
    name are called, in registration order. *)
Lemma emit_effects name arg w :
  (emit name arg w).2 = EmitterEmit name arg :: listenerCalls name arg (chan w).
Proof. rewrite emit_unfold. by rewrite emit_fold_effects. Qed.

Lemma set_absent {V} k (v : V) (m : list (string * V)) :
  JsMap.get k m = None → JsMap.set k v m = m ++ [(k, v)].
Proof.
  induction m as [|[k' v'] m IH]; simpl; [done|].
  destruct (decide (k' = k)); [done|]. intros H. by rewrite IH.
Qed.

Lemma handleHandshake_new_effects pipe edge w :
  ChannelEdge.id edge ≠ id (chan w) →
  JsMap.get (ChannelEdge.id edge) (_edges (chan w)) = None →
  (_handleHandshake pipe edge w).2 =
    log (Handshaking (ChannelEdge.id edge) (id (chan w))
           (ChannelEdge.channelIds edge)) (chan w)
    ++ (EmitterEmit kEdgeCreate (ArgEdge edge)
        :: listenerCalls kEdgeCreate (ArgEdge edge) (chan w))
    ++ map EmitHandshake (_pipes (chan w)).
Proof.
  intros Hid Hget.
  assert (Hne : id (chan w) ≠ ChannelEdge.id edge) by done.
  unfold _handleHandshake. rewrite decide_False, Hget by done.
  cbn [fst snd]. rewrite emit_effects. cbn [chan].
  match goal with
  | |- context [emit ?n ?a ?w0] =>
      destruct (emit_frame n a w0) as ((_ & _ & _ & _ & _ & Hpp & _) & _)
  end.
  unfold handshakeAll. by rewrite Hpp.
Qed.

(** X11 -- The handshake of a peer not met before.  The peer is recorded
    with the ids it announced, the channel's own id left out however
    often it is listed; the pipe the handshake came on becomes the
    peer's pipe; the other peers are as they were; the listeners of the
    edge event are told, and then a handshake goes out on every pipe of
    the channel, in the order the pipes were added, the pipe the
    handshake came on included. *)
Theorem new_peer_is_recorded_and_announced pipe edge w :
  ChannelEdge.id edge ≠ id (chan w) →
  JsMap.get (ChannelEdge.id edge) (_edges (chan w)) = None →
  let res := _handleHandshake pipe edge w in
  let stored :=
    {| ChannelEdge.id := ChannelEdge.id edge;
       ChannelEdge.channelIds :=
         filter (λ edgeId, edgeId ≠ id (chan w))
           (ChannelEdge.channelIds edge) |} in
  _edges (chan res.1)
  = (_edges (chan w) ++ [(ChannelEdge.id edge, stored)])
  ∧ (id (chan w) ∉ ChannelEdge.channelIds stored)
  ∧ (∀ x, x ∈ ChannelEdge.channelIds edge → x ≠ id (chan w) →
       x ∈ ChannelEdge.channelIds stored)
  ∧ _edgePipes (chan res.1)
    = <[ChannelEdge.id edge := pipe]> (_edgePipes (chan w))
  ∧ res.2 =
      log (Handshaking (ChannelEdge.id edge) (id (chan w))
             (ChannelEdge.channelIds edge)) (chan w)
      ++ (EmitterEmit kEdgeCreate (ArgEdge edge)
          :: listenerCalls kEdgeCreate (ArgEdge edge) (chan w))
      ++ map EmitHandshake (_pipes (chan w)).
Proof.
  intros Hid Hget res stored.
  assert (Hne : id (chan w) ≠ ChannelEdge.id edge) by done.
  split_and!.
  - unfold res. rewrite (proj1 (handleHandshake_edges pipe edge w)).
    unfold merged. rewrite decide_False, Hget by done.
    by apply set_absent.
  - unfold stored. simpl. intros [Hx _]%list_elem_of_filter. done.
  - intros x Hx Hxne. unfold stored. simpl. by apply list_elem_of_filter.
  - unfold res. rewrite (proj1 (handleHandshake_edgePipes pipe edge w)).
    by rewrite decide_False, Hget.
  - by apply handleHandshake_new_effects.
Qed.

Lemma new_peer_is_recorded_and_announced_witness :
  let w := only (λ c, (addPipe Scenario.b2 (addPipe Scenario.b1 c).1).1)
             (start "B") in
  let edge :=
    {| ChannelEdge.id := "A"; ChannelEdge.channelIds := ["B"; "C"; "B"] |} in
  let res := _handleHandshake Scenario.b1 edge w in
  _edges (chan res.1)
  = [("A", {| ChannelEdge.id := "A"; ChannelEdge.channelIds := ["C"] |})]
  ∧ res.2 = [EmitterEmit kEdgeCreate (ArgEdge edge);
             EmitHandshake Scenario.b1; EmitHandshake Scenario.b2].
Proof.
  intros w edge res.
  destruct (new_peer_is_recorded_and_announced Scenario.b1 edge w)
    as (H1 & _ & _ & _ & H5); [discriminate|reflexivity|].
  split; [exact H1|exact H5].
Defined.
End Announce.

Section Rpc.
Import Channel Inv Law.

Lemma remoteHost_callers engine (spec : list (string * (list Data → Outcome)))
  (c : Channel.t) :
  let host := (RemoteHost.new engine spec c).1 in
  (NoDup spec.*1 →
   ∀ name fn, (name, fn) ∈ spec →
     _callers host !! name = Some (RemoteHost.wrap engine fn))
  ∧ (∀ name, name ∉ spec.*1 → _callers host !! name = _callers c !! name)
  ∧ id host = id c ∧ _edges host = _edges c
  ∧ _edgePipes host = _edgePipes c ∧ _pipes host = _pipes c
  ∧ _callbacks host = _callbacks c ∧ _emitter host = _emitter c.
Proof.
  unfold RemoteHost.new. cbn [fst]. revert c.
  induction spec as [|[k f] spec IH]; intros c.
  { split_and!; try done. intros _ name fn Hin. by apply elem_of_nil in Hin. }
  simpl. destruct (IH (onCall k (RemoteHost.wrap engine f) c))
    as (Hin & Hout & Hrest).
  split_and!; try apply Hrest.
  - intros [Hk Hnd]%NoDup_cons name fn [Heq|Hin']%elem_of_cons.
    + injection Heq as -> ->. rewrite Hout by done. simpl.
      apply lookup_insert_eq.
    + by apply Hin.
  - intros name [Hne Hnot]%not_elem_of_cons. rewrite Hout by done.
    simpl. by apply lookup_insert_ne.
Qed.

(** X12 -- [new RemoteHost(channel, spec)] registers every function of
    the spec as the handler of the calls under its name, leaves the
    handlers under other names alone, and then announces the channel on
    each of its pipes.  A handler so registered passes the items of the
    array it receives to the function as its arguments; on data that
    cannot be spread it throws, and the function is not run. *)
Theorem remoteHost_serves_its_spec engine
  (spec : list (string * (list Data → Outcome))) (c : Channel.t) :
  NoDup spec.*1 →
  let host := (RemoteHost.new engine spec c).1 in
  (∀ name fn, (name, fn) ∈ spec →
     ∃ caller, _callers host !! name = Some caller
               ∧ (∀ args, caller (DArr args) = fn args)
               ∧ ∀ d, RemoteHost.spread d = None → ∃ e, caller d = Throws e)
  ∧ (∀ name, name ∉ spec.*1 → _callers host !! name = _callers c !! name)
  ∧ (RemoteHost.new engine spec c).2 = map EmitHandshake (_pipes c)
  ∧ getEdge host = getEdge c.
Proof.
  intros Hnd host. subst host.
  destruct (remoteHost_callers engine spec c) as (Hin & Hout & Hid & He & _ & Hp & _).
  split_and!.
  - intros name fn Hspec. exists (RemoteHost.wrap engine fn).
    split_and!; [by apply Hin|done|].
    intros d Hd. unfold RemoteHost.wrap. rewrite Hd. by eexists.
  - done.
  - change ((RemoteHost.new engine spec c).2)
      with (handshakeAll (RemoteHost.new engine spec c).1).
    unfold handshakeAll. by rewrite Hp.
  - unfold getEdge. by rewrite Hid, He.
Qed.

Lemma remoteHost_serves_its_spec_witness :
  let c := (addPipe Scenario.h (new "H")).1 in
  let spec := [("ping", Scenario.ping); ("fail", Scenario.failing)] in
  (∃ caller, _callers (RemoteHost.new Scenario.engine spec c).1 !! "ping" = Some caller
             ∧ (∀ args, caller (DArr args) = Scenario.ping args)
             ∧ ∀ d, RemoteHost.spread d = None → ∃ e, caller d = Throws e)
  ∧ (RemoteHost.new Scenario.engine spec c).2 = [EmitHandshake Scenario.h].
Proof.
  intros c spec.
  destruct (remoteHost_serves_its_spec Scenario.engine spec c) as (H1 & _ & H3 & _).
  - simpl. apply NoDup_cons. split; [|apply NoDup_singleton].
    intros Hin. apply list_elem_of_singleton in Hin. discriminate.
  - split; [|exact H3]. apply H1. left.
Defined.


End Rpc.

(** ** Workers *)

Section Workers.
Import Channel Inv Law.

Lemma client_init a h pipeA r :
  WorkerClient.init h pipeA (WorkerClient.new a r)
  = (Runtime.nextPromise r,
     {| chan := on kEdgeCreate (checkEdge h (Runtime.nextPromise r))
                  (with_pipes [pipeA] (new a));
        rt := (Runtime.newPromise Runtime.Pending r).2 |},
     [PipeListen pipeA handshakeEvent; PipeListen pipeA messageEvent]).
Proof. reflexivity. Qed.

Lemma client_meets_host a h pipeA r :
  a ≠ h →
  let p := Runtime.nextPromise r in
  let w := (WorkerClient.init h pipeA (WorkerClient.new a r)).1.2 in
  let hello := {| ChannelEdge.id := h; ChannelEdge.channelIds := [] |} in
  _handleHandshake pipeA hello w
  = ({| chan :=
          with_edgePipes (<[h := pipeA]> ∅)
            (with_edges [(h, hello)] (with_pipes [pipeA] (new a)));
        rt := Runtime.settle p (Runtime.Fulfilled (DStr h))
                (Runtime.newPromise Runtime.Pending r).2 |},
     [EmitterEmit kEdgeCreate (ArgEdge hello); EmitHandshake pipeA]).
Proof.
  intros Hne p w hello. subst w. rewrite client_init. cbn [fst snd].
  unfold _handleHandshake. simpl.
  rewrite decide_False by done. unfold emit. simpl.
  rewrite (bool_decide_true (h = h)) by done. simpl.
  unfold off. simpl. rewrite bool_decide_true by done. simpl.
  reflexivity.
Qed.

Lemma remoteHost_logger engine (spec : list (string * (list Data → Outcome)))
  (c : Channel.t) :
  _logger (RemoteHost.new engine spec c).1 = _logger c.
Proof.
  unfold RemoteHost.new. cbn [fst]. revert c.
  induction spec as [|[k f] spec IH]; intros c; [done|].
  simpl. by rewrite IH.
Qed.

Lemma host_built engine h (spec : list (string * (list Data → Outcome))) pipeH :
  let host := Worker.createWorkerHost engine h spec pipeH in
  host.2 = [PipeListen pipeH handshakeEvent; PipeListen pipeH messageEvent;
            EmitHandshake pipeH]
  ∧ id host.1 = h ∧ _edges host.1 = [] ∧ _edgePipes host.1 = ∅
  ∧ _pipes host.1 = [pipeH] ∧ _emitter host.1 = []
  ∧ _logger host.1 = false.
Proof.
  intros host. subst host. unfold Worker.createWorkerHost. cbn [fst snd].
  destruct (remoteHost_callers engine spec (addPipe pipeH (new h)).1)
    as (_ & _ & Hid & He & Hep & Hp & _ & Hem).
  pose proof (remoteHost_logger engine spec (addPipe pipeH (new h)).1) as Hl.
  split_and!; try done.
  change ((RemoteHost.new engine spec (addPipe pipeH (new h)).1).2)
    with (handshakeAll (RemoteHost.new engine spec (addPipe pipeH (new h)).1).1).
  unfold handshakeAll. by rewrite Hp.
Qed.

Lemma firstOccurrences_one x : firstOccurrences [x] = [x].
Proof.
  unfold firstOccurrences. simpl.
  rewrite filter_cons_True; [done|]. simpl. by rewrite decide_True.
Qed.

(** The states of the two sides once each has handled the other's first
    handshake. *)
Lemma worker_states engine a h
  (spec : list (string * (list Data → Outcome))) pipeA pipeH
  (r r' : Runtime.t) :
  a ≠ h →
  let host := Worker.createWorkerHost engine h spec pipeH in
  let client := WorkerClient.init h pipeA (WorkerClient.new a r) in
  let hello := getEdge host.1 in
  let met := _handleHandshake pipeA hello client.1.2 in
  let reply := getEdge (chan met.1) in
  let greeted :=
    _handleHandshake pipeH reply {| chan := host.1; rt := r' |} in
  hello = {| ChannelEdge.id := h; ChannelEdge.channelIds := [] |}
  ∧ met =
    ({| chan :=
          with_edgePipes (<[h := pipeA]> ∅)
            (with_edges
               [(h, {| ChannelEdge.id := h; ChannelEdge.channelIds := [] |})]
               (with_pipes [pipeA] (new a)));
        rt := Runtime.settle (Runtime.nextPromise r)
                (Runtime.Fulfilled (DStr h))
                (Runtime.newPromise Runtime.Pending r).2 |},
     [EmitterEmit kEdgeCreate (ArgEdge hello); EmitHandshake pipeA])
  ∧ reply = {| ChannelEdge.id := a; ChannelEdge.channelIds := [h] |}
  ∧ greeted.2 = [EmitterEmit kEdgeCreate (ArgEdge reply);
                 EmitHandshake pipeH]
  ∧ _edges (chan greeted.1)
    = [(a, {| ChannelEdge.id := a; ChannelEdge.channelIds := [] |})]
  ∧ _edgePipes (chan greeted.1) = <[a := pipeH]> ∅
  ∧ id (chan greeted.1) = h.
Proof.
  intros Hne host client hello met reply greeted.
  destruct (host_built engine h spec pipeH)
    as (Heff & Hid & He & Hep & Hp & Hem & Hlog).
  fold host in Heff, Hid, He, Hep, Hp, Hem, Hlog.
  assert (Hhello : hello
            = {| ChannelEdge.id := h; ChannelEdge.channelIds := [] |}).
  { unfold hello, getEdge. by rewrite Hid, He. }
  assert (Hmet : met =
    ({| chan :=
          with_edgePipes (<[h := pipeA]> ∅)
            (with_edges
               [(h, {| ChannelEdge.id := h; ChannelEdge.channelIds := [] |})]
               (with_pipes [pipeA] (new a)));
        rt := Runtime.settle (Runtime.nextPromise r)
                (Runtime.Fulfilled (DStr h))
                (Runtime.newPromise Runtime.Pending r).2 |},
     [EmitterEmit kEdgeCreate (ArgEdge hello); EmitHandshake pipeA])).
  { unfold met. rewrite Hhello. by apply client_meets_host. }
  assert (Hreply : reply
            = {| ChannelEdge.id := a; ChannelEdge.channelIds := [h] |}).
  { unfold reply. rewrite Hmet. unfold getEdge. simpl.
    by rewrite firstOccurrences_one. }
  assert (Hah : ChannelEdge.id reply ≠ id host.1).
  { rewrite Hreply, Hid. done. }
  assert (Hnew : JsMap.get (ChannelEdge.id reply) (_edges host.1) = None)
    by by rewrite He.
  split_and!; try done.
  - unfold greeted. rewrite handleHandshake_new_effects by done.
    cbn [chan]. unfold log, listenerCalls. rewrite Hlog, Hem, Hp. done.
  - unfold greeted.
    rewrite (proj1 (handleHandshake_edges pipeH reply _)). unfold merged.
    cbn [chan]. rewrite decide_False by done. rewrite Hnew, He, Hid, Hreply.
    simpl. rewrite filter_cons_False by (by intros H; apply H).
    done.
  - unfold greeted.
    rewrite (proj1 (handleHandshake_edgePipes pipeH reply _)).
    cbn [chan]. rewrite decide_False by done.
    by rewrite Hnew, Hep, Hreply.
  - unfold greeted.
    by rewrite (proj2 (handleHandshake_edges pipeH reply _)).
Qed.

(** X14 -- A worker and its client find each other in three handshakes.
    [createWorkerHost] subscribes to its pipe and announces itself with
    no peers; [WorkerClient.init] subscribes and waits; the worker's
    announcement resolves the wait with the host's name and makes the
    client announce itself, listing the host; the host records the client
    and announces again, listing the client; that third handshake tells
    the client nothing new and is dropped in silence.  After that each
    side has the other as a peer, on its one pipe. *)
Theorem worker_handshake_settles engine a h
  (spec : list (string * (list Data → Outcome))) pipeA pipeH
  (r r' : Runtime.t) :
  a ≠ h →
  let host := Worker.createWorkerHost engine h spec pipeH in
  let client := WorkerClient.init h pipeA (WorkerClient.new a r) in
  let p := client.1.1 in
  let hello := getEdge host.1 in
  let met := _handleHandshake pipeA hello client.1.2 in
  let reply := getEdge (chan met.1) in
  let greeted :=
    _handleHandshake pipeH reply {| chan := host.1; rt := r' |} in
  let echo := getEdge (chan greeted.1) in
  host.2 = [PipeListen pipeH handshakeEvent; PipeListen pipeH messageEvent;
            EmitHandshake pipeH]
  ∧ client.2 = [PipeListen pipeA handshakeEvent;
                PipeListen pipeA messageEvent]
  ∧ Runtime.promises (rt client.1.2) !! p = Some Runtime.Pending
  ∧ hello = {| ChannelEdge.id := h; ChannelEdge.channelIds := [] |}
  ∧ met.2 = [EmitterEmit kEdgeCreate (ArgEdge hello); EmitHandshake pipeA]
  ∧ Runtime.promises (rt met.1) !! p
    = Some (Runtime.Fulfilled (DStr h))
  ∧ reply = {| ChannelEdge.id := a; ChannelEdge.channelIds := [h] |}
  ∧ greeted.2 = [EmitterEmit kEdgeCreate (ArgEdge reply);
                 EmitHandshake pipeH]
  ∧ echo = {| ChannelEdge.id := h; ChannelEdge.channelIds := [a] |}
  ∧ _handleHandshake pipeA echo met.1 = (met.1, [])
  ∧ findEdgeId h (chan met.1) = Some h
  ∧ _edgePipes (chan met.1) !! h = Some pipeA
  ∧ findEdgeId a (chan greeted.1) = Some a
  ∧ _edgePipes (chan greeted.1) !! a = Some pipeH.
Proof.
  intros Hne host client p hello met reply greeted echo.
  destruct (worker_states engine a h spec pipeA pipeH r r' Hne)
    as (Hhello & Hmet & Hreply & Hgeff & Hge & Hgp & Hgid).
  fold host client hello met reply greeted
    in Hhello, Hmet, Hreply, Hgeff, Hge, Hgp, Hgid.
  assert (Hecho : echo
            = {| ChannelEdge.id := h; ChannelEdge.channelIds := [a] |}).
  { unfold echo, getEdge. rewrite Hgid, Hge. simpl.
    by rewrite firstOccurrences_one. }
  split_and!.
  - apply host_built.
  - done.
  - unfold p, client. rewrite client_init. simpl. apply lookup_insert_eq.
  - done.
  - by rewrite Hmet.
  - rewrite Hmet. unfold p, client. rewrite client_init. cbn [fst snd].
    apply settle_pending. simpl. apply lookup_insert_eq.
  - done.
  - done.
  - done.
  - rewrite Hecho, Hmet. cbn [fst].
    unfold _handleHandshake. simpl. rewrite decide_False by done.
    rewrite decide_True by done. rewrite splice_first. simpl.
    rewrite decide_True by done. done.
  - rewrite Hmet. unfold findEdgeId. simpl.
    by rewrite bool_decide_true.
  - rewrite Hmet. simpl. apply lookup_insert_eq.
  - unfold findEdgeId. rewrite Hge. simpl. by rewrite bool_decide_true.
  - rewrite Hgp. apply lookup_insert_eq.
Qed.

Lemma worker_handshake_settles_witness :
  let host :=
    Worker.createWorkerHost Scenario.engine "shiki" [("ping", Scenario.ping)] Scenario.h in
  let client :=
    WorkerClient.init "shiki" Scenario.a
      (WorkerClient.new "page" Runtime.init) in
  let met := _handleHandshake Scenario.a (getEdge host.1) client.1.2 in
  let greeted :=
    _handleHandshake Scenario.h (getEdge (chan met.1))
      {| chan := host.1; rt := Runtime.init |} in
  Runtime.promises (rt met.1) !! 0 = Some (Runtime.Fulfilled (DStr "shiki"))
  ∧ getEdge (chan greeted.1)
    = {| ChannelEdge.id := "shiki"; ChannelEdge.channelIds := ["page"] |}
  ∧ _handleHandshake Scenario.a (getEdge (chan greeted.1)) met.1
    = (met.1, []).
Proof.
  intros host client met greeted.
  destruct (worker_handshake_settles Scenario.engine "page" "shiki" [("ping", Scenario.ping)]
              Scenario.a Scenario.h Runtime.init Runtime.init)
    as (_ & _ & _ & _ & _ & H6 & _ & _ & H9 & H10 & _); [discriminate|].
  split_and!; [exact H6|exact H9|exact H10].
Defined.

(** X15 -- Calls over the link of a worker.  Once the two sides have met,
    [run] on the client sends the request on the pipe to the worker, and
    the host's answer to a request from the client goes out on the
    worker's pipe -- unless the name of the other side is the empty
    string: an empty id counts as no route, the message is dropped, and
    the call can only time out. *)
Theorem worker_call_goes_out engine a h
  (spec : list (string * (list Data → Outcome))) pipeA pipeH
  (r r' : Runtime.t) proc args n m d :
  a ≠ h → source m = a →
  let host := Worker.createWorkerHost engine h spec pipeH in
  let client := WorkerClient.init h pipeA (WorkerClient.new a r) in
  let met := _handleHandshake pipeA (getEdge host.1) client.1.2 in
  let greeted :=
    _handleHandshake pipeH (getEdge (chan met.1))
      {| chan := host.1; rt := r' |} in
  let req :=
    request (chan met.1)
      {| in_name := proc; in_destination := h; in_data := DArr args |} n in
  let ans := answer (chan greeted.1) m d in
  (RemoteClient.run h proc args n met.1).2
  = (if truthy h then [PipeEmit pipeA messageEvent (PMessage req)] else [])
  ∧ source req = a ∧ destination req = h
  ∧ _emitMessage ans (chan greeted.1)
    = (if truthy a then [PipeEmit pipeH messageEvent (PMessage ans)] else [])
  ∧ source ans = h ∧ destination ans = a.
Proof.
  intros Hne Hsrc host client met greeted req ans.
  destruct (worker_states engine a h spec pipeA pipeH r r' Hne)
    as (Hhello & Hmet & Hreply & Hgeff & Hge & Hgp & Hgid).
  fold host client met greeted
    in Hhello, Hmet, Hreply, Hgeff, Hge, Hgp, Hgid.
  split_and!.
  - unfold RemoteClient.run. rewrite call_unfold. cbn [fst snd].
    rewrite (emitMessage_same_routes _ (chan met.1)) by done.
    unfold req. rewrite Hmet. unfold _emitMessage, findEdgeId. simpl.
    rewrite bool_decide_true by done. simpl.
    destruct (truthy h); [|done]. by rewrite lookup_insert_eq.
  - unfold req. by rewrite Hmet.
  - done.
  - unfold _emitMessage, findEdgeId. rewrite Hge, Hgp. simpl.
    rewrite Hsrc, bool_decide_true by done. simpl.
    destruct (truthy a); [|done]. by rewrite lookup_insert_eq.
  - exact Hgid.
  - exact Hsrc.
Qed.

Lemma worker_call_goes_out_witness :
  let host :=
    Worker.createWorkerHost Scenario.engine "shiki" [("ping", Scenario.ping)] Scenario.h in
  let client :=
    WorkerClient.init "shiki" Scenario.a
      (WorkerClient.new "page" Runtime.init) in
  let met := _handleHandshake Scenario.a (getEdge host.1) client.1.2 in
  (RemoteClient.run "shiki" "ping" [DNum 1] "n1" met.1).2
  = [PipeEmit Scenario.a messageEvent
       (PMessage
          {| name := "ping"; destination := "shiki"; data := DArr [DNum 1];
             source := "page"; proxiedBy := None; nonce := Some "n1" |})].
Proof.
  intros host client met.
  exact (proj1 (worker_call_goes_out Scenario.engine "page" "shiki" [("ping", Scenario.ping)]
                  Scenario.a Scenario.h Runtime.init Runtime.init
                  "ping" [DNum 1] "n1"
                  {| name := "ping"; destination := "shiki";
                     data := DArr [DNum 1]; source := "page";
                     proxiedBy := None; nonce := Some "n1" |} DUndefined
                  ltac:(discriminate) eq_refl)).
Defined.
End Workers.

(** ** What channels tell each other *)

Section Gossip.
Import Channel Inv Law.

(** X16 -- Handshakes between channels are idempotent.  Whatever the
    state of the sender, the handshake it builds, handled a second time
    by the receiver -- on the same pipe or on another --, changes
    nothing there and causes no announcement: at most a log line. *)
Theorem channel_handshake_is_idempotent (sender : Channel.t) pipe pipe' w :
  let edge := getEdge sender in
  let w1 := (_handleHandshake pipe edge w).1 in
  (_handleHandshake pipe' edge w1).1 = w1
  ∧ (∀ e, e ∈ (_handleHandshake pipe' edge w1).2 → ∃ l, e = Log l)
  ∧ NoDup (ChannelEdge.channelIds edge).
Proof.
  intros edge w1.
  destruct (handshake_idempotent pipe pipe' edge w) as [H1 H2].
  - apply getEdge_names_once.
  - split_and!; [exact H1|exact H2|apply getEdge_NoDup].
Qed.

(** The channel is no peer of itself. *)
Lemma no_self_edge_apply op w :
  id (chan w) ∉ JsMap.keys (_edges (chan w)) →
  id (chan (apply op w)) ∉ JsMap.keys (_edges (chan (apply op w))).
Proof.
  intros Hno. rewrite apply_id.
  destruct (handshake_or_not op) as [(pipe & edge & ->)|Hother].
  - simpl. rewrite (proj1 (handleHandshake_edges pipe edge w)).
    intros [Hk|(Hk & Hne & _)]%keys_merged; [done|]. by apply Hne.
  - by rewrite (proj1 (apply_edges op w Hother)).
Qed.

Lemma table_run name ops :
  Forall (tame (new name)) ops →
  let c := chan (run ops (start name)) in
  edges_wf c ∧ own_id_absent c ∧ id c = name
  ∧ name ∉ JsMap.keys (_edges c).
Proof.
  intros Htame.
  assert (Hstart : edges_wf (chan (start name))
                   ∧ own_id_absent (chan (start name))
                   ∧ id (chan (start name)) = name
                   ∧ name ∉ JsMap.keys (_edges (chan (start name)))).
  { split_and!; try apply new_channel_invariant; [done|].
    by intros ?%elem_of_nil. }
  revert Hstart. generalize (start name).
  induction Htame as [|op ops Hop _ IH]; intros w Hw; [done|].
  rewrite run_cons. apply IH.
  destruct Hw as (Hwf & Hown & Hid & Hno).
  destruct (edge_table_invariant op w) as (Hwf' & Hown' & _ & Hid');
    [|done..|].
  { destruct op; try done. simpl in *. unfold names_once in *.
    by rewrite Hid. }
  split_and!; [done|done|by rewrite Hid'|].
  rewrite <- Hid, <- Hid'. apply no_self_edge_apply. by rewrite Hid.
Qed.

(** X17 -- What a channel announces of itself.  Starting from a new
    channel and whatever it does, as long as the handshakes it handles
    name it at most once -- as every handshake a channel builds does --,
    the edge table has one edge per peer under the peer's id, no edge
    lists the channel itself, the channel is no peer of itself, and so
    the handshake the channel sends never lists the channel, and lists
    no id twice. *)
Theorem channel_never_announces_itself name ops :
  Forall (tame (new name)) ops →
  let c := chan (run ops (start name)) in
  edges_wf c ∧ own_id_absent c
  ∧ ChannelEdge.id (getEdge c) = name
  ∧ (name ∉ ChannelEdge.channelIds (getEdge c))
  ∧ NoDup (ChannelEdge.channelIds (getEdge c)).
Proof.
  intros Htame c. destruct (table_run name ops Htame) as (Hwf & Hown & Hid & Hno).
  fold c in Hwf, Hown, Hid, Hno.
  split_and!; [done|done|by rewrite getEdge_id| |apply getEdge_NoDup].
  rewrite getEdge_ids. intros [Hk|(edge & Hin & Hx)]; [done|].
  apply list_elem_of_fmap in Hin as [[k e] [-> Hin]].
  apply (Hown k e Hin). by rewrite Hid.
Qed.

Lemma channel_never_announces_itself_witness :
  let ops :=
    [HandleHandshake Scenario.b1
       {| ChannelEdge.id := "A"; ChannelEdge.channelIds := ["B"] |};
     HandleHandshake Scenario.b2
       {| ChannelEdge.id := "C"; ChannelEdge.channelIds := ["B"; "A"] |};
     HandleHandshake Scenario.b1
       {| ChannelEdge.id := "A"; ChannelEdge.channelIds := ["B"; "C"] |}] in
  let c := chan (run ops (start "B")) in
  ("B" ∉ ChannelEdge.channelIds (getEdge c))
  ∧ NoDup (ChannelEdge.channelIds (getEdge c)).
Proof.
  intros ops c.
  destruct (channel_never_announces_itself "B" ops) as (_ & _ & _ & H4 & H5).
  - repeat constructor; vm_compute; lia.
  - split; [exact H4|exact H5].
Defined.

(** X18 -- A channel announces what it can route.  With one edge per
    peer, stored under the peer's id, the ids in the handshake the
    channel builds are the destinations [findEdgeId] finds a peer for:
    the peers themselves and what they reach. *)
Theorem announces_what_it_routes (c : Channel.t) x :
  edges_wf c →
  x ∈ ChannelEdge.channelIds (getEdge c) ↔ is_Some (findEdgeId x c).
Proof.
  intros [_ Hkeys]. rewrite getEdge_ids. split.
  - intros Hx. destruct (findEdgeId x c) eqn:Hf; [by eexists|].
    exfalso. rewrite findEdgeId_None in Hf.
    destruct Hx as [Hk|(edge & Hin & Hx)].
    + apply list_elem_of_fmap in Hk as [[k e] [-> Hin]]. simpl in *.
      destruct (Hf e) as [Hne _].
      * apply list_elem_of_fmap. by exists (k, e).
      * by rewrite (Hkeys k e Hin) in Hne.
    + by destruct (Hf edge Hin).
  - intros [y Hy]. apply findEdgeId_Some in Hy as (edge & Hin & Hid & Hor).
    destruct Hor as [->|Hx]; [|right; by exists edge].
    left. apply list_elem_of_fmap in Hin as [[k e] [-> Hin]].
    simpl in Hid. rewrite (Hkeys k e Hin) in Hid. rewrite <- Hid.
    apply list_elem_of_fmap. by exists (k, e).
Qed.

Lemma announces_what_it_routes_witness :
  let c :=
    chan (_handleHandshake Scenario.a
            {| ChannelEdge.id := "B"; ChannelEdge.channelIds := ["C"] |}
            (start "A")).1 in
  "C" ∈ ChannelEdge.channelIds (getEdge c) ↔ is_Some (findEdgeId "C" c).
Proof.
  intros c. apply announces_what_it_routes.
  apply (edge_table_grows (HandleHandshake _ _) (start "A")).
  apply new_channel_invariant.
Defined.
End Gossip.

(** ** Removing listeners *)

Section Off.
Import Channel Inv Law.

(** X19 -- [off].  After [off(name, fn)] an event of that name no longer
    calls [fn], whether it was registered with [on] or with [once] and
    however often; after [off(name)] it calls no one.  The other
    listeners under the name are called as before, and the listeners
    under other names are untouched. *)
Theorem off_silences_a_listener w pipe m (f : option nat) :
  destination m = id (chan w) → proxiedBy m ≠ Some (id (chan w)) →
  nonce m = None →
  let w' := only (off (Named (name m)) (UserFn <$> f)) w in
  (∀ g arg, ListenerCall g arg ∈ (_handleMessage pipe m w').2 ↔
     ListenerCall g arg ∈ (_handleMessage pipe m w).2
     ∧ match f with Some f0 => g ≠ f0 | None => False end)
  ∧ ∀ other arg, other ≠ Named (name m) →
      listenerCalls other arg (chan w') = listenerCalls other arg (chan w).
Proof.
  intros Hd Hp Hn w'.
  assert (He : ∀ v, _handleMessage pipe m v = emit (Named (name m))
                      (ArgData (data m)) v ∨ id (chan v) ≠ id (chan w)).
  { intros v. destruct (decide (id (chan v) = id (chan w))) as [Hv|Hv];
      [left|by right].
    apply handleMessage_event; try (by rewrite Hv). intros n.
    by rewrite Hn. }
  split.
  - intros g arg.
    destruct (He w') as [->|Hne]; [|by destruct Hne].
    destruct (He w) as [->|Hne]; [|by destruct Hne].
    rewrite !emit_effects, !elem_of_cons, !elem_of_listenerCalls.
    unfold w'. simpl. split.
    + intros [?|(-> & r & Hr & Hev & Hfn)]; [done|].
      apply list_elem_of_In, filter_In in Hr as [Hr Hk].
      rewrite bool_decide_true in Hk by done. simpl in Hk.
      split.
      * right. split; [done|]. exists r. split_and!; try done.
        by apply list_elem_of_In.
      * destruct f as [f0|]; simpl in Hk; [|done].
        intros ->. by rewrite Hfn, bool_decide_true in Hk.
    + intros [[?|(-> & r & Hr & Hev & Hfn)] Hf]; [done|]. right.
      split; [done|]. exists r. split_and!; try done.
      apply list_elem_of_In, filter_In. split; [by apply list_elem_of_In|].
      rewrite bool_decide_true by done. simpl.
      destruct f as [f0|]; simpl; [|done].
      rewrite Hfn. apply negb_true_iff, bool_decide_eq_false.
      intros [= ->]. done.
  - intros other arg Hother. unfold listenerCalls, w'. simpl.
    f_equal. induction (_emitter (chan w)) as [|r l IH]; [done|].
    simpl. destruct (decide (r_event r = other)) as [Hr|Hr].
    + rewrite bool_decide_false by (rewrite Hr; done). simpl.
      rewrite !filter_cons_True by done. by rewrite IH.
    + rewrite filter_cons_False by done.
      destruct (negb _); [|done]. by rewrite filter_cons_False.
Qed.

Lemma off_silences_a_listener_witness :
  let w := only (once (Named "tick") (UserFn 2))
             (only (on (Named "tick") (UserFn 1)) (start "B")) in
  let m := {| name := "tick"; destination := "B"; data := DNum 1;
              source := "A"; proxiedBy := None; nonce := None |} in
  let w' := only (off (Named "tick") (Some (UserFn 2))) w in
  (_handleMessage Scenario.b1 m w').2
  = [EmitterEmit (Named "tick") (ArgData (DNum 1));
     ListenerCall 1 (ArgData (DNum 1))]
  ∧ (ListenerCall 2 (ArgData (DNum 1)) ∉ (_handleMessage Scenario.b1 m w').2).
Proof.
  intros w m w'. split; [reflexivity|].
  intros Hin.
  apply (proj1 (off_silences_a_listener w Scenario.b1 m (Some 2)
                  eq_refl ltac:(discriminate) eq_refl)) in Hin.
  by destruct Hin as [_ Hin].
Defined.
End Off.
